(** * Modeling_Tool_MIMIC: a shallow embedding of the execution kernel

    The development follows the Python package [modeling_tool] file by file:
    [exceptions.py], [simulation_time.py], [event.py], [event_queue.py],
    [trigger.py], [execution_log.py], [termination.py], [task.py],
    [component.py], [input_generator.py] (the interface and the fixed
    generator), [executor.py] and [event_executor.py].

    Modelling conventions.
    - Python [float] times are exact rationals ([Q]); NaN and the infinities
      are not values of the model, except for the initial latch of
      [PeriodicTrigger] ([-inf]), which is [None] of an option. Sums and
      differences of times are exact in the model and rounded to binary
      floating point in Python: the two agree where the values and the
      results are exact in binary (0.0, 2.0, 4.0, ...), and may differ in
      the last place elsewhere (0.7 + 0.1).
    - Python [int] is [Z].
    - A [Dict[str, Any]] whose iteration order is never observed is a
      [gmap string value]; the dictionaries of [get_task_execution_order],
      whose [items()] order is observed, are insertion-ordered association
      lists ([PyDict]).
    - Raising is explicit: fallible functions return [result]; functions
      that mutate an object and may raise return the mutated object together
      with the [result].
    - Compiled task bodies and condition expressions are opaque Python code;
      they are embedded by their meaning, a function from the namespace they
      are run in to what they leave behind. Condition expressions (the guard
      of a task, the condition of a [ConditionTrigger] or a
      [StateCondition]) are taken to read the state they are given: an
      expression that writes to it ([state.pop(...)], [state.update(...)])
      is outside the model.
    - Python's recursion limit is a parameter of the one recursive function
      of the package, the depth-first search of the constructor.
    - The message of an exception is kept as far as it names tasks,
      components and rounds; floats and the text of syntax errors that the
      package interpolates are left out. *)

From Stdlib Require Import ZArith QArith Lqa List String Permutation Relations Lia.
From stdpp Require Import base option list sorting gmap strings pretty.

Set Warnings "-register-all,-clear-no-such-hyp".

Open Scope string_scope.
Open Scope list_scope.
Open Scope Z_scope.

(** ** exceptions.py, and the built-in exceptions the package raises *)

Inductive exn : Type :=
| ValueError (msg : string)
| RuntimeError (msg : string)
| KeyError (key : string)
| NameError (msg : string)
| IndexError (msg : string)
| RecursionError (msg : string)
| UserError (msg : string)      (* an Exception raised by user code; [msg] is str(e) *)
| ComponentError (msg : string)
| TaskError (msg : string).

(** [str(e)] as the f-strings of the package render it. *)
Definition str (e : exn) : string :=
  match e with
  | ValueError m | RuntimeError m | NameError m | IndexError m | RecursionError m
  | UserError m | ComponentError m | TaskError m => m
  | KeyError k => "'" +:+ k +:+ "'"
  end.

Inductive result (A : Type) : Type :=
| Ok (a : A)
| Raise (e : exn).
Arguments Ok {A} a.
Arguments Raise {A} e.

#[global] Instance result_ret : MRet result := λ A a, Ok a.
#[global] Instance result_bind : MBind result := λ A B f m,
  match m with
  | Ok a => f a
  | Raise e => Raise e
  end.

(** The values stored in the state, input, output and event-data mappings:
    scalars, so that a copy of a mapping shares nothing with the mapping. *)
Inductive value : Type :=
| VNone
| VBool (b : bool)
| VInt (n : Z)
| VFloat (q : Q)
| VStr (s : string).

Abbreviation dict := (gmap string value).

(** Python's [bool(v)]. *)
Definition truthy (v : value) : bool :=
  match v with
  | VNone => false
  | VBool b => b
  | VInt n => negb (n =? 0)%Z
  | VFloat q => negb (Qeq_bool q 0)
  | VStr s => negb (String.eqb s EmptyString)
  end.

(** [d.update(other)]: the keys of [other] win. *)
Definition update (d other : dict) : dict := other ∪ d.

(** ** simulation_time.py *)

Module SimulationTime.

Record t : Type := mk { current_time : Q; start_time : Q }.

Definition __init__ (initial_time : Q) : t :=
  {| current_time := initial_time; start_time := initial_time |}.

Definition advance_to (new_time : Q) (self : t) : result t :=
  if Qlt_le_dec new_time (current_time self)
  then Raise (ValueError "Cannot move time backwards")
  else Ok {| current_time := new_time; start_time := start_time self |}.

Definition advance_by (delta : Q) (self : t) : result t :=
  if Qlt_le_dec delta 0
  then Raise (ValueError "cannot advance by a negative time")
  else Ok {| current_time := (current_time self + delta)%Q;
             start_time := start_time self |}.

Definition elapsed (self : t) : Q :=
  (current_time self - start_time self)%Q.

(** The second statement of [reset] is the expression
    [self.start_time - time]: it is evaluated and dropped, so
    [start_time] keeps its value. *)
Definition reset (time : Q) (self : t) : t :=
  let self := {| current_time := time; start_time := start_time self |} in
  let _ := (start_time self - time)%Q in
  self.

End SimulationTime.

(** ** event.py *)

Module Event.

Record t : Type := mk {
  time : Q;
  name : string;
  priority : Z;
  data : dict;
  source_task : option string
}.

(** [@dataclass(order=True)]: instances compare as the tuples of their
    [compare=True] fields, [(time, priority)]. *)
Definition lt (a b : t) : bool :=
  match (time a ?= time b)%Q with
  | Lt => true
  | Gt => false
  | Eq => (priority a <? priority b)%Z
  end.

End Event.

(** What [EventEmitter.emit] appends: the dictionary with the keys
    ['name'], ['data'], ['delay'] and ['priority']. *)
Record PendingEvent : Type := mkPending {
  pe_name : string;
  pe_data : dict;
  pe_delay : Q;
  pe_priority : Z
}.

(** One call [emit_event(event_name, data, delay, priority)] of a task body;
    [ec_data = None] is Python's [None], the default. *)
Record EmitCall : Type := mkEmit {
  ec_name : string;
  ec_data : option value;
  ec_delay : Q;
  ec_priority : Z
}.

Module EventEmitter.

Record t : Type := mk { pending_events : list PendingEvent }.

Definition __init__ : t := {| pending_events := [] |}.

Definition emit (c : EmitCall) (self : t) : t :=
  let event_data : dict :=
    match ec_data c with
    | Some v => {[ "value" := v ]}
    | None => ∅
    end in
  {| pending_events :=
       pending_events self ++
       [ {| pe_name := ec_name c; pe_data := event_data;
            pe_delay := ec_delay c; pe_priority := ec_priority c |} ] |}.

Definition get_pending_events (self : t) : list PendingEvent * t :=
  (pending_events self, {| pending_events := [] |}).

End EventEmitter.

(** ** event_queue.py *)

Module EventQueue.

(** The heap holds the tuples [(event.time, event.priority, counter, event)]. *)
Definition entry : Type := Q * Z * Z * Event.t.

Definition entry_time (x : entry) : Q := x.1.1.1.
Definition entry_priority (x : entry) : Z := x.1.1.2.
Definition entry_counter (x : entry) : Z := x.1.2.
Definition entry_event (x : entry) : Event.t := x.2.

(** Python's [<] on these tuples: the first position where the two differ
    decides. *)
Definition tuple_lt (x y : entry) : bool :=
  match (entry_time x ?= entry_time y)%Q with
  | Lt => true
  | Gt => false
  | Eq =>
    match (entry_priority x ?= entry_priority y)%Z with
    | Lt => true
    | Gt => false
    | Eq =>
      match (entry_counter x ?= entry_counter y)%Z with
      | Lt => true
      | Gt => false
      | Eq => Event.lt (entry_event x) (entry_event y)
      end
    end
  end.

(** [heapq] is the Python standard library. Its contract is taken, not its
    array layout: the heap is a bag of items, [heappush] adds one, and
    [heappop] removes and returns a least one. *)
Definition heappush (heap : list entry) (item : entry) : list entry :=
  heap ++ [item].

Fixpoint extract_least (x : entry) (l : list entry) : entry * list entry :=
  match l with
  | [] => (x, [])
  | y :: l' =>
    let '(m, rest) := extract_least y l' in
    if tuple_lt m x then (m, x :: rest) else (x, m :: rest)
  end.

Definition heappop (heap : list entry) : option (entry * list entry) :=
  match heap with
  | [] => None
  | x :: l => Some (extract_least x l)
  end.

Record t : Type := mk { _queue : list entry; _counter : Z }.

Definition __init__ : t := {| _queue := []; _counter := 0 |}.

Definition push (event : Event.t) (self : t) : t :=
  {| _queue := heappush (_queue self)
                 (Event.time event, Event.priority event, _counter self, event);
     _counter := _counter self + 1 |}.

(** [pop] on the level of heap items; [pop] drops all but the event. *)
Definition pop_entry (self : t) : option entry * t :=
  match heappop (_queue self) with
  | Some (item, rest) => (Some item, {| _queue := rest; _counter := _counter self |})
  | None => (None, self)
  end.

Definition pop (self : t) : option Event.t * t :=
  let '(item, self) := pop_entry self in (entry_event <$> item, self).

Definition peek (self : t) : option Event.t :=
  match heappop (_queue self) with
  | Some (item, _) => Some (entry_event item)
  | None => None
  end.

Definition is_empty (self : t) : bool :=
  match _queue self with [] => true | _ => false end.

Definition __len__ (self : t) : Z := Z.of_nat (length (_queue self)).

Definition clear (self : t) : t := {| _queue := []; _counter := 0 |}.



(** The operations a client can apply to a queue. *)
Inductive op : Type :=
| Push (event : Event.t)
| Pop
| Clear.

Definition apply_op (self : t) (o : op) : t :=
  match o with
  | Push e => push e self
  | Pop => (pop self).2
  | Clear => clear self
  end.

Definition run_ops (ops : list op) (self : t) : t :=
  fold_left apply_op ops self.

Definition push_all (events : list Event.t) (self : t) : t :=
  fold_left (fun q e => push e q) events self.

End EventQueue.

(** ** trigger.py *)

Module Trigger.

(** Each class with its attributes; the latch of each is part of the value.
    [last_execution = None] is the initial [-float('inf')]. The compiled
    condition of [ConditionTrigger] is embedded by its meaning under
    [eval] in the namespace [{'state': state, 'current_time': current_time}];
    [Raise] covers every [Exception] of [eval] or of [bool(...)]. *)
Inductive t : Type :=
| PeriodicTrigger (interval : Q) (last_execution : option Q)
| EventTrigger (event_name : string)
| ConditionTrigger (compiled_condition : dict → Q → result value) (was_true : bool)
| ImmediateTrigger (has_run : bool).

Definition is_periodic (self : t) : bool :=
  match self with PeriodicTrigger _ _ => true | _ => false end.

(** [current_time - self.last_execution >= self.interval]; with the latch
    at [-inf] the difference is [+inf], above every interval. *)
Definition period_elapsed (current_time interval : Q) (last_execution : option Q) : bool :=
  match last_execution with
  | None => true
  | Some last => Qle_bool interval (current_time - last)
  end.

(** Returns the answer and the trigger with its latch as the call leaves it. *)
Definition should_activate (self : t) (event_name : string) (state : dict)
    (current_time : Q) : bool * t :=
  match self with
  | PeriodicTrigger interval last_execution =>
    if period_elapsed current_time interval last_execution
    then (true, PeriodicTrigger interval (Some current_time))
    else (false, self)
  | EventTrigger name => (bool_decide (event_name = name), self)
  | ConditionTrigger cond was_true =>
    match cond state current_time with
    | Ok v =>
      let is_true := truthy v in
      (is_true && negb was_true, ConditionTrigger cond is_true)
    | Raise _ => (false, self)
    end
  | ImmediateTrigger has_run =>
    if negb has_run then (true, ImmediateTrigger true) else (false, self)
  end.

(** [PeriodicTrigger.get_next_time]; on the other classes the method does
    not exist, and the executor calls it on periodic triggers that have
    just fired only. With the latch still at [-inf] the sum is [-inf],
    which is no time of the model. *)
Definition get_next_time (self : t) (current_time : Q) : option Q :=
  match self with
  | PeriodicTrigger interval (Some last) => Some (last + interval)%Q
  | _ => None
  end.

End Trigger.

(** ** execution_log.py *)

Module RoundRecord.
Record t : Type := mk {
  round_number : Z;
  inputs : dict;
  outputs : dict;
  state : dict;
  task_order : option (list string)
}.
End RoundRecord.

Module ExecutionLog.

Record t : Type := mk { rounds : list RoundRecord.t }.

Definition __init__ : t := {| rounds := [] |}.

Definition add_round (round_number : Z) (inputs outputs state : dict)
    (task_order : option (list string)) (self : t) : t :=
  {| rounds := rounds self ++
       [ RoundRecord.mk round_number inputs outputs state task_order ] |}.

Definition get_round (round_number : Z) (self : t) : option RoundRecord.t :=
  find (λ r, (RoundRecord.round_number r =? round_number)%Z) (rounds self).

Definition __len__ (self : t) : Z := Z.of_nat (length (rounds self)).

End ExecutionLog.

(** ** termination.py *)

Module TerminationCondition.

(** The keyword arguments the event-driven executor passes and the
    round-based executor does not. *)
Record kwargs : Type := mkKw {
  kw_current_time : option Q;
  kw_event_count : option Z;
  kw_event_queue : option EventQueue.t
}.

Definition no_kwargs : kwargs := mkKw None None None.

(** The compiled condition of [StateCondition] is embedded by its meaning
    under [eval] in the namespace [{'state': state}]. *)
Inductive t : Type :=
| MaxRoundsCondition (max_rounds : Z)
| StateCondition (compiled_condition : dict → result value)
| CompositeCondition (conditions : list t)
| MaxTimeCondition (max_time : Q)
| MaxEventsCondition (max_events : Z)
| EmptyQueueCondition.


Definition CompositeCondition__init__ (conditions : list t) : result t :=
  match conditions with
  | [] => Raise (ValueError "Must provide at least one condition")
  | _ => Ok (CompositeCondition conditions)
  end.

Definition MaxTimeCondition__init__ (max_time : Q) : result t :=
  if Qle_bool max_time 0 then Raise (ValueError "max_time must be positive")
  else Ok (MaxTimeCondition max_time).

Definition MaxEventsCondition__init__ (max_events : Z) : result t :=
  if (max_events <=? 0)%Z then Raise (ValueError "max_events must be positive")
  else Ok (MaxEventsCondition max_events).

(** [should_terminate(round_number, state, log, **kwargs)]. The line that
    [MaxTimeCondition] prints every 1000 rounds is not part of the model. *)
Fixpoint should_terminate (self : t) (round_number : Z) (state : dict)
    (log : ExecutionLog.t) (kw : kwargs) : result bool :=
  match self with
  | MaxRoundsCondition max_rounds => Ok (max_rounds <=? round_number)%Z
  | StateCondition compiled_condition =>
    if (round_number =? 0)%Z then Ok false
    else
      match compiled_condition state with
      | Ok v => Ok (truthy v)
      | Raise e =>
        Raise (RuntimeError ("Error evaluating termination condition: " +:+ str e))
      end
  | CompositeCondition conditions =>
    (fix any (conds : list t) : result bool :=
       match conds with
       | [] => Ok false
       | cond :: conds =>
         match should_terminate cond round_number state log kw with
         | Ok true => Ok true
         | Ok false => any conds
         | Raise e => Raise e
         end
       end) conditions
  | MaxTimeCondition max_time =>
    let current_time := default 0%Q (kw_current_time kw) in
    Ok (Qle_bool max_time current_time)
  | MaxEventsCondition max_events =>
    let event_count := default 0%Z (kw_event_count kw) in
    Ok (max_events <=? event_count)%Z
  | EmptyQueueCondition =>
    match kw_event_queue kw with
    | None => Ok true
    | Some event_queue => Ok (EventQueue.is_empty event_queue)
    end
  end.

End TerminationCondition.

(** ** task.py *)

Module TaskContext.
Record t : Type := mk { inputs : dict; outputs : dict; state : dict }.
End TaskContext.

Module Task.

(** What the event-driven executor adds to the namespace of a task body:
    [current_time] and [event_data] (and [emit_event], whose calls are
    collected in the outcome). *)
Record extras : Type := mkExtras { current_time : Q; event_data : dict }.

(** What running a compiled body leaves behind: the three dictionaries as
    the body mutated them (up to the point where it raised, if it did),
    the calls of [emit_event] it made, and the [Exception] it raised, if
    any. *)
Record outcome : Type := mkOutcome {
  after : TaskContext.t;
  emitted : list EmitCall;
  raised : option exn
}.

(** A compiled body is embedded by its meaning under [exec]: in the
    round-based executor the namespace holds the three wrapped
    dictionaries ([None] for the extras), in the event-driven executor
    the extras as well. [DictWrapper] reads and writes the dictionary it
    wraps, so the dictionaries themselves stand for the wrappers. *)
Definition compiled : Type := TaskContext.t → option extras → outcome.

(** [trigger] and [condition] are attributes set after construction (by
    the loader); [None] is the absent attribute and, for [condition], also
    a value that is not truthy. The guard is embedded by its meaning under
    [eval] in [{'state': state, 'current_time': current_time}]; [Raise]
    covers every [Exception] of [eval] or of [bool(...)]. *)
Record t : Type := mk {
  name : string;
  compiled_code : compiled;
  depends_on : list string;
  trigger : option Trigger.t;
  condition : option (dict → Q → result value)
}.

(** [code = None]: the source text does not compile ([SyntaxError]). *)
Definition __init__ (name : string) (code : option compiled)
    (depends_on : option (list string)) : result t :=
  match code with
  | Some compiled_code =>
    Ok {| name := name; compiled_code := compiled_code;
          depends_on := default [] depends_on;
          trigger := None; condition := None |}
  | None => Raise (TaskError ("Syntax error in task '" +:+ name +:+ "'"))
  end.

Definition set_trigger (trigger : option Trigger.t) (self : t) : t :=
  {| name := name self; compiled_code := compiled_code self;
     depends_on := depends_on self; trigger := trigger;
     condition := condition self |}.

(** [execute]: the body runs on the dictionaries of the context
    themselves, so what it wrote stays written when it raises. *)
Definition execute (self : t) (context : TaskContext.t)
    : TaskContext.t * result unit :=
  let out := compiled_code self context None in
  match raised out with
  | None => (after out, Ok ())
  | Some e =>
    (after out,
     Raise (TaskError ("Error executing task '" +:+ name self +:+ "': " +:+ str e)))
  end.

End Task.

(** ** Insertion-ordered dictionaries

    [get_task_execution_order] iterates over [in_degree.items()], so the
    order of the keys matters there: a key keeps the position of its first
    insertion, a later assignment replaces the value in place. *)

Module PyDict.

Definition t (V : Type) : Type := list (string * V).

Fixpoint get {V} (d : t V) (k : string) : option V :=
  match d with
  | [] => None
  | (k', v) :: d' => if decide (k' = k) then Some v else get d' k
  end.

Fixpoint set {V} (d : t V) (k : string) (v : V) : t V :=
  match d with
  | [] => [(k, v)]
  | (k', v') :: d' =>
    if decide (k' = k) then (k', v) :: d' else (k', v') :: set d' k v
  end.

Definition keys {V} (d : t V) : list string := map fst d.

(** [d[k]], raising [KeyError]. *)
Definition item {V} (d : t V) (k : string) : result V :=
  match get d k with
  | Some v => Ok v
  | None => Raise (KeyError k)
  end.

(** [{key(x): val(x) for x in xs}]. *)
Definition comprehension {A V} (key : A → string) (val : A → V) (xs : list A) : t V :=
  fold_left (λ d x, set d (key x) (val x)) xs [].

End PyDict.

(** ** component.py *)

Module Component.

(** The two concrete subclasses; [Component] itself is abstract. *)
Inductive kind : Type := Synchronous | Asynchronous.

Record t : Type := mk {
  name : string;
  state : dict;
  inputs : list string;
  outputs : list string;
  tasks : list Task.t;
  current_outputs : dict;
  component_type : kind
}.

Definition set_state_outputs (state current_outputs : dict) (self : t) : t :=
  {| name := name self; state := state; inputs := inputs self;
     outputs := outputs self; tasks := tasks self;
     current_outputs := current_outputs;
     component_type := component_type self |}.

Definition set_tasks (tasks : list Task.t) (self : t) : t :=
  {| name := name self; state := state self; inputs := inputs self;
     outputs := outputs self; tasks := tasks;
     current_outputs := current_outputs self;
     component_type := component_type self |}.

(** *** [_has_circular_dependencies] *)

(** [graph = {task.name: task.depends_on for task in self.tasks}]. *)
Definition dependency_graph (tasks : list Task.t) : PyDict.t (list string) :=
  PyDict.comprehension Task.name Task.depends_on tasks.

(** The nested function [dfs] with the two sets it closes over, [visited]
    and [rec_stack], passed in and out. First its loop
    [for neighbor in graph.get(node, [])], given the function to call for
    the recursive calls; falling out of the loop is followed by
    [rec_stack.remove(node); return False]. *)
Fixpoint dfs_for_neighbor
    (dfs : string → gset string → gset string → option (bool * gset string * gset string))
    (node : string) (neighbors : list string) (visited rec_stack : gset string)
    : option (bool * gset string * gset string) :=
  match neighbors with
  | [] => Some (false, visited, rec_stack ∖ {[node]})
  | neighbor :: neighbors =>
    if decide (neighbor ∉ visited) then
      match dfs neighbor visited rec_stack with
      | None => None
      | Some (true, visited, rec_stack) => Some (true, visited, rec_stack)
      | Some (false, visited, rec_stack) =>
        dfs_for_neighbor dfs node neighbors visited rec_stack
      end
    else if decide (neighbor ∈ rec_stack) then Some (true, visited, rec_stack)
    else dfs_for_neighbor dfs node neighbors visited rec_stack
  end.

(** [depth] is the number of calls of [dfs] that can be nested before
    Python's recursion limit is reached; [None] says that a call was made
    with none left, where Python raises [RecursionError]. *)
Fixpoint dfs (depth : nat) (graph : PyDict.t (list string)) (node : string)
    (visited rec_stack : gset string) : option (bool * gset string * gset string) :=
  match depth with
  | O => None
  | S depth =>
    dfs_for_neighbor (dfs depth graph) node
      (default [] (PyDict.get graph node))
      ({[node]} ∪ visited) ({[node]} ∪ rec_stack)
  end.

(** The loop [for task_name in graph]. *)
Fixpoint for_task_name (depth : nat) (graph : PyDict.t (list string))
    (task_names : list string) (visited rec_stack : gset string) : option bool :=
  match task_names with
  | [] => Some false
  | task_name :: task_names =>
    if decide (task_name ∉ visited) then
      match dfs depth graph task_name visited rec_stack with
      | None => None
      | Some (true, _, _) => Some true
      | Some (false, visited, rec_stack) =>
        for_task_name depth graph task_names visited rec_stack
      end
    else for_task_name depth graph task_names visited rec_stack
  end.

(** Every name the search can reach: the keys of the graph and the names
    in the dependency lists. *)
Definition graph_nodes (graph : PyDict.t (list string)) : gset string :=
  list_to_set (PyDict.keys graph) ∪ list_to_set (concat (map snd graph)).

(** [recursion_limit] is the number of calls of [dfs] that Python lets
    nest when the search starts: [sys.getrecursionlimit()] less the frames
    in use at the outermost call of [dfs]. A chain of dependencies that is
    longer makes the search raise [RecursionError], which nothing
    catches. *)
Definition _has_circular_dependencies (recursion_limit : nat) (tasks : list Task.t)
    : result bool :=
  let graph := dependency_graph tasks in
  match for_task_name recursion_limit graph (PyDict.keys graph) ∅ ∅ with
  | Some found => Ok found
  | None => Raise (RecursionError "maximum recursion depth exceeded")
  end.

(** *** [_validate_tasks] *)

Fixpoint check_dependencies (task_names : gset string) (tasks : list Task.t)
    : result unit :=
  match tasks with
  | [] => Ok ()
  | task :: tasks =>
    match find (λ dependency, bool_decide (dependency ∉ task_names))
               (Task.depends_on task) with
    | Some dependency =>
      Raise (ComponentError ("Task '" +:+ Task.name task +:+
                             "' depends on unknown task '" +:+ dependency +:+ "'"))
    | None => check_dependencies task_names tasks
    end
  end.

Definition _validate_tasks (recursion_limit : nat) (name : string)
    (tasks : list Task.t) : result unit :=
  let task_names : gset string := list_to_set (map Task.name tasks) in
  match check_dependencies task_names tasks with
  | Raise e => Raise e
  | Ok _ =>
    match _has_circular_dependencies recursion_limit tasks with
    | Raise e => Raise e
    | Ok true =>
      Raise (ComponentError
        ("Circular task dependencies detected in component '" +:+ name +:+ "'"))
    | Ok false => Ok ()
    end
  end.

(** [Component.__init__] as the two subclasses run it, with the number of
    calls of [dfs] that Python lets nest at the time of the call. *)
Definition __init__ (recursion_limit : nat) (component_type : kind) (name : string)
    (state : dict) (inputs outputs : list string) (tasks : list Task.t) : result t :=
  match _validate_tasks recursion_limit name tasks with
  | Raise e => Raise e
  | Ok _ =>
    Ok {| name := name; state := state; inputs := inputs;
          outputs := outputs; tasks := tasks;
          current_outputs := list_to_map (map (λ output, (output, VNone)) outputs);
          component_type := component_type |}
  end.


(** *** [get_task_execution_order] *)

(** The inner loop [for dependency in task.depends_on]. *)
Fixpoint for_dependency (task_name : string) (dependencies : list string)
    (in_degree : PyDict.t Z) (adjacency : PyDict.t (list string))
    : result (PyDict.t Z * PyDict.t (list string)) :=
  match dependencies with
  | [] => Ok (in_degree, adjacency)
  | dependency :: dependencies =>
    dependents ← PyDict.item adjacency dependency;
    let adjacency := PyDict.set adjacency dependency (dependents ++ [task_name]) in
    degree ← PyDict.item in_degree task_name;
    let in_degree := PyDict.set in_degree task_name (degree + 1) in
    for_dependency task_name dependencies in_degree adjacency
  end.

(** The outer loop [for task in self.tasks]. *)
Fixpoint for_task (tasks : list Task.t)
    (in_degree : PyDict.t Z) (adjacency : PyDict.t (list string))
    : result (PyDict.t Z * PyDict.t (list string)) :=
  match tasks with
  | [] => Ok (in_degree, adjacency)
  | task :: tasks =>
    '(in_degree, adjacency) ←
      for_dependency (Task.name task) (Task.depends_on task) in_degree adjacency;
    for_task tasks in_degree adjacency
  end.

(** The loop [for neighbor in adjacency[current]]. *)
Fixpoint for_neighbor (neighbors : list string)
    (in_degree : PyDict.t Z) (queue : list string)
    : result (PyDict.t Z * list string) :=
  match neighbors with
  | [] => Ok (in_degree, queue)
  | neighbor :: neighbors =>
    degree ← PyDict.item in_degree neighbor;
    let in_degree := PyDict.set in_degree neighbor (degree - 1) in
    let queue := if (degree - 1 =? 0)%Z then queue ++ [neighbor] else queue in
    for_neighbor neighbors in_degree queue
  end.

(** The loop [while queue]; [rounds] bounds the number of iterations and
    [None] says that the bound was reached. *)
Fixpoint while_queue (rounds : nat) (graph : PyDict.t Task.t)
    (adjacency : PyDict.t (list string)) (queue : list string)
    (in_degree : PyDict.t Z) (ordered_tasks : list Task.t)
    : option (result (list Task.t)) :=
  match queue with
  | [] => Some (Ok ordered_tasks)
  | current :: queue =>
    match rounds with
    | O => None
    | S rounds =>
      match
        task ← PyDict.item graph current;
        neighbors ← PyDict.item adjacency current;
        '(in_degree, queue) ← for_neighbor neighbors in_degree queue;
        Ok (task, in_degree, queue)
      with
      | Raise e => Some (Raise e)
      | Ok (task, in_degree, queue) =>
        while_queue rounds graph adjacency queue in_degree (ordered_tasks ++ [task])
      end
    end
  end.

(** No name enters the queue twice, so the loop body runs at most once per
    key of [in_degree]: the bound is not reached (lemma
    [get_task_execution_order_total] below). *)
Definition get_task_execution_order (self : t) : option (result (list Task.t)) :=
  let graph := PyDict.comprehension Task.name (λ task, task) (tasks self) in
  let in_degree := PyDict.comprehension Task.name (λ _, 0%Z) (tasks self) in
  let adjacency := PyDict.comprehension Task.name (λ _, @nil string) (tasks self) in
  match for_task (tasks self) in_degree adjacency with
  | Raise e => Some (Raise e)
  | Ok (in_degree, adjacency) =>
    let queue :=
      map fst (filter (λ item : string * Z, (item.2 =? 0)%Z) in_degree) in
    match while_queue (length in_degree) graph adjacency queue in_degree [] with
    | None => None
    | Some (Raise e) => Some (Raise e)
    | Some (Ok ordered_tasks) =>
      if decide (length ordered_tasks ≠ length (tasks self))
      then Some (Raise (ComponentError
             ("Failed to order tasks for component '" +:+ name self +:+ "'")))
      else Some (Ok ordered_tasks)
    end
  end.

(** *** [execute_round] *)

Definition missing_input (inputs : list string) (input_values : dict) : option string :=
  find (λ input_name, bool_decide (input_values !! input_name = None)) inputs.

(** [for task in ordered_tasks: task.execute(context)]: the context holds
    the component's own dictionaries, the first raise ends the loop. *)
Fixpoint execute_tasks (ordered_tasks : list Task.t) (context : TaskContext.t)
    : TaskContext.t * result unit :=
  match ordered_tasks with
  | [] => (context, Ok ())
  | task :: ordered_tasks =>
    match Task.execute task context with
    | (context, Ok _) => execute_tasks ordered_tasks context
    | (context, Raise e) => (context, Raise e)
    end
  end.

(** Returns the component and [input_values] as the call leaves them, with
    the result. The asynchronous override names two undefined
    identifiers, [CompnonentError] and [ordered_task], and raises
    [NameError] where it reaches them. *)
Definition execute_round (input_values : dict) (self : t)
    : option (t * dict * result dict) :=
  match component_type self with
  | Synchronous =>
    match missing_input (inputs self) input_values with
    | Some input_name =>
      Some (self, input_values,
            Raise (ComponentError ("Missing required input '" +:+ input_name +:+
                                   "' for component '" +:+ name self +:+ "'")))
    | None =>
      match get_task_execution_order self with
      | None => None
      | Some (Raise e) => Some (self, input_values, Raise e)
      | Some (Ok ordered_tasks) =>
        let context :=
          TaskContext.mk input_values (current_outputs self) (state self) in
        let '(context, r) := execute_tasks ordered_tasks context in
        let self := set_state_outputs (TaskContext.state context)
                                      (TaskContext.outputs context) self in
        Some (self, TaskContext.inputs context,
              match r with
              | Ok _ => Ok (current_outputs self)
              | Raise e => Raise e
              end)
      end
    end
  | Asynchronous =>
    match missing_input (inputs self) input_values with
    | Some _ =>
      Some (self, input_values,
            Raise (NameError "name 'CompnonentError' is not defined"))
    | None =>
      match get_task_execution_order self with
      | None => None
      | Some (Raise e) => Some (self, input_values, Raise e)
      | Some (Ok _) =>
        Some (self, input_values,
              Raise (NameError "name 'ordered_task' is not defined"))
      end
    end
  end.

End Component.

(** ** input_generator.py *)

Module InputGenerator.

(** The abstract class: an object with a memory of its own (the random
    generator of [RandomInputGenerator], the terminal of
    [InteractiveInputGenerator]) and the method [generate], which may
    raise. *)
Record t : Type := mk {
  memory : Type;
  current : memory;
  method : memory → list string → Z → dict → result dict * memory
}.

Definition generate (self : t) (input_names : list string) (round_number : Z)
    (current_state : dict) : result dict * t :=
  let '(r, m) := method self (current self) input_names round_number current_state in
  (r, {| memory := memory self; current := m; method := method self |}).

(** Python's [l[i]]: a negative index counts from the end. *)
Definition list_item {A} (l : list A) (i : Z) : result A :=
  let i := if (i <? 0)%Z then (Z.of_nat (length l) + i)%Z else i in
  if (i <? 0)%Z then Raise (IndexError "list index out of range")
  else
    match l !! Z.to_nat i with
    | Some x => Ok x
    | None => Raise (IndexError "list index out of range")
    end.

(** [FixedInputGenerator]. *)
Definition FixedInputGenerator (input_sequence : list dict) : t :=
  {| memory := unit; current := ();
     method := λ _ _ round_number _,
       if (Z.of_nat (length input_sequence) <? round_number)%Z
       then (Raise (ValueError ("No input defined for round " +:+ pretty round_number)), ())
       else (list_item input_sequence (round_number - 1), ()) |}.

End InputGenerator.

(** ** executor.py *)

Module Executor.

Record t : Type := mk {
  component : Component.t;
  input_generator : InputGenerator.t;
  termination_condition : TerminationCondition.t;
  track_task_order : bool;
  log : ExecutionLog.t;
  current_round : Z
}.

Definition __init__ (component : Component.t) (input_generator : InputGenerator.t)
    (termination_condition : TerminationCondition.t) (track_task_order : bool) : t :=
  {| component := component; input_generator := input_generator;
     termination_condition := termination_condition;
     track_task_order := track_task_order;
     log := ExecutionLog.__init__; current_round := 0 |}.

Definition set_log_round (log : ExecutionLog.t) (current_round : Z) (self : t) : t :=
  {| component := component self; input_generator := input_generator self;
     termination_condition := termination_condition self;
     track_task_order := track_task_order self;
     log := log; current_round := current_round |}.

Definition set_component (component : Component.t) (self : t) : t :=
  {| component := component; input_generator := input_generator self;
     termination_condition := termination_condition self;
     track_task_order := track_task_order self;
     log := log self; current_round := current_round self |}.

Definition set_input_generator (input_generator : InputGenerator.t) (self : t) : t :=
  {| component := component self; input_generator := input_generator;
     termination_condition := termination_condition self;
     track_task_order := track_task_order self;
     log := log self; current_round := current_round self |}.

(** The [while] loop of [run]. [fuel] bounds the number of times the
    termination condition is asked; [None] says that the bound was
    reached (also for the bounds inside [execute_round]). The executor is
    returned as the call leaves it, also when it raises. *)
Fixpoint while_not_terminated (fuel : nat) (self : t)
    : option (t * result ExecutionLog.t) :=
  match fuel with
  | O => None
  | S fuel =>
    match TerminationCondition.should_terminate (termination_condition self)
            (current_round self) (Component.state (component self)) (log self)
            TerminationCondition.no_kwargs with
    | Raise e => Some (self, Raise e)
    | Ok true => Some (self, Ok (log self))
    | Ok false =>
      let self := set_log_round (log self) (current_round self + 1) self in
      let '(generated, generator) :=
        InputGenerator.generate (input_generator self)
          (Component.inputs (component self)) (current_round self)
          (Component.state (component self)) in
      let self := set_input_generator generator self in
      match generated with
      | Raise e => Some (self, Raise e)
      | Ok inputs =>
        match
          (if track_task_order self
           then match Component.get_task_execution_order (component self) with
                | None => None
                | Some (Raise e) => Some (Raise e)
                | Some (Ok ordered) => Some (Ok (Some (map Task.name ordered)))
                end
           else Some (Ok None))
        with
        | None => None
        | Some (Raise e) => Some (self, Raise e)
        | Some (Ok task_order) =>
          match Component.execute_round inputs (component self) with
          | None => None
          | Some (component, _, Raise e) =>
            Some (set_component component self,
                  Raise (ComponentError ("Error in round " +:+
                           pretty (current_round self) +:+ ": " +:+ str e)))
          | Some (component, inputs, Ok outputs) =>
            let self := set_component component self in
            let log := ExecutionLog.add_round (current_round self) inputs outputs
                         (Component.state component) task_order (log self) in
            while_not_terminated fuel (set_log_round log (current_round self) self)
          end
        end
      end
    end
  end.

Definition run (fuel : nat) (self : t) : option (t * result ExecutionLog.t) :=
  while_not_terminated fuel (set_log_round ExecutionLog.__init__ 0 self).

Definition reset (self : t) : t := set_log_round ExecutionLog.__init__ 0 self.

End Executor.

(** ** event_executor.py *)

Module EventDrivenExecutor.

Record t : Type := mk {
  component : Component.t;
  input_generator : option InputGenerator.t;
  termination_condition : TerminationCondition.t;
  input_event_name : string;
  input_interval : option Q;
  initial_inputs : dict;
  max_workers : option Z;
  event_queue : EventQueue.t;
  sim_time : SimulationTime.t;
  log : ExecutionLog.t;
  event_count : Z;
  input_round : Z
}.

Definition __init__ (component : Component.t)
    (input_generator : option InputGenerator.t)
    (termination_condition : option TerminationCondition.t)
    (input_event_name : string) (input_interval : option Q)
    (initial_inputs : option dict) (max_workers : option Z) : result t :=
  match Component.component_type component with
  | Component.Synchronous =>
    Raise (ComponentError "EventDrivenExecutor requires AsynchronousComponent")
  | Component.Asynchronous =>
    Ok {| component := component; input_generator := input_generator;
          termination_condition :=
            default TerminationCondition.EmptyQueueCondition termination_condition;
          input_event_name := input_event_name;
          input_interval := input_interval;
          initial_inputs := default ∅ initial_inputs;
          max_workers := max_workers;
          event_queue := EventQueue.__init__;
          sim_time := SimulationTime.__init__ 0;
          log := ExecutionLog.__init__;
          event_count := 0; input_round := 0 |}
  end.

Definition set_component (c : Component.t) (self : t) : t :=
  mk c (input_generator self) (termination_condition self) (input_event_name self)
     (input_interval self) (initial_inputs self) (max_workers self)
     (event_queue self) (sim_time self) (log self) (event_count self)
     (input_round self).

Definition set_event_queue (q : EventQueue.t) (self : t) : t :=
  mk (component self) (input_generator self) (termination_condition self)
     (input_event_name self) (input_interval self) (initial_inputs self)
     (max_workers self) q (sim_time self) (log self) (event_count self)
     (input_round self).

Definition set_sim_time (st : SimulationTime.t) (self : t) : t :=
  mk (component self) (input_generator self) (termination_condition self)
     (input_event_name self) (input_interval self) (initial_inputs self)
     (max_workers self) (event_queue self) st (log self) (event_count self)
     (input_round self).

Definition set_log (l : ExecutionLog.t) (self : t) : t :=
  mk (component self) (input_generator self) (termination_condition self)
     (input_event_name self) (input_interval self) (initial_inputs self)
     (max_workers self) (event_queue self) (sim_time self) l (event_count self)
     (input_round self).

Definition set_event_count (n : Z) (self : t) : t :=
  mk (component self) (input_generator self) (termination_condition self)
     (input_event_name self) (input_interval self) (initial_inputs self)
     (max_workers self) (event_queue self) (sim_time self) (log self) n
     (input_round self).

Definition set_input_round (n : Z) (self : t) : t :=
  mk (component self) (input_generator self) (termination_condition self)
     (input_event_name self) (input_interval self) (initial_inputs self)
     (max_workers self) (event_queue self) (sim_time self) (log self)
     (event_count self) n.

Definition set_input_generator (g : option InputGenerator.t) (self : t) : t :=
  mk (component self) g (termination_condition self)
     (input_event_name self) (input_interval self) (initial_inputs self)
     (max_workers self) (event_queue self) (sim_time self) (log self)
     (event_count self) (input_round self).

Definition set_initial_inputs (d : dict) (self : t) : t :=
  mk (component self) (input_generator self) (termination_condition self)
     (input_event_name self) (input_interval self) d
     (max_workers self) (event_queue self) (sim_time self) (log self)
     (event_count self) (input_round self).

Definition current_time (self : t) : Q :=
  SimulationTime.current_time (sim_time self).

Definition push_event (event : Event.t) (self : t) : t :=
  set_event_queue (EventQueue.push event (event_queue self)) self.

Definition _should_terminate (self : t) : result bool :=
  TerminationCondition.should_terminate (termination_condition self)
    (event_count self) (Component.state (component self)) (log self)
    {| TerminationCondition.kw_current_time := Some (current_time self);
       TerminationCondition.kw_event_count := Some (event_count self);
       TerminationCondition.kw_event_queue := Some (event_queue self) |}.

(** A number is truthy unless it is zero. *)
Definition interval_set (input_interval : option Q) : option Q :=
  match input_interval with
  | Some interval => if Qeq_bool interval 0 then None else Some interval
  | None => None
  end.

Definition _schedule_input_generation (self : t) : t :=
  match input_generator self, interval_set (input_interval self) with
  | Some _, Some _ =>
    push_event (Event.mk 0 "_generate_input" 0 {[ "round" := VInt 1 ]} None) self
  | _, _ => self
  end.

Definition _generate_and_emit_input (self : t) : t * result unit :=
  match input_generator self with
  | None => (self, Ok ())
  | Some generator =>
    let self := set_input_round (input_round self + 1) self in
    let '(generated, generator) :=
      InputGenerator.generate generator (Component.inputs (component self))
        (input_round self) (Component.state (component self)) in
    let self := set_input_generator (Some generator) self in
    match generated with
    | Raise e => (self, Raise (ComponentError ("Error generating unputs: " +:+ str e)))
    | Ok new_inputs =>
      let self := set_initial_inputs (update (initial_inputs self) new_inputs) self in
      let self :=
        push_event (Event.mk (current_time self) (input_event_name self) 0
                      new_inputs None) self in
      match interval_set (input_interval self) with
      | Some interval =>
        (push_event (Event.mk (current_time self + interval) "_generate_input" 0
                       {[ "round" := VInt (input_round self + 1) ]} None) self,
         Ok ())
      | None => (self, Ok ())
      end
    end
  end.

Definition periodic_event (time : Q) (task : Task.t) : Event.t :=
  Event.mk time ("periodic_" +:+ Task.name task) 0
    {[ "task" := VStr (Task.name task) ]} None.

Definition _schedule_periodic_tasks (self : t) : t :=
  fold_left
    (λ self task,
       match Task.trigger task with
       | Some trigger =>
         if Trigger.is_periodic trigger
         then push_event (periodic_event 0 task) self
         else self
       | None => self
       end)
    (Component.tasks (component self)) self.


(** *** [_get_activated_tasks] *)

(** The value of [should_run] after the guard: [eval] of the condition in
    [{'state': ..., 'current_time': ...}], with [except Exception]
    turning a raise into [False]. *)
Definition guard_passes (task : Task.t) (state : dict) (current_time : Q) : bool :=
  match Task.condition task with
  | Some condition =>
    match condition state current_time with
    | Ok v => truthy v
    | Raise _ => false
    end
  | None => true
  end.

(** One iteration of the loop over the tasks: the task with the latch of
    its trigger as the iteration leaves it, the final [should_run], and
    the queue. *)
Definition select_task (event : Event.t) (state : dict) (current_time : Q)
    (task : Task.t) (queue : EventQueue.t) : Task.t * bool * EventQueue.t :=
  match Task.trigger task with
  | None => (task, false, queue)
  | Some trigger =>
    let '(should_run, trigger) :=
      Trigger.should_activate trigger (Event.name event) state current_time in
    let task := Task.set_trigger (Some trigger) task in
    let queue :=
      if Trigger.is_periodic trigger && should_run then
        match Trigger.get_next_time trigger current_time with
        | Some next_time => EventQueue.push (periodic_event next_time task) queue
        | None => queue
        end
      else queue in
    let should_run := should_run && guard_passes task state current_time in
    (task, should_run, queue)
  end.

Fixpoint select_tasks (event : Event.t) (state : dict) (current_time : Q)
    (tasks : list Task.t) (queue : EventQueue.t)
    : list Task.t * list Task.t * EventQueue.t :=
  match tasks with
  | [] => ([], [], queue)
  | task :: tasks =>
    let '(task, should_run, queue) := select_task event state current_time task queue in
    let '(tasks, activated_tasks, queue) :=
      select_tasks event state current_time tasks queue in
    (task :: tasks,
     if should_run then task :: activated_tasks else activated_tasks,
     queue)
  end.

Definition _get_activated_tasks (event : Event.t) (self : t) : list Task.t * t :=
  let '(tasks, activated_tasks, queue) :=
    select_tasks event (Component.state (component self)) (current_time self)
      (Component.tasks (component self)) (event_queue self) in
  (activated_tasks,
   set_event_queue queue (set_component (Component.set_tasks tasks (component self)) self)).

(** *** [_execute_task] *)

(** The private copies taken under [state_lock]. *)
Definition copy_context (self : t) : TaskContext.t :=
  TaskContext.mk (initial_inputs self)
    (Component.current_outputs (component self))
    (Component.state (component self)).

(** [exec(task.compiled_code, task_namespace)] on the private copies. *)
Definition exec_body (task : Task.t) (event : option Event.t) (self : t)
    (context : TaskContext.t) : Task.outcome :=
  Task.compiled_code task context
    (Some {| Task.current_time := current_time self;
             Task.event_data := from_option Event.data ∅ event |}).

(** What [event_emitter.get_pending_events()] returns after the calls. *)
Definition pending_of (calls : list EmitCall) : list PendingEvent :=
  (EventEmitter.get_pending_events
     (fold_left (λ emitter call, EventEmitter.emit call emitter) calls
        EventEmitter.__init__)).1.

(** [self.component.state.update(context.state)], under [state_lock]. *)
Definition merge_state (context : TaskContext.t) (self : t) : t :=
  set_component
    (Component.set_state_outputs
       (update (Component.state (component self)) (TaskContext.state context))
       (Component.current_outputs (component self)) (component self)) self.

(** [self.component.current_outputs.update(context.outputs)], under
    [output_lock]. *)
Definition merge_outputs (context : TaskContext.t) (self : t) : t :=
  set_component
    (Component.set_state_outputs
       (Component.state (component self))
       (update (Component.current_outputs (component self))
               (TaskContext.outputs context)) (component self)) self.

(** The call without an error queue, run by the dispatching thread alone. *)
Definition _execute_task (task : Task.t) (event : option Event.t) (self : t)
    : t * result (list PendingEvent) :=
  let context := copy_context self in
  let out := exec_body task event self context in
  match Task.raised out with
  | None =>
    let self := merge_state (Task.after out) self in
    let self := merge_outputs (Task.after out) self in
    (self, Ok (pending_of (Task.emitted out)))
  | Some e =>
    (self, Raise (TaskError ("Error executing task '" +:+ Task.name task +:+
                             "': " +:+ str e)))
  end.

Definition _schedule_pending_events (pending_events : list PendingEvent)
    (source_task : string) (self : t) : t :=
  fold_left
    (λ self pending_event,
       push_event (Event.mk (current_time self + pe_delay pending_event)
                     (pe_name pending_event) (pe_priority pending_event)
                     (pe_data pending_event) (Some source_task)) self)
    pending_events self.


(** *** [_execute_tasks_parallel]

    The worker threads of the pool each run [_execute_task] with the error
    queue. The two locks make three stretches of that call atomic: taking
    the private copies, merging the state, merging the outputs; [exec]
    between them touches the private copies only. A worker is therefore
    at one of the following points. *)
Inductive worker : Type :=
| Submitted
| Copied (context : TaskContext.t)
| Executed (context : TaskContext.t) (pending_events : list PendingEvent)
| StateMerged (context : TaskContext.t) (pending_events : list PendingEvent)
| Returned (pending_events : list PendingEvent)
| Failed.

Definition finished (w : worker) : bool :=
  match w with Returned _ | Failed => true | _ => false end.

(** The executor, the workers (one per submitted task, in submission
    order), the error queue, and [all_pending_events], to which the
    dispatching thread appends as the futures complete. *)
Record pool : Type := mkPool {
  executor : t;
  workers : list worker;
  error_queue : list (string * exn);
  all_pending_events : list (string * list PendingEvent)
}.

(** Worker [i] takes its next step; a finished worker takes none. *)
Definition step (tasks : list Task.t) (event : Event.t) (p : pool) (i : nat) : pool :=
  match tasks !! i, workers p !! i with
  | Some task, Some w =>
    match w with
    | Submitted =>
      mkPool (executor p) (<[i := Copied (copy_context (executor p))]> (workers p))
        (error_queue p) (all_pending_events p)
    | Copied context =>
      let out := exec_body task (Some event) (executor p) context in
      match Task.raised out with
      | None =>
        mkPool (executor p)
          (<[i := Executed (Task.after out) (pending_of (Task.emitted out))]> (workers p))
          (error_queue p) (all_pending_events p)
      | Some e =>
        mkPool (executor p) (<[i := Failed]> (workers p))
          (error_queue p ++ [(Task.name task, e)]) (all_pending_events p)
      end
    | Executed context pending_events =>
      mkPool (merge_state context (executor p))
        (<[i := StateMerged context pending_events]> (workers p))
        (error_queue p) (all_pending_events p)
    | StateMerged context pending_events =>
      mkPool (merge_outputs context (executor p))
        (<[i := Returned pending_events]> (workers p))
        (error_queue p)
        (all_pending_events p ++
           match pending_events with
           | [] => []
           | _ => [(Task.name task, pending_events)]
           end)
    | Returned _ | Failed => p
    end
  | _, _ => p
  end.

(** An interleaving is the list of the workers' numbers in the order in
    which they take their steps. *)
Definition interleave (tasks : list Task.t) (event : Event.t)
    (schedule : list nat) (p : pool) : pool :=
  fold_left (step tasks event) schedule p.

(** Leaving the [with] block joins the workers: each one that has steps
    left takes them (a worker has at most four). *)
Definition join_schedule (n : nat) : list nat :=
  flat_map (λ i, repeat i 4) (seq 0 n).

Definition join (tasks : list Task.t) (event : Event.t) (p : pool) : pool :=
  interleave tasks event (join_schedule (length tasks)) p.

(** [ThreadPoolExecutor(max_workers=n)] raises [ValueError] for [n <= 0].
    A bound on the number of workers restricts the interleavings; the
    model admits all of them. *)
Definition _execute_tasks_parallel (schedule : list nat) (tasks : list Task.t)
    (event : Event.t) (self : t) : t * result unit :=
  match tasks with
  | [] => (self, Ok ())
  | [task] =>
    match _execute_task task (Some event) self with
    | (self, Ok pending_events) =>
      (_schedule_pending_events pending_events (Task.name task) self, Ok ())
    | (self, Raise e) => (self, Raise e)
    end
  | _ =>
    if from_option (λ n, (n <=? 0)%Z) false (max_workers self)
    then (self, Raise (ValueError "max_workers must be greater than 0"))
    else
      let p := mkPool self (map (λ _, Submitted) tasks) [] [] in
      let p := join tasks event (interleave tasks event schedule p) in
      match error_queue p with
      | (task_name, error) :: _ =>
        (executor p,
         Raise (TaskError ("Error in task '" +:+ task_name +:+ "': " +:+ str error)))
      | [] =>
        (fold_left
           (λ self '(task_name, pending_events),
              _schedule_pending_events pending_events task_name self)
           (all_pending_events p) (executor p),
         Ok ())
      end
  end.

(** *** [run] *)

(** [{'event': event.name, 'time': event.time, **self.initial_inputs}]. *)
Definition round_inputs (event : Event.t) (self : t) : dict :=
  update (<["event" := VStr (Event.name event)]>
            (<["time" := VFloat (Event.time event)]> ∅))
         (initial_inputs self).

(** The [while] loop. [fuel] bounds the number of times the termination
    condition is asked, [None] says that the bound was reached.
    [schedules n] is the interleaving of the workers for the event counted
    as [n]. The executor is returned as the call leaves it, also when it
    raises. *)
Fixpoint while_not_terminated (fuel : nat) (schedules : Z → list nat) (self : t)
    : option (t * result ExecutionLog.t) :=
  match fuel with
  | O => None
  | S fuel =>
    match _should_terminate self with
    | Raise e => Some (self, Raise e)
    | Ok true => Some (self, Ok (log self))
    | Ok false =>
      match EventQueue.pop (event_queue self) with
      | (None, _) => Some (self, Ok (log self))
      | (Some event, queue) =>
        let self := set_event_queue queue self in
        match SimulationTime.advance_to (Event.time event) (sim_time self) with
        | Raise e => Some (self, Raise e)
        | Ok now =>
          let self := set_sim_time now self in
          let self := set_event_count (event_count self + 1) self in
          if decide (Event.name event = "_generate_input") then
            match _generate_and_emit_input self with
            | (self, Raise e) => Some (self, Raise e)
            | (self, Ok _) => while_not_terminated fuel schedules self
            end
          else
            let '(activated_tasks, self) := _get_activated_tasks event self in
            match _execute_tasks_parallel (schedules (event_count self))
                    activated_tasks event self with
            | (self, Raise e) => Some (self, Raise e)
            | (self, Ok _) =>
              let log :=
                ExecutionLog.add_round (event_count self) (round_inputs event self)
                  (Component.current_outputs (component self))
                  (Component.state (component self))
                  (match activated_tasks with
                   | [] => None
                   | _ => Some (map Task.name activated_tasks)
                   end)
                  (log self) in
              while_not_terminated fuel schedules (set_log log self)
            end
        end
      end
    end
  end.

Definition run (fuel : nat) (schedules : Z → list nat) (self : t)
    : option (t * result ExecutionLog.t) :=
  let self := _schedule_periodic_tasks self in
  let self := _schedule_input_generation self in
  let self :=
    if EventQueue.is_empty (event_queue self)
    then push_event (Event.mk 0 "start" 0 ∅ None) self
    else self in
  while_not_terminated fuel schedules self.

Record statistics : Type := mkStatistics {
  total_events : Z;
  simulation_time : Q;
  final_state : dict;
  final_outputs : dict;
  input_rounds : Z
}.

Definition get_statistics (self : t) : statistics :=
  {| total_events := event_count self;
     simulation_time := current_time self;
     final_state := Component.state (component self);
     final_outputs := Component.current_outputs (component self);
     input_rounds := input_round self |}.

End EventDrivenExecutor.

(** * Vocabulary of the statements *)

(** [x] occurs before [y] in the list. *)
Definition occurs_before {A} (l : list A) (x y : A) : Prop :=
  ∃ l1 l2 l3, l = l1 ++ x :: l2 ++ y :: l3.

(** The components of the scenarios are constructed in a script or a test,
    where Python's default recursion limit of 1000 leaves the search of the
    constructor more than 900 nested calls; the scenarios need one or
    two. *)
Definition script_recursion_limit : nat := 900.

(** ** Event queue *)

(** The order of the heap items on their first three positions. Items of one
    queue differ in the third, the insertion counter, so the comparison of
    two of them never reaches the event. *)
Definition key_lt (x y : EventQueue.entry) : Prop :=
  (EventQueue.entry_time x < EventQueue.entry_time y)%Q ∨
  ((EventQueue.entry_time x == EventQueue.entry_time y)%Q ∧
   ((EventQueue.entry_priority x < EventQueue.entry_priority y)%Z ∨
    (EventQueue.entry_priority x = EventQueue.entry_priority y ∧
     (EventQueue.entry_counter x < EventQueue.entry_counter y)%Z))).

(** What every queue built by [push], [pop] and [clear] satisfies: the
    counters in the heap are distinct and below [_counter]. *)
Definition queue_ok (q : EventQueue.t) : Prop :=
  NoDup (map EventQueue.entry_counter (EventQueue._queue q)) ∧
  Forall (λ x, (EventQueue.entry_counter x < EventQueue._counter q)%Z)
         (EventQueue._queue q).

(** [(t1, p1) <= (t2, p2)] on Python tuples. *)
Definition lex_le (k1 k2 : Q * Z) : Prop :=
  (k1.1 < k2.1)%Q ∨ ((k1.1 == k2.1)%Q ∧ (k1.2 <= k2.2)%Z).





(** ** Task selection *)

(** The executor with [tasks] as the tasks of its component. *)
Definition with_tasks (tasks : list Task.t) (self : EventDrivenExecutor.t)
    : EventDrivenExecutor.t :=
  EventDrivenExecutor.set_component
    (Component.set_tasks tasks (EventDrivenExecutor.component self)) self.

(** ** Failing task bodies *)

(** The body that does what [code] does where [code] returns normally and,
    where [code] raises, raises the same exception without having written
    anything or emitted any event. *)
Definition without_failed_writes (code : Task.compiled) : Task.compiled :=
  λ context extras,
    let out := code context extras in
    match Task.raised out with
    | None => out
    | Some e => Task.mkOutcome context [] (Some e)
    end.

Definition task_without_failed_writes (task : Task.t) : Task.t :=
  Task.mk (Task.name task) (without_failed_writes (Task.compiled_code task))
    (Task.depends_on task) (Task.trigger task) (Task.condition task).

(** An asynchronous component with one task, whose trigger fires at once and
    whose guard raises, and an executor on it. *)
Definition raising_guard_task : Task.t :=
  Task.mk "guarded" (λ context _, Task.mkOutcome context [] None) []
    (Some (Trigger.ImmediateTrigger false))
    (Some (λ _ _, Raise (UserError "guard"))).

Definition raising_guard_executor : EventDrivenExecutor.t :=
  EventDrivenExecutor.mk
    (Component.mk "c" ∅ [] [] [raising_guard_task] ∅ Component.Asynchronous)
    None TerminationCondition.EmptyQueueCondition "input_ready" None ∅ None
    EventQueue.__init__ (SimulationTime.__init__ 0) ExecutionLog.__init__ 0 0.

Definition start_event : Event.t := Event.mk 0 "start" 0 ∅ None.

(** ** Scenario: periodic ticking *)

(** [state.ticks += 1]. *)
Definition increment_ticks : Task.compiled := λ context _,
  let write v :=
    Task.mkOutcome
      (TaskContext.mk (TaskContext.inputs context) (TaskContext.outputs context)
         (<["ticks" := v]> (TaskContext.state context)))
      [] None in
  match TaskContext.state context !! "ticks" with
  | Some (VInt n) => write (VInt (n + 1))
  | Some (VBool b) => write (VInt (Z.b2z b + 1))
  | Some (VFloat q) => write (VFloat (q + 1))
  | Some (VStr _) | Some VNone =>
    Task.mkOutcome context [] (Some (UserError "unsupported operand type(s) for +="))
  | None =>
    Task.mkOutcome context []
      (Some (UserError "'DictWrapper' object has no attribute 'ticks'"))
  end.

Definition tick_task : Task.t :=
  Task.mk "tick" increment_ticks [] (Some (Trigger.PeriodicTrigger 2 None)) None.

(** The component with the single task, state [{'ticks': 0}], an executor
    with [MaxTimeCondition(5.0)] on it, and [run()]. *)
Definition periodic_ticking (fuel : nat) (schedules : Z → list nat)
    : option (EventDrivenExecutor.t * result ExecutionLog.t) :=
  match Component.__init__ script_recursion_limit Component.Asynchronous "ticker"
          {[ "ticks" := VInt 0 ]} [] [] [tick_task] with
  | Ok component =>
    match TerminationCondition.MaxTimeCondition__init__ 5 with
    | Ok condition =>
      match EventDrivenExecutor.__init__ component None (Some condition)
              "input_ready" None None None with
      | Ok executor => EventDrivenExecutor.run fuel schedules executor
      | Raise _ => None
      end
    | Raise _ => None
    end
  | Raise _ => None
  end.

(** The times of the events for which the task was activated, as the log
    records them. *)
Definition firing_times (task_name : string) (log : ExecutionLog.t) : list value :=
  omap (λ record,
          match RoundRecord.task_order record with
          | Some names =>
            if bool_decide (task_name ∈ names)
            then RoundRecord.inputs record !! "time"
            else None
          | None => None
          end)
       (ExecutionLog.rounds log).

(** What the claim looks at after a run that returned its log. *)
Definition ticking_observed (r : EventDrivenExecutor.t * result ExecutionLog.t)
    : option (list value * option value * Q) :=
  match r with
  | (self, Ok log) =>
    Some (firing_times "tick" log,
          Component.state (EventDrivenExecutor.component self) !! "ticks",
          EventDrivenExecutor.current_time self)
  | (_, Raise _) => None
  end.

(** ** Scenario: two parallel tasks, one of which raises *)

(** [state.ok = True]. *)
Definition set_ok : Task.compiled := λ context _,
  Task.mkOutcome
    (TaskContext.mk (TaskContext.inputs context) (TaskContext.outputs context)
       (<["ok" := VBool true]> (TaskContext.state context)))
    [] None.

(** [raise Exception("boom")]. *)
Definition raise_boom : Task.compiled := λ context _,
  Task.mkOutcome context [] (Some (UserError "boom")).

Definition task_A : Task.t :=
  Task.mk "A" set_ok [] (Some (Trigger.EventTrigger "start")) None.

Definition task_B : Task.t :=
  Task.mk "B" raise_boom [] (Some (Trigger.EventTrigger "start")) None.

(** The component with the two tasks and an empty state, an executor with
    the default termination condition on it, and [run()]: the queue is empty
    at first, so the event both tasks wait for, [start], is the one [run]
    schedules. *)
Definition parallel_failure (fuel : nat) (schedules : Z → list nat)
    : option (EventDrivenExecutor.t * result ExecutionLog.t) :=
  match Component.__init__ script_recursion_limit Component.Asynchronous "pair"
          ∅ [] [] [task_A; task_B] with
  | Ok component =>
    match EventDrivenExecutor.__init__ component None None "input_ready"
            None None None with
    | Ok executor => EventDrivenExecutor.run fuel schedules executor
    | Raise _ => None
    end
  | Raise _ => None
  end.

(** The steps a worker has left. *)
Definition remaining_steps (w : EventDrivenExecutor.worker) : nat :=
  match w with
  | EventDrivenExecutor.Submitted => 4
  | EventDrivenExecutor.Copied _ => 3
  | EventDrivenExecutor.Executed _ _ => 2
  | EventDrivenExecutor.StateMerged _ _ => 1
  | EventDrivenExecutor.Returned _ | EventDrivenExecutor.Failed => 0
  end.

(** What holds of the pool of two workers, the first of which runs a body
    that returns and the second a body that raises [e], at every point of
    every interleaving started on the executor [self]: only the first
    worker ever writes to the executor, and the error queue holds the
    second worker's exception once it has failed. [merged] is the private
    copy of the first worker after its body has run. *)
Definition pair_invariant (self : EventDrivenExecutor.t) (merged : TaskContext.t)
    (name_B : string) (e : exn) (p : EventDrivenExecutor.pool) : Prop :=
  ∃ worker_A worker_B,
    EventDrivenExecutor.workers p = [worker_A; worker_B] ∧
    match worker_A with
    | EventDrivenExecutor.Submitted => EventDrivenExecutor.executor p = self
    | EventDrivenExecutor.Copied context =>
      EventDrivenExecutor.executor p = self ∧
      context = EventDrivenExecutor.copy_context self
    | EventDrivenExecutor.Executed context _ =>
      EventDrivenExecutor.executor p = self ∧ context = merged
    | EventDrivenExecutor.StateMerged context _ =>
      EventDrivenExecutor.executor p = EventDrivenExecutor.merge_state merged self ∧
      context = merged
    | EventDrivenExecutor.Returned _ =>
      EventDrivenExecutor.executor p
      = EventDrivenExecutor.merge_outputs merged
          (EventDrivenExecutor.merge_state merged self)
    | EventDrivenExecutor.Failed => False
    end ∧
    match worker_B with
    | EventDrivenExecutor.Submitted | EventDrivenExecutor.Copied _ =>
      EventDrivenExecutor.error_queue p = []
    | EventDrivenExecutor.Failed =>
      EventDrivenExecutor.error_queue p = [(name_B, e)]
    | _ => False
    end.

(** The component of the scenario as its constructor returns it, the
    executor as [run] has it when it enters the loop, when it dispatches the
    two tasks, and when [run] raises. *)
Definition pair_component : Component.t :=
  Component.mk "pair" ∅ [] [] [task_A; task_B] ∅ Component.Asynchronous.

Definition pair_at_loop : EventDrivenExecutor.t :=
  EventDrivenExecutor.mk pair_component None TerminationCondition.EmptyQueueCondition
    "input_ready" None ∅ None
    (EventQueue.push start_event EventQueue.__init__)
    (SimulationTime.__init__ 0) ExecutionLog.__init__ 0 0.

Definition pair_at_dispatch : EventDrivenExecutor.t :=
  EventDrivenExecutor.mk pair_component None TerminationCondition.EmptyQueueCondition
    "input_ready" None ∅ None
    (EventQueue.mk [] 1)
    (SimulationTime.__init__ 0) ExecutionLog.__init__ 1 0.

Definition pair_at_raise : EventDrivenExecutor.t :=
  let merged :=
    Task.after (EventDrivenExecutor.exec_body task_A (Some start_event) pair_at_dispatch
                  (EventDrivenExecutor.copy_context pair_at_dispatch)) in
  EventDrivenExecutor.merge_outputs merged
    (EventDrivenExecutor.merge_state merged pair_at_dispatch).

(** ** Round-based executor *)

(** The records of the log are numbered 1, 2, ... in order. *)
Definition numbered_from_one (log : ExecutionLog.t) : Prop :=
  map RoundRecord.round_number (ExecutionLog.rounds log)
  = map Z.of_nat (seq 1 (length (ExecutionLog.rounds log))).


(** Scenario: the counter. One task,
    [count = state.count + inputs.inc; outputs.count = count; state.count = count]. *)
Definition accumulate : Task.compiled := λ context _,
  match TaskContext.state context !! "count", TaskContext.inputs context !! "inc" with
  | Some (VInt c), Some (VInt i) =>
    Task.mkOutcome
      (TaskContext.mk (TaskContext.inputs context)
         (<["count" := VInt (c + i)]> (TaskContext.outputs context))
         (<["count" := VInt (c + i)]> (TaskContext.state context)))
      [] None
  | _, _ => Task.mkOutcome context [] (Some (UserError "count"))
  end.




(** The executor of the counter scenario, written out. *)
Definition counter_component : Component.t :=
  Component.mk "counter" {[ "count" := VInt 0 ]} ["inc"] ["count"]
    [Task.mk "accumulate" accumulate [] None None]
    {[ "count" := VNone ]} Component.Synchronous.

Definition counter_executor_built : Executor.t :=
  Executor.__init__ counter_component
    (InputGenerator.FixedInputGenerator
       [ {[ "inc" := VInt 1 ]}; {[ "inc" := VInt 2 ]}; {[ "inc" := VInt 3 ]} ])
    (TerminationCondition.MaxRoundsCondition 3) false.

(** ** Dependency graph *)

(** [n] depends on [d] in the graph the component builds,
    [{task.name: task.depends_on}]. *)
Definition depends (graph : PyDict.t (list string)) (n d : string) : Prop :=
  ∃ dependencies, PyDict.get graph n = Some dependencies ∧ d ∈ dependencies.

(** The graph contains a cycle: some name reaches itself along one or more
    dependencies. *)
Definition has_cycle (graph : PyDict.t (list string)) : Prop :=
  ∃ n, tc (depends graph) n n.

(** Some [depends_on] names a task that is not in the list. *)
Definition unknown_dependency (tasks : list Task.t) : Prop :=
  ∃ task dependency,
    task ∈ tasks ∧ dependency ∈ Task.depends_on task ∧
    dependency ∉ map Task.name tasks.

(** What holds of [visited] and [rec_stack] between the calls of [dfs]: a
    name that is visited and off the stack is on no cycle, and all it
    depends on is visited and off the stack as well. *)
Definition dfs_invariant (graph : PyDict.t (list string))
    (visited rec_stack : gset string) : Prop :=
  rec_stack ⊆ visited ∧
  ∀ n, n ∈ visited → n ∉ rec_stack →
       ¬ tc (depends graph) n n ∧
       ∀ d, depends graph n d → d ∈ visited ∧ d ∉ rec_stack.

(** What a call [dfs(node)] started on [visited] and [rec_stack], with
    [depth] nested calls left, returns. It runs out of calls only when
    fewer are left than there are names not yet visited. *)
Definition dfs_post (graph : PyDict.t (list string)) (node : string)
    (visited rec_stack : gset string) (depth : nat)
    (r : option (bool * gset string * gset string)) : Prop :=
  match r with
  | None => (depth < size (Component.graph_nodes graph ∖ visited))%nat
  | Some (true, _, _) => True
  | Some (false, visited', rec_stack') =>
    visited ⊆ visited' ∧ node ∈ visited' ∧
    visited' ⊆ Component.graph_nodes graph ∧
    rec_stack' = rec_stack ∧ dfs_invariant graph visited' rec_stack'
  end.

(** What the loop over the neighbours of [node] returns, with [depth]
    nested calls left for each neighbour. *)
Definition dfs_for_neighbor_post (graph : PyDict.t (list string)) (node : string)
    (neighbors : list string) (visited rec_stack : gset string) (depth : nat)
    (r : option (bool * gset string * gset string)) : Prop :=
  match r with
  | None => (depth < size (Component.graph_nodes graph ∖ visited))%nat
  | Some (true, _, _) => True
  | Some (false, visited', rec_stack') =>
    visited ⊆ visited' ∧ visited' ⊆ Component.graph_nodes graph ∧
    rec_stack' = rec_stack ∖ {[node]} ∧
    dfs_invariant graph visited' rec_stack ∧
    ∀ d, d ∈ neighbors → d ∈ visited' ∧ d ∉ rec_stack
  end.

(** A body that does nothing, [pass]. *)
Definition pass : Task.compiled := λ context _, Task.mkOutcome context [] None.

(** Two tasks that depend on each other. *)
Definition cyclic_tasks : list Task.t :=
  [Task.mk "a" pass ["b"] None None; Task.mk "b" pass ["a"] None None].

(** Some task named [n] lists [d] in its [depends_on]. *)
Definition task_depends (tasks : list Task.t) (n d : string) : Prop :=
  ∃ task, task ∈ tasks ∧ Task.name task = n ∧ d ∈ Task.depends_on task.

(** The tasks depend on each other in a circle. *)
Definition cyclic (tasks : list Task.t) : Prop :=
  ∃ n, tc (task_depends tasks) n n.

(** The last task named [n] lists [d] in its [depends_on]: what the
    dictionary [{task.name: task.depends_on}] keeps of tasks that share a
    name. *)
Definition last_depends (tasks : list Task.t) (n d : string) : Prop :=
  ∃ task,
    last (filter (λ task, Task.name task = n) tasks) = Some task ∧
    d ∈ Task.depends_on task.

(** A task that depends on itself, followed by a task of the same name
    that depends on nothing. *)
Definition shadowed_cycle : list Task.t :=
  [Task.mk "A" pass ["A"] None None; Task.mk "A" pass [] None None].

(** ** Execution order *)

(** The dependency entries of the tasks, as pairs (dependent, dependency),
    in the order in which [get_task_execution_order] meets them. *)
Definition task_edges (tasks : list Task.t) : list (string * string) :=
  flat_map (λ task, map (λ d, (Task.name task, d)) (Task.depends_on task)) tasks.

(** [adjacency[n]] after the first loop: the dependents of [n], one entry
    per dependency entry. *)
Definition dependents (edges : list (string * string)) (n : string) : list string :=
  map fst (filter (λ e, e.2 = n) edges).

(** The number of dependency entries of [n] that name a task outside
    [done]; with [done = []] it is [in_degree[n]] after the first loop. *)
Definition pending (edges : list (string * string)) (done : list string)
    (n : string) : nat :=
  length (filter (λ e, e.1 = n ∧ e.2 ∉ done) edges).

(** Every task comes after all the tasks it depends on. *)
Definition topologically_ordered (order : list Task.t) : Prop :=
  ∀ before task after,
    order = before ++ task :: after →
    ∀ d, d ∈ Task.depends_on task → d ∈ map Task.name before.

(** The tasks with in-degree zero, in declared order. *)
Definition roots (tasks : list Task.t) : list Task.t :=
  filter (λ task, Task.depends_on task = []) tasks.

(** Stability as the claim words it: two tasks with equal in-degree keep
    their declared order. (The in-degree of a task is the number of its
    dependency entries.) *)
Definition stable_among_equal_in_degree (tasks order : list Task.t) : Prop :=
  ∀ t1 t2,
    occurs_before tasks t1 t2 →
    length (Task.depends_on t1) = length (Task.depends_on t2) →
    occurs_before order t1 t2.

(** What the loop [while queue] keeps true. [done] are the names of the
    tasks ordered so far. *)
Record kahn_invariant (tasks : list Task.t) (queue : list string)
    (in_degree : PyDict.t Z) (ordered_tasks : list Task.t) : Prop := {
  kahn_keys : PyDict.keys in_degree = map Task.name tasks;
  kahn_nodup : NoDup (map Task.name ordered_tasks ++ queue);
  kahn_names : ∀ n, n ∈ map Task.name ordered_tasks ++ queue → n ∈ map Task.name tasks;
  kahn_degree : ∀ n, n ∈ map Task.name tasks →
    PyDict.get in_degree n
    = Some (Z.of_nat (pending (task_edges tasks) (map Task.name ordered_tasks) n));
  kahn_ready : ∀ n, n ∈ map Task.name tasks →
    (n ∈ map Task.name ordered_tasks ++ queue ↔
     pending (task_edges tasks) (map Task.name ordered_tasks) n = 0%nat);
  kahn_tasks : Forall (λ task, task ∈ tasks) ordered_tasks;
  kahn_topological : topologically_ordered ordered_tasks;
  kahn_roots : ∃ later,
    map Task.name ordered_tasks ++ queue = map Task.name (roots tasks) ++ later
}.

(** Scenario: four tasks, declared A, B, C, D; B depends on C, D on A. *)
Definition four_tasks : list Task.t :=
  [Task.mk "A" pass [] None None; Task.mk "B" pass ["C"] None None;
   Task.mk "C" pass [] None None; Task.mk "D" pass ["A"] None None].

(** Scenario: two tasks of the same name, without dependencies. *)
Definition twin_tasks : list Task.t :=
  [Task.mk "A" pass [] None None; Task.mk "A" pass [] None None].

Definition component_of (tasks : list Task.t) : Component.t :=
  Component.mk "c" ∅ [] [] tasks ∅ Component.Synchronous.

(** How often [n] occurs in the list. *)
Definition occurrences (l : list string) (n : string) : nat :=
  length (filter (λ x, x = n) l).

(** What bounds the turns of the loop [while queue] whatever the tasks:
    a name that has been popped ([popped]) or is in the queue has an
    in-degree of zero or less, and such names are pairwise distinct. *)
Record kahn_bounded (queue : list string) (in_degree : PyDict.t Z)
    (popped : list string) : Prop := {
  bounded_nodup : NoDup (popped ++ queue);
  bounded_nonpositive : ∀ n, n ∈ popped ++ queue →
    ∃ v, PyDict.get in_degree n = Some v ∧ (v ≤ 0)%Z
}.

(** * Vocabulary of the further properties *)

(** ** Sequences of calls on one object *)

(** A call of [advance_to] or of [advance_by]. *)
Inductive clock_call : Type :=
| AdvanceTo (new_time : Q)
| AdvanceBy (delta : Q).

(** Both methods raise before they assign, so a caller that catches the
    [ValueError] goes on with the clock as it was. *)
Definition clock_step (clock : SimulationTime.t) (c : clock_call) : SimulationTime.t :=
  match
    match c with
    | AdvanceTo new_time => SimulationTime.advance_to new_time clock
    | AdvanceBy delta => SimulationTime.advance_by delta clock
    end
  with
  | Ok clock' => clock'
  | Raise _ => clock
  end.

Definition clock_run (calls : list clock_call) (clock : SimulationTime.t)
    : SimulationTime.t :=
  fold_left clock_step calls clock.

(** The calls [emit(...)] made one after the other on an emitter. *)
Definition emit_all (calls : list EmitCall) (emitter : EventEmitter.t) : EventEmitter.t :=
  fold_left (λ emitter call, EventEmitter.emit call emitter) calls emitter.

(** One call [should_activate(event_name, state, current_time)]. *)
Record activation_call : Type := mkCall {
  call_event : string;
  call_state : dict;
  call_time : Q
}.

(** The answers of a trigger to a sequence of calls, and the trigger as the
    last call leaves it. *)
Fixpoint activations (trigger : Trigger.t) (calls : list activation_call)
    : list bool * Trigger.t :=
  match calls with
  | [] => ([], trigger)
  | c :: calls =>
    let '(answer, trigger) :=
      Trigger.should_activate trigger (call_event c) (call_state c) (call_time c) in
    let '(answers, trigger) := activations trigger calls in
    (answer :: answers, trigger)
  end.

(** The times of the calls that were answered [True], in order. *)
Fixpoint fired_at (calls : list activation_call) (answers : list bool) : list Q :=
  match calls, answers with
  | c :: calls, true :: answers => call_time c :: fired_at calls answers
  | _ :: calls, false :: answers => fired_at calls answers
  | _, _ => []
  end.

(** What the condition of a [ConditionTrigger] evaluates to at a call:
    [Some b] for a value with [bool(value) = b], [None] when [eval] or
    [bool] raises. *)
Definition condition_at (cond : dict → Q → result value) (c : activation_call)
    : option bool :=
  match cond (call_state c) (call_time c) with
  | Ok v => Some (truthy v)
  | Raise _ => None
  end.

(** ** Termination conditions *)

(** The outcome of the conditions of a composite, one by one. *)
Definition verdicts (conditions : list TerminationCondition.t) (round_number : Z)
    (state : dict) (log : ExecutionLog.t) (kw : TerminationCondition.kwargs)
    : list (result bool) :=
  map (λ cond, TerminationCondition.should_terminate cond round_number state log kw)
      conditions.

(** ** Event queue *)

(** A heap item carries the time and the priority of its event. *)
Definition keyed (x : EventQueue.entry) : Prop :=
  EventQueue.entry_time x = Event.time (EventQueue.entry_event x) ∧
  EventQueue.entry_priority x = Event.priority (EventQueue.entry_event x).

(** The events a queue holds. *)
Definition queued (q : EventQueue.t) : list Event.t :=
  map EventQueue.entry_event (EventQueue._queue q).

(** [(a.time, a.priority) <= (b.time, b.priority)]. *)
Definition not_after (a b : Event.t) : Prop :=
  lex_le (Event.time a, Event.priority a) (Event.time b, Event.priority b).

(** ** Components *)

(** The component [SynchronousComponent(...)] or [AsynchronousComponent(...)]
    returns for tasks that pass validation. *)
Definition constructed (kind : Component.kind) (name : string) (state : dict)
    (inputs outputs : list string) (tasks : list Task.t) : Component.t :=
  Component.mk name state inputs outputs tasks
    (list_to_map (map (λ output, (output, VNone)) outputs)) kind.

(** The context a synchronous round starts its tasks on. *)
Definition round_context (input_values : dict) (self : Component.t) : TaskContext.t :=
  TaskContext.mk input_values (Component.current_outputs self) (Component.state self).

(** ** Event-driven executor *)

(** The event [_schedule_pending_events] makes of one call of [emit_event]
    by the task [source_task] at the time [now]. *)
Definition emitted_event (now : Q) (source_task : string) (call : EmitCall) : Event.t :=
  Event.mk (now + ec_delay call) (ec_name call) (ec_priority call)
    (match ec_data call with
     | Some v => {[ "value" := v ]}
     | None => ∅
     end)
    (Some source_task).

(** The round numbers of the records of a log. *)
Definition round_numbers (log : ExecutionLog.t) : list Z :=
  map RoundRecord.round_number (ExecutionLog.rounds log).

(** The task is the same up to the latch of its trigger. *)
Definition same_task (a b : Task.t) : Prop :=
  Task.name a = Task.name b ∧ Task.compiled_code a = Task.compiled_code b ∧
  Task.depends_on a = Task.depends_on b ∧ Task.condition a = Task.condition b ∧
  (Task.trigger a = None ↔ Task.trigger b = None).

(** What handling one event (choosing the tasks, running them, scheduling
    what they emitted, generating inputs) may change of an executor besides
    its queue: the latches of the triggers, the state, the values of the
    outputs and the inputs, and the count of input rounds. *)
Record within_event (self self' : EventDrivenExecutor.t) : Prop := {
  within_time : EventDrivenExecutor.sim_time self' = EventDrivenExecutor.sim_time self;
  within_count : EventDrivenExecutor.event_count self' = EventDrivenExecutor.event_count self;
  within_log : EventDrivenExecutor.log self' = EventDrivenExecutor.log self;
  within_condition :
    EventDrivenExecutor.termination_condition self'
    = EventDrivenExecutor.termination_condition self;
  within_input_round :
    (EventDrivenExecutor.input_round self ≤ EventDrivenExecutor.input_round self')%Z;
  within_outputs :
    dom (Component.current_outputs (EventDrivenExecutor.component self))
    ⊆ dom (Component.current_outputs (EventDrivenExecutor.component self'));
  within_inputs :
    dom (EventDrivenExecutor.initial_inputs self)
    ⊆ dom (EventDrivenExecutor.initial_inputs self');
  within_tasks :
    Forall2 same_task (Component.tasks (EventDrivenExecutor.component self))
      (Component.tasks (EventDrivenExecutor.component self'))
}.

(** What a run may change of an executor besides its queue, and in which
    direction. *)
Record moved_forward (self self' : EventDrivenExecutor.t) : Prop := {
  forward_time :
    (EventDrivenExecutor.current_time self <= EventDrivenExecutor.current_time self')%Q;
  forward_start :
    SimulationTime.start_time (EventDrivenExecutor.sim_time self')
    = SimulationTime.start_time (EventDrivenExecutor.sim_time self);
  forward_count :
    (EventDrivenExecutor.event_count self ≤ EventDrivenExecutor.event_count self')%Z;
  forward_input_round :
    (EventDrivenExecutor.input_round self ≤ EventDrivenExecutor.input_round self')%Z;
  forward_log :
    ExecutionLog.rounds (EventDrivenExecutor.log self)
    `prefix_of` ExecutionLog.rounds (EventDrivenExecutor.log self');
  forward_outputs :
    dom (Component.current_outputs (EventDrivenExecutor.component self))
    ⊆ dom (Component.current_outputs (EventDrivenExecutor.component self'));
  forward_inputs :
    dom (EventDrivenExecutor.initial_inputs self)
    ⊆ dom (EventDrivenExecutor.initial_inputs self');
  forward_tasks :
    Forall2 same_task (Component.tasks (EventDrivenExecutor.component self))
      (Component.tasks (EventDrivenExecutor.component self'));
  forward_condition :
    EventDrivenExecutor.termination_condition self'
    = EventDrivenExecutor.termination_condition self
}.

(** The records of the log carry increasing numbers, each the count of an
    event handled so far. *)
Definition numbered_by_events (self : EventDrivenExecutor.t) : Prop :=
  (0 ≤ EventDrivenExecutor.event_count self)%Z ∧
  StronglySorted Z.lt (round_numbers (EventDrivenExecutor.log self)) ∧
  Forall (λ n, (1 ≤ n ≤ EventDrivenExecutor.event_count self)%Z)
         (round_numbers (EventDrivenExecutor.log self)).

(** The event that a periodic task which is due at [now] has scheduled for
    its next run. *)
Definition next_run (now : Q) (task : Task.t) : option Event.t :=
  match Task.trigger task with
  | Some (Trigger.PeriodicTrigger interval last_execution) =>
    if Trigger.period_elapsed now interval last_execution
    then Some (Event.mk (now + interval) ("periodic_" +:+ Task.name task) 0
                 {[ "task" := VStr (Task.name task) ]} None)
    else None
  | _ => None
  end.


(** Whether the trigger of the task answers [True] to the event. *)
Definition trigger_fires (event : Event.t) (state : dict) (now : Q) (task : Task.t) : bool :=
  match Task.trigger task with
  | Some trigger => (Trigger.should_activate trigger (Event.name event) state now).1
  | None => false
  end.

(** The executor of the ticking scenario as [run] would find it on a first
    call, with [MaxEventsCondition(3)]. *)
Definition ticking_executor : EventDrivenExecutor.t :=
  EventDrivenExecutor.mk
    (Component.mk "ticker" {[ "ticks" := VInt 0 ]} [] [] [tick_task] ∅
       Component.Asynchronous)
    None (TerminationCondition.MaxEventsCondition 3) "input_ready" None ∅ None
    EventQueue.__init__ (SimulationTime.__init__ 0) ExecutionLog.__init__ 0 0.

(** The events [run] pushes before it enters its loop: one per task with a
    periodic trigger, one for the input generator when there is one and an
    interval is set, and ["start"] when the queue would be empty without
    it. All of them carry the time 0.0. *)
Definition seed_events (self : EventDrivenExecutor.t) : list Event.t :=
  let periodic :=
    map (EventDrivenExecutor.periodic_event 0)
        (filter (λ task, from_option Trigger.is_periodic false (Task.trigger task) = true)
                (Component.tasks (EventDrivenExecutor.component self))) in
  let generation :=
    match EventDrivenExecutor.input_generator self,
          EventDrivenExecutor.interval_set (EventDrivenExecutor.input_interval self) with
    | Some _, Some _ => [Event.mk 0 "_generate_input" 0 {[ "round" := VInt 1 ]} None]
    | _, _ => []
    end in
  match queued (EventDrivenExecutor.event_queue self) ++ periodic ++ generation with
  | [] => [Event.mk 0 "start" 0 ∅ None]
  | _ => periodic ++ generation
  end.

(** The executor as [run] enters its loop. *)
Definition seeded (self : EventDrivenExecutor.t) : EventDrivenExecutor.t :=
  EventDrivenExecutor.set_event_queue
    (EventQueue.push_all (seed_events self) (EventDrivenExecutor.event_queue self)) self.

(** The ticking executor after a run that left its clock at 6.0. *)
Definition ticking_executor_later : EventDrivenExecutor.t :=
  EventDrivenExecutor.set_sim_time (SimulationTime.mk 6 0) ticking_executor.

(** * Simulation time *)

(** C6, at the input [SimulationTime(0.0).reset(5.0)]: [current_time] becomes
    5.0, [start_time] stays 0.0, and [elapsed()] is 5.0, not 0. *)
Theorem reset_keeps_start_time :
  let clock := SimulationTime.reset 5 (SimulationTime.__init__ 0) in
  SimulationTime.current_time clock = 5%Q ∧
  SimulationTime.start_time clock = 0%Q ∧
  SimulationTime.elapsed clock = 5%Q ∧
  ¬ (SimulationTime.elapsed clock == 0)%Q.
Proof. repeat split. intros H. vm_compute in H. discriminate. Qed.

(** [reset] never writes [start_time]. *)
Lemma reset_start_time (time : Q) (clock : SimulationTime.t) :
  SimulationTime.start_time (SimulationTime.reset time clock)
  = SimulationTime.start_time clock.
Proof. reflexivity. Qed.

(** * Termination conditions *)

(** C8. [StateCondition.should_terminate] returns [False] at round 0 whatever
    the state; at a round above 0, when evaluating the condition raises, the
    call raises [RuntimeError] and returns nothing. *)
Theorem state_condition_round_zero_and_errors
    (compiled_condition : dict → result value) (state : dict)
    (log : ExecutionLog.t) (kw : TerminationCondition.kwargs) :
  TerminationCondition.should_terminate
    (TerminationCondition.StateCondition compiled_condition) 0 state log kw
  = Ok false ∧
  ∀ (round_number : Z) (e : exn),
    (round_number > 0)%Z →
    compiled_condition state = Raise e →
    TerminationCondition.should_terminate
      (TerminationCondition.StateCondition compiled_condition) round_number state log kw
    = Raise (RuntimeError ("Error evaluating termination condition: " +:+ str e)).
Proof.
  split; [reflexivity|].
  intros round_number e Hpos Hraise. simpl.
  destruct (Z.eqb_spec round_number 0) as [->|_]; [lia|].
  by rewrite Hraise.
Qed.

Lemma state_condition_round_zero_and_errors_witness :
  TerminationCondition.should_terminate
    (TerminationCondition.StateCondition (λ _, Raise (UserError "boom")))
    0 ∅ ExecutionLog.__init__ TerminationCondition.no_kwargs
  = Ok false ∧
  TerminationCondition.should_terminate
    (TerminationCondition.StateCondition (λ _, Raise (UserError "boom")))
    1 ∅ ExecutionLog.__init__ TerminationCondition.no_kwargs
  = Raise (RuntimeError "Error evaluating termination condition: boom").
Proof.
  destruct (state_condition_round_zero_and_errors
              (λ _, Raise (UserError "boom")) ∅ ExecutionLog.__init__
              TerminationCondition.no_kwargs) as [H0 H1].
  split; [exact H0|].
  apply (H1 1%Z (UserError "boom")); [lia|reflexivity].
Defined.

(** * Task selection *)

Section selection.

Import EventDrivenExecutor.

(** The queue does not decide which tasks are activated. *)
Lemma select_task_queue (event : Event.t) (state : dict) (now : Q)
    (task : Task.t) (q1 q2 : EventQueue.t) :
  (select_task event state now task q1).1 = (select_task event state now task q2).1.
Proof.
  unfold select_task. destruct (Task.trigger task) as [trigger|]; [|done].
  by destruct (Trigger.should_activate trigger (Event.name event) state now).
Qed.

Lemma select_tasks_activated (event : Event.t) (state : dict) (now : Q)
    (tasks : list Task.t) (q1 q2 : EventQueue.t) :
  (select_tasks event state now tasks q1).1.2
  = (select_tasks event state now tasks q2).1.2.
Proof.
  revert q1 q2. induction tasks as [|task tasks IH]; intros q1 q2; [done|].
  simpl. pose proof (select_task_queue event state now task q1 q2) as Hq.
  destruct (select_task event state now task q1) as [[task1 run1] q1'].
  destruct (select_task event state now task q2) as [[task2 run2] q2'].
  simpl in Hq. injection Hq as -> ->.
  specialize (IH q1' q2').
  destruct (select_tasks event state now tasks q1') as [[? ?] ?].
  destruct (select_tasks event state now tasks q2') as [[? ?] ?].
  simpl in *. by rewrite IH.
Qed.

Lemma select_tasks_app (event : Event.t) (state : dict) (now : Q)
    (pre post : list Task.t) (q : EventQueue.t) :
  (select_tasks event state now (pre ++ post) q).1.2
  = (select_tasks event state now pre q).1.2
    ++ (select_tasks event state now post q).1.2.
Proof.
  revert q. induction pre as [|task pre IH]; intros q.
  - simpl. by destruct (select_tasks event state now post q) as [[? ?] ?].
  - simpl. destruct (select_task event state now task q) as [[task' run] q'].
    specialize (IH q').
    rewrite (select_tasks_activated event state now post q' q) in IH.
    destruct (select_tasks event state now (pre ++ post) q') as [[? ?] ?].
    destruct (select_tasks event state now pre q') as [[? ?] ?].
    simpl in *. rewrite IH. by destruct run.
Qed.

(** A guard that is evaluated on an activated task returned a truthy
    value. *)
Lemma select_tasks_guard (event : Event.t) (state : dict) (now : Q)
    (tasks : list Task.t) (q : EventQueue.t) :
  Forall (λ task, guard_passes task state now = true)
         (select_tasks event state now tasks q).1.2.
Proof.
  revert q. induction tasks as [|task tasks IH]; intros q; [constructor|].
  simpl. destruct (select_task event state now task q) as [[task' run] q'] eqn:E.
  specialize (IH q').
  destruct (select_tasks event state now tasks q') as [[? ?] ?]. simpl in *.
  destruct run; [|done]. constructor; [|done].
  unfold select_task in E. destruct (Task.trigger task) as [trigger|]; [|by simplify_eq].
  destruct (Trigger.should_activate trigger (Event.name event) state now)
    as [should_run trigger'].
  injection E as <- Hrun _. by apply andb_true_iff in Hrun as [_ ?].
Qed.

Lemma _get_activated_tasks_fst (event : Event.t) (self : t) :
  (_get_activated_tasks event self).1
  = (select_tasks event (Component.state (component self)) (current_time self)
       (Component.tasks (component self)) (event_queue self)).1.2.
Proof.
  unfold _get_activated_tasks.
  by destruct (select_tasks _ _ _ _ _) as [[? ?] ?].
Qed.

End selection.

(** C9. Let a task of the component have a trigger that fires for the event
    and a guard whose evaluation raises. Then task selection returns (it has
    no way to raise), and the activated tasks are those that the tasks
    declared before it and after it contribute: the task itself is left out.
    Besides, every task that is activated has passed its guard. *)
Theorem guard_error_excludes_task
    (self : EventDrivenExecutor.t) (event : Event.t)
    (pre post : list Task.t) (task : Task.t) (trigger : Trigger.t)
    (condition : dict → Q → result value) (e : exn) :
  Component.tasks (EventDrivenExecutor.component self) = pre ++ task :: post →
  Task.trigger task = Some trigger →
  (Trigger.should_activate trigger (Event.name event)
     (Component.state (EventDrivenExecutor.component self))
     (EventDrivenExecutor.current_time self)).1 = true →
  Task.condition task = Some condition →
  condition (Component.state (EventDrivenExecutor.component self))
            (EventDrivenExecutor.current_time self) = Raise e →
  (EventDrivenExecutor._get_activated_tasks event self).1
  = (EventDrivenExecutor._get_activated_tasks event (with_tasks pre self)).1
    ++ (EventDrivenExecutor._get_activated_tasks event (with_tasks post self)).1
  ∧ Forall (λ activated,
              EventDrivenExecutor.guard_passes activated
                (Component.state (EventDrivenExecutor.component self))
                (EventDrivenExecutor.current_time self) = true)
           (EventDrivenExecutor._get_activated_tasks event self).1.
Proof.
  intros Htasks Htrigger Hfires Hcondition Hraise.
  rewrite !_get_activated_tasks_fst. simpl.
  set (state := Component.state (EventDrivenExecutor.component self)) in *.
  set (now := EventDrivenExecutor.current_time self) in *.
  change (EventDrivenExecutor.current_time (with_tasks pre self)) with now.
  change (EventDrivenExecutor.current_time (with_tasks post self)) with now.
  set (q := EventDrivenExecutor.event_queue self).
  rewrite Htasks. split; [|apply select_tasks_guard].
  rewrite select_tasks_app. f_equal.
  simpl. unfold EventDrivenExecutor.select_task at 1. rewrite Htrigger.
  destruct (Trigger.should_activate trigger (Event.name event) state now)
    as [should_run trigger'] eqn:E.
  simpl in Hfires. subst should_run.
  unfold EventDrivenExecutor.guard_passes. simpl. rewrite Hcondition, Hraise. simpl.
  destruct (EventDrivenExecutor.select_tasks event state now post _)
    as [[? ?] ?] eqn:E1. simpl.
  match type of E1 with
  | EventDrivenExecutor.select_tasks _ _ _ _ ?q1 = _ =>
    by rewrite (select_tasks_activated event state now post q q1), E1
  end.
Qed.

Lemma guard_error_excludes_task_witness :
  (EventDrivenExecutor._get_activated_tasks start_event raising_guard_executor).1 = [].
Proof.
  destruct (guard_error_excludes_task raising_guard_executor start_event
              [] [] raising_guard_task (Trigger.ImmediateTrigger false)
              (λ _ _, Raise (UserError "guard")) (UserError "guard")
              eq_refl eq_refl eq_refl eq_refl eq_refl) as [H _].
  exact H.
Defined.

(** * Failing tasks *)

Section failing_tasks.

Import EventDrivenExecutor.

Lemma exec_body_raised (task : Task.t) (event : option Event.t) (self : t)
    (context : TaskContext.t) :
  Task.raised (exec_body (task_without_failed_writes task) event self context)
  = Task.raised (exec_body task event self context).
Proof.
  unfold exec_body, task_without_failed_writes, without_failed_writes. simpl.
  by destruct (Task.raised (Task.compiled_code task context _)) eqn:E.
Qed.

Lemma exec_body_returned (task : Task.t) (event : option Event.t) (self : t)
    (context : TaskContext.t) :
  Task.raised (exec_body task event self context) = None →
  exec_body (task_without_failed_writes task) event self context
  = exec_body task event self context.
Proof.
  unfold exec_body, task_without_failed_writes, without_failed_writes. simpl.
  by intros ->.
Qed.

Lemma _execute_task_failed_writes (task : Task.t) (event : option Event.t) (self : t) :
  _execute_task (task_without_failed_writes task) event self
  = _execute_task task event self.
Proof.
  unfold _execute_task. rewrite exec_body_raised.
  destruct (Task.raised (exec_body task event self (copy_context self))) eqn:E.
  - done.
  - by rewrite exec_body_returned.
Qed.

(** A worker's step looks at what a raising body left behind in no way. *)
Lemma step_failed_writes (tasks : list Task.t) (event : Event.t) (p : pool) (i : nat) :
  step (map task_without_failed_writes tasks) event p i = step tasks event p i.
Proof.
  unfold step. rewrite list_lookup_fmap.
  destruct (tasks !! i) as [task|]; [|done]. cbn [fmap option_fmap option_map].
  destruct (workers p !! i) as [[]|]; try done.
  rewrite exec_body_raised.
  destruct (Task.raised (exec_body task (Some event) (executor p) context)) eqn:E.
  - done.
  - by rewrite exec_body_returned.
Qed.

Lemma interleave_failed_writes (tasks : list Task.t) (event : Event.t)
    (schedule : list nat) (p : pool) :
  interleave (map task_without_failed_writes tasks) event schedule p
  = interleave tasks event schedule p.
Proof.
  revert p. induction schedule as [|i schedule IH]; intros p; [done|].
  simpl. rewrite step_failed_writes. apply IH.
Qed.

End failing_tasks.

(** C3. For every batch of activated tasks, every event, every state of the
    executor and every interleaving of the workers: processing the batch
    gives the same executor (component state, current outputs, queue and
    all) and the same result or exception as processing the batch in which
    every body, where it raises, has written nothing to its private copies
    and emitted nothing. What a body wrote before it raised is seen by
    nothing. *)
Theorem failed_task_writes_invisible
    (schedule : list nat) (tasks : list Task.t) (event : Event.t)
    (self : EventDrivenExecutor.t) :
  EventDrivenExecutor._execute_tasks_parallel schedule
    (map task_without_failed_writes tasks) event self
  = EventDrivenExecutor._execute_tasks_parallel schedule tasks event self.
Proof.
  destruct tasks as [|task1 [|task2 tasks]]; [done|..].
  - simpl. by rewrite _execute_task_failed_writes.
  - unfold EventDrivenExecutor._execute_tasks_parallel.
    change (map task_without_failed_writes (task1 :: task2 :: tasks))
      with (task_without_failed_writes task1 :: task_without_failed_writes task2
            :: map task_without_failed_writes tasks).
    cbv beta iota.
    change (task_without_failed_writes task1 :: task_without_failed_writes task2
            :: map task_without_failed_writes tasks)
      with (map task_without_failed_writes (task1 :: task2 :: tasks)).
    destruct (from_option _ false _); [done|].
    unfold EventDrivenExecutor.join.
    rewrite !interleave_failed_writes, !length_map, !map_map. done.
Qed.

(** * Event queue: pop order *)

Section event_queue.

Import EventQueue.

Lemma tuple_lt_key_lt (x y : entry) :
  entry_counter x ≠ entry_counter y →
  tuple_lt x y = true ↔ key_lt x y.
Proof.
  intros Hc. unfold tuple_lt, key_lt.
  destruct (Qcompare_spec (entry_time x) (entry_time y)) as [Ht|Ht|Ht].
  - destruct (Z.compare_spec (entry_priority x) (entry_priority y)) as [Hp|Hp|Hp].
    + destruct (Z.compare_spec (entry_counter x) (entry_counter y)) as [Hn|Hn|Hn].
      * done.
      * split; [intros _|done]. right. split; [done|]. right. done.
      * split; [done|]. intros [H|[_ [H|[_ H]]]]; [lra|lia|lia].
    + split; [intros _|done]. right. split; [done|]. by left.
    + split; [done|]. intros [H|[_ [H|[H _]]]]; [lra|lia|lia].
  - split; [intros _; by left|done].
  - split; [done|]. intros [H|[H _]]; lra.
Qed.

Lemma key_lt_trans (x y z : entry) : key_lt x y → key_lt y z → key_lt x z.
Proof.
  unfold key_lt. intros [H1|[H1 H1']] [H2|[H2 H2']].
  - left; lra.
  - left; lra.
  - left; lra.
  - right. split; [lra|].
    destruct H1' as [?|[? ?]], H2' as [?|[? ?]]; [left; lia..|right; split; lia].
Qed.


Lemma key_lt_total (x y : entry) :
  entry_counter x ≠ entry_counter y → key_lt x y ∨ key_lt y x.
Proof.
  intros Hc. unfold key_lt.
  destruct (Qcompare_spec (entry_time x) (entry_time y)) as [Ht|Ht|Ht];
    [|by left; left|by right; left].
  destruct (Z.lt_total (entry_priority x) (entry_priority y)) as [Hp|[Hp|Hp]].
  - left. right. split; [done|]. by left.
  - destruct (Z.lt_total (entry_counter x) (entry_counter y)) as [Hn|[Hn|Hn]];
      [|done|].
    + left. right. split; [done|]. right. done.
    + right. right. split; [lra|]. right. split; [done|lia].
  - right. right. split; [lra|]. by left.
Qed.

(** [extract_least] splits off an item that is below all the others. *)
Lemma extract_least_spec (l : list entry) (x m : entry) (rest : list entry) :
  extract_least x l = (m, rest) →
  NoDup (map entry_counter (x :: l)) →
  x :: l ≡ₚ m :: rest ∧ Forall (key_lt m) rest.
Proof.
  revert x m rest. induction l as [|y l IH]; intros x m rest; simpl.
  - intros [= <- <-] _. split; [done|constructor].
  - destruct (extract_least y l) as [m' rest'] eqn:E.
    intros Hex Hnd.
    assert (NoDup (map entry_counter (y :: l))) as Hnd' by by inversion Hnd.
    destruct (IH _ _ _ E Hnd') as [Hp Hall].
    assert (entry_counter m' ≠ entry_counter x) as Hne.
    { intros Heq. apply NoDup_cons in Hnd as [Hnin _]. apply Hnin.
      rewrite <- Heq. change (entry_counter m' ∈ map entry_counter (y :: l)).
      rewrite Hp. simpl. left. }
    destruct (tuple_lt m' x) eqn:Hlt; injection Hex as <- <-.
    + split.
      * rewrite Hp. apply perm_swap.
      * constructor; [by apply tuple_lt_key_lt|done].
    + split.
      * by rewrite Hp.
      * assert (key_lt x m') as Hxm.
        { destruct (key_lt_total x m') as [?|Hc]; [done|done|].
          apply tuple_lt_key_lt in Hc; [congruence|done]. }
        constructor; [done|].
        eapply Forall_impl; [exact Hall|]. intros z Hz. by eapply key_lt_trans.
Qed.

Lemma queue_ok_push (e : Event.t) (q : t) : queue_ok q → queue_ok (push e q).
Proof.
  intros [Hnd Hlt]. split; simpl; unfold heappush.
  - rewrite map_app. simpl. apply NoDup_app. split; [done|]. split.
    + intros c Hc Hc'. apply list_elem_of_singleton in Hc'. subst c.
      apply list_elem_of_fmap in Hc as (x & Hx & Hin).
      rewrite Forall_forall in Hlt. specialize (Hlt _ Hin).
      unfold entry_counter in *. simpl in Hx. lia.
    + apply NoDup_singleton.
  - apply Forall_app. split.
    + eapply Forall_impl; [exact Hlt|]. simpl. intros; lia.
    + constructor; [|constructor]. unfold entry_counter. simpl. lia.
Qed.

Lemma pop_entry_spec (q q' : t) (x : entry) :
  queue_ok q → pop_entry q = (Some x, q') →
  _queue q ≡ₚ x :: _queue q' ∧ Forall (key_lt x) (_queue q') ∧
  _counter q' = _counter q ∧ queue_ok q'.
Proof.
  intros [Hnd Hlt]. unfold pop_entry, heappop.
  destruct (_queue q) as [|y l] eqn:Hq; [done|].
  destruct (extract_least y l) as [m rest] eqn:E. intros [= <- <-]. simpl.
  destruct (extract_least_spec _ _ _ _ E Hnd) as [Hp Hall].
  split; [done|]. split; [done|]. split; [done|]. split; simpl.
  - assert (NoDup (map entry_counter (m :: rest))) as H
      by (by rewrite <- Hp). by inversion H.
  - rewrite Hp in Hlt. by inversion Hlt.
Qed.

Lemma pop_entry_none (q q' : t) : pop_entry q = (None, q') → _queue q = [].
Proof.
  unfold pop_entry, heappop. destruct (_queue q) as [|y l]; [done|].
  by destruct (extract_least y l).
Qed.

Lemma queue_ok_pop (q : t) : queue_ok q → queue_ok (pop q).2.
Proof.
  intros Hok. unfold pop. destruct (pop_entry q) as [[x|] q'] eqn:E; simpl.
  - by destruct (pop_entry_spec _ _ _ Hok E) as (_ & _ & _ & ?).
  - unfold pop_entry in E. destruct (heappop (_queue q)) as [[??]|]; by simplify_eq.
Qed.

Lemma queue_ok_init : queue_ok __init__.
Proof. split; simpl; constructor. Qed.

Lemma queue_ok_run_ops (ops : list op) (q : t) : queue_ok q → queue_ok (run_ops ops q).
Proof.
  revert q. induction ops as [|o ops IH]; intros q Hq; [done|].
  simpl. apply IH. destruct o; simpl.
  - by apply queue_ok_push.
  - by apply queue_ok_pop.
  - apply queue_ok_init.
Qed.

Lemma queue_ok_push_all (events : list Event.t) (q : t) :
  queue_ok q → queue_ok (push_all events q).
Proof.
  revert q. induction events as [|e es IH]; intros q Hq; [done|].
  simpl. apply IH. by apply queue_ok_push.
Qed.







Lemma extract_least_elem (l : list entry) (x : entry) :
  let r := extract_least x l in x :: l ≡ₚ r.1 :: r.2.
Proof.
  revert x. induction l as [|y l IH]; intros x; simpl; [done|].
  specialize (IH y). destruct (extract_least y l) as [m rest]. simpl in *.
  destruct (tuple_lt m x); simpl.
  - rewrite IH. apply perm_swap.
  - by rewrite IH.
Qed.

Lemma keyed_push (e : Event.t) (q : t) :
  Forall keyed (_queue q) → Forall keyed (_queue (push e q)).
Proof.
  intros H. simpl. unfold heappush. apply Forall_app. split; [done|].
  by repeat constructor.
Qed.

Lemma keyed_pop (q : t) : Forall keyed (_queue q) → Forall keyed (_queue (pop q).2).
Proof.
  intros H. unfold pop, pop_entry, heappop.
  destruct (_queue q) as [|x l] eqn:E; simpl; [by rewrite E|].
  pose proof (extract_least_elem l x) as Hp.
  destruct (extract_least x l) as [m rest]. simpl in *.
  rewrite Hp in H. by apply Forall_cons in H as [_ ?].
Qed.

Lemma keyed_run_ops (ops : list op) (q : t) :
  Forall keyed (_queue q) → Forall keyed (_queue (run_ops ops q)).
Proof.
  revert q. induction ops as [|o ops IH]; intros q Hq; [done|].
  simpl. apply IH. destruct o; simpl.
  - by apply keyed_push.
  - by apply keyed_pop.
  - constructor.
Qed.

Lemma key_lt_not_after (x y : entry) :
  keyed x → keyed y → key_lt x y → not_after (entry_event x) (entry_event y).
Proof.
  intros [Hx1 Hx2] [Hy1 Hy2] H. unfold not_after, lex_le, key_lt in *. simpl.
  rewrite <- Hx1, <- Hx2, <- Hy1, <- Hy2.
  destruct H as [H|[H1 [H2|[H2 _]]]]; [by left|right..]; split; try done; lia.
Qed.

Lemma keyed_push_all (events : list Event.t) (q : t) :
  Forall keyed (_queue q) → Forall keyed (_queue (push_all events q)).
Proof.
  revert q. induction events as [|e events IH]; intros q Hq; [done|].
  simpl. apply IH. by apply keyed_push.
Qed.






End event_queue.



(** * Scenario: periodic ticking *)

(** With enough fuel the run returns, whatever the schedules (no event
    activates more than one task), and this is what it leaves. *)
Lemma periodic_ticking_observed (k : nat) (schedules : Z → list nat) :
  periodic_ticking (5 + k) schedules ≫= ticking_observed
  = Some ([VFloat 0; VFloat 2; VFloat 4; VFloat 6], Some (VInt 4), 6%Q).
Proof. vm_compute. reflexivity. Qed.

Lemma periodic_ticking_fuel (fuel : nat) (schedules : Z → list nat) :
  (fuel < 5)%nat → periodic_ticking fuel schedules = None.
Proof.
  intros H. do 5 (destruct fuel as [|fuel]; [vm_compute; reflexivity|]). lia.
Qed.

(** C1, as the code has it: the loop asks the termination condition before
    it pops, with the time of the event before; after the event at 4.0 the
    time is below 5.0, so the event at 6.0 is popped and dispatched. The
    task fires four times, at 0.0, 2.0, 4.0 and 6.0; at termination
    [state.ticks] is 4 and the simulation time is 6.0. *)
Theorem periodic_ticking_fires_four_times (k : nat) (schedules : Z → list nat) :
  ∃ (self : EventDrivenExecutor.t) (log : ExecutionLog.t),
    periodic_ticking (5 + k) schedules = Some (self, Ok log) ∧
    firing_times "tick" log = [VFloat 0; VFloat 2; VFloat 4; VFloat 6] ∧
    Component.state (EventDrivenExecutor.component self) !! "ticks" = Some (VInt 4) ∧
    EventDrivenExecutor.current_time self = 6%Q.
Proof.
  pose proof (periodic_ticking_observed k schedules) as H.
  destruct (periodic_ticking (5 + k) schedules) as [[self [log|e]]|]; [|done..].
  exists self, log. simpl in H. by injection H as -> -> ->.
Qed.

(** The claim as stated fails: no run of the scenario, with whatever fuel and
    schedules, returns with three firings at 0.0, 2.0 and 4.0, [state.ticks]
    at 3 and the time at 5.0. *)
Lemma periodic_ticking_not_three_times :
  ¬ ∃ (fuel : nat) (schedules : Z → list nat)
      (self : EventDrivenExecutor.t) (log : ExecutionLog.t),
      periodic_ticking fuel schedules = Some (self, Ok log) ∧
      firing_times "tick" log = [VFloat 0; VFloat 2; VFloat 4] ∧
      Component.state (EventDrivenExecutor.component self) !! "ticks" = Some (VInt 3) ∧
      EventDrivenExecutor.current_time self = 5%Q.
Proof.
  intros (fuel & schedules & self & log & Hrun & Hfirings & _).
  destruct (Nat.lt_ge_cases fuel 5) as [Hlt|Hge].
  - rewrite periodic_ticking_fuel in Hrun; done.
  - pose proof (periodic_ticking_observed (fuel - 5) schedules) as H.
    replace (5 + (fuel - 5))%nat with fuel in H by lia.
    rewrite Hrun in H. simpl in H. rewrite Hfirings in H. discriminate.
Qed.

(** * The pool of workers *)

Section pool.

Import EventDrivenExecutor.

Context (tasks : list Task.t) (event : Event.t).

Lemma step_length (p : pool) (i : nat) :
  length (workers (step tasks event p i)) = length (workers p).
Proof.
  unfold step. destruct (tasks !! i) as [task|]; [|done].
  destruct (workers p !! i) as [[]|]; try done; simpl;
    try by rewrite length_insert.
  destruct (Task.raised _); simpl; by rewrite length_insert.
Qed.

Lemma step_other (p : pool) (i j : nat) :
  i ≠ j → workers (step tasks event p i) !! j = workers p !! j.
Proof.
  intros Hne. unfold step. destruct (tasks !! i) as [task|]; [|done].
  destruct (workers p !! i) as [[]|]; try done; simpl;
    try by rewrite list_lookup_insert_ne.
  destruct (Task.raised _); simpl; by rewrite list_lookup_insert_ne.
Qed.

(** A step of a worker that has steps left uses one up at least. *)
Lemma step_progress (p : pool) (i : nat) (task : Task.t) (w : worker) :
  tasks !! i = Some task → workers p !! i = Some w →
  ∃ w', workers (step tasks event p i) !! i = Some w' ∧
        (remaining_steps w' ≤ pred (remaining_steps w))%nat.
Proof.
  intros Ht Hw. assert (i < length (workers p))%nat as Hi
    by (by eapply lookup_lt_Some).
  unfold step. rewrite Ht, Hw.
  destruct w; simpl; try (eexists; split; [by apply list_lookup_insert_eq|simpl; lia]);
    try (eexists; split; [done|simpl; lia]).
  destruct (Task.raised _); simpl;
    (eexists; split; [by apply list_lookup_insert_eq|simpl; lia]).
Qed.

Lemma steps_progress (n : nat) (p : pool) (i : nat) (task : Task.t) (w : worker) :
  tasks !! i = Some task → workers p !! i = Some w →
  ∃ w', workers (interleave tasks event (repeat i n) p) !! i = Some w' ∧
        (remaining_steps w' ≤ remaining_steps w - n)%nat.
Proof.
  intros Ht. revert p w. induction n as [|n IH]; intros p w Hw; simpl.
  - exists w. split; [done|lia].
  - destruct (step_progress p i task w Ht Hw) as (w1 & Hw1 & Hle).
    destruct (IH _ _ Hw1) as (w2 & Hw2 & Hle2).
    exists w2. split; [done|lia].
Qed.

Lemma steps_other (n : nat) (p : pool) (i j : nat) :
  i ≠ j → workers (interleave tasks event (repeat i n) p) !! j = workers p !! j.
Proof.
  intros Hne. revert p. induction n as [|n IH]; intros p; [done|].
  simpl. rewrite IH. by apply step_other.
Qed.

Lemma interleave_app (s1 s2 : list nat) (p : pool) :
  interleave tasks event (s1 ++ s2) p
  = interleave tasks event s2 (interleave tasks event s1 p).
Proof. apply fold_left_app. Qed.

Lemma interleave_length (s : list nat) (p : pool) :
  length (workers (interleave tasks event s p)) = length (workers p).
Proof.
  revert p. induction s as [|i s IH]; intros p; [done|].
  simpl. rewrite IH. apply step_length.
Qed.

(** After the workers [start, start + n) have taken four steps each, they
    are finished; the others are where they were. *)
Lemma join_from (n start : nat) (p : pool) :
  length (workers p) = length tasks →
  (start + n ≤ length tasks)%nat →
  let p' := interleave tasks event (flat_map (λ i, repeat i 4) (seq start n)) p in
  (∀ j w, (start ≤ j < start + n)%nat → workers p' !! j = Some w →
          remaining_steps w = 0%nat) ∧
  (∀ j, (j < start)%nat → workers p' !! j = workers p !! j).
Proof.
  revert start p. induction n as [|n IH]; intros start p Hlen Hle.
  - simpl. split; [intros; lia|done].
  - cbn [seq flat_map]. rewrite interleave_app.
    set (p1 := interleave tasks event (repeat start 4) p).
    assert (length (workers p1) = length tasks) as Hlen1.
    { unfold p1. by rewrite interleave_length. }
    destruct (IH (S start) p1 Hlen1 ltac:(lia)) as [Hfin Hkeep].
    split.
    + intros j w Hj Hw. destruct (decide (j = start)) as [->|Hne].
      * rewrite Hkeep in Hw by lia.
        destruct (lookup_lt_is_Some_2 tasks start ltac:(lia)) as [task Ht].
        destruct (lookup_lt_is_Some_2 (workers p) start ltac:(lia)) as [w0 Hw0].
        destruct (steps_progress 4 p start task w0 Ht Hw0) as (w' & Hw' & Hrem).
        fold p1 in Hw'. rewrite Hw in Hw'. injection Hw' as <-.
        destruct w0; simpl in Hrem; lia.
      * apply (Hfin j); [lia|done].
    + intros j Hj. rewrite Hkeep by lia. unfold p1.
      apply (steps_other 4). lia.
Qed.

(** Joining leaves every worker finished. *)
Lemma join_finished (p : pool) :
  length (workers p) = length tasks →
  Forall (λ w, finished w = true) (workers (join tasks event p)).
Proof.
  intros Hlen. unfold join, join_schedule.
  destruct (join_from (length tasks) 0 p Hlen ltac:(lia)) as [Hfin _].
  apply Forall_lookup. intros j w Hw.
  assert (j < length tasks)%nat as Hj.
  { apply lookup_lt_Some in Hw. rewrite interleave_length in Hw. lia. }
  specialize (Hfin j w ltac:(lia) Hw). by destruct w.
Qed.

End pool.

(** * Two workers, one of which raises *)

Section pair.

Import EventDrivenExecutor.

Context (task_a task_b : Task.t) (event : Event.t) (self : t) (e : exn).
Hypothesis returns_a :
  ∀ context extras, Task.raised (Task.compiled_code task_a context extras) = None.
Hypothesis raises_b :
  ∀ context extras, Task.raised (Task.compiled_code task_b context extras) = Some e.

Let merged : TaskContext.t :=
  Task.after (exec_body task_a (Some event) self (copy_context self)).

Lemma pair_invariant_step (p : pool) (i : nat) :
  pair_invariant self merged (Task.name task_b) e p →
  pair_invariant self merged (Task.name task_b) e
    (step [task_a; task_b] event p i).
Proof.
  intros (wa & wb & Hw & Ha & Hb). unfold step.
  destruct i as [|[|i]]; [rewrite Hw; simpl..|by exists wa, wb].
  - destruct wa as [|context|context pending|context pending|pending|];
      unfold pair_invariant; simpl.
    + eexists _, wb. split; [done|]. split; [|done]. simpl. by rewrite Ha.
    + destruct Ha as [Hex ->].
      unfold exec_body. rewrite returns_a. eexists _, wb. simpl.
      split; [done|]. split; [|done]. split; [done|].
      unfold merged, exec_body. by rewrite Hex.
    + destruct Ha as [Hex ->]. eexists _, wb. simpl.
      split; [done|]. split; [|done]. by rewrite Hex.
    + destruct Ha as [Hex ->]. eexists _, wb. simpl.
      split; [done|]. split; [|done]. by rewrite Hex.
    + by exists (Returned pending), wb.
    + done.
  - destruct wb as [|context|context pending|context pending|pending|];
      unfold pair_invariant; simpl; try done.
    + by eexists wa, _.
    + unfold exec_body. rewrite raises_b. eexists wa, _. simpl.
      split; [done|]. split; [done|]. by rewrite Hb.
    + by exists wa, Failed.
Qed.

Lemma pair_invariant_interleave (schedule : list nat) (p : pool) :
  pair_invariant self merged (Task.name task_b) e p →
  pair_invariant self merged (Task.name task_b) e
    (interleave [task_a; task_b] event schedule p).
Proof.
  revert p. induction schedule as [|i schedule IH]; intros p Hp; [done|].
  simpl. by apply IH, pair_invariant_step.
Qed.

(** Whatever the interleaving: the first task's private copy is merged,
    and the call raises the [TaskError] that names the second task. *)
Lemma pair_result (schedule : list nat) :
  from_option (λ n, (n <=? 0)%Z) false (max_workers self) = false →
  _execute_tasks_parallel schedule [task_a; task_b] event self
  = (merge_outputs merged (merge_state merged self),
     Raise (TaskError ("Error in task '" +:+ Task.name task_b +:+ "': " +:+ str e))).
Proof.
  intros Hmax. unfold _execute_tasks_parallel. rewrite Hmax.
  set (p0 := mkPool self (map (λ _, Submitted) [task_a; task_b]) [] []).
  set (p1 := interleave [task_a; task_b] event schedule p0).
  assert (pair_invariant self merged (Task.name task_b) e p0) as H0
    by (by exists Submitted, Submitted).
  assert (pair_invariant self merged (Task.name task_b) e
            (join [task_a; task_b] event p1)) as (wa & wb & Hw & Ha & Hb)
    by (by apply pair_invariant_interleave, pair_invariant_interleave).
  pose proof (join_finished [task_a; task_b] event p1) as Hfin.
  rewrite Hw in Hfin. unfold p1 in Hfin. rewrite interleave_length in Hfin.
  specialize (Hfin eq_refl).
  apply Forall_cons in Hfin as [Hfa Hfin]. apply Forall_cons in Hfin as [Hfb _].
  destruct wb; try done. rewrite Hb.
  destruct wa; try done. by rewrite Ha.
Qed.

End pair.

(** * Scenario: two parallel tasks, one of which raises *)

Section loop.

Import EventDrivenExecutor.

(** One turn of the loop in which a task raises. *)
Lemma while_not_terminated_raise (fuel : nat) (schedules : Z → list nat)
    (self self' self'' : t) (event : Event.t) (queue : EventQueue.t)
    (now : SimulationTime.t) (activated : list Task.t) (e : exn) :
  _should_terminate self = Ok false →
  EventQueue.pop (event_queue self) = (Some event, queue) →
  SimulationTime.advance_to (Event.time event) (sim_time self) = Ok now →
  Event.name event ≠ "_generate_input" →
  _get_activated_tasks event
    (set_event_count (event_count self + 1)
       (set_sim_time now (set_event_queue queue self))) = (activated, self') →
  _execute_tasks_parallel (schedules (event_count self')) activated event self'
  = (self'', Raise e) →
  while_not_terminated (S fuel) schedules self = Some (self'', Raise e).
Proof.
  intros Hterm Hpop Hadv Hname Hact Hexec. cbn [while_not_terminated].
  rewrite Hterm, Hpop.
  change (sim_time (set_event_queue queue self)) with (sim_time self).
  rewrite Hadv.
  destruct (decide (Event.name event = "_generate_input")); [done|].
  match goal with
  | |- context [_get_activated_tasks event ?s] =>
    change s with (set_event_count (event_count self + 1)
                     (set_sim_time now (set_event_queue queue self)))
  end.
  rewrite Hact, Hexec. done.
Qed.

End loop.

Lemma parallel_failure_loop (fuel : nat) (schedules : Z → list nat) :
  parallel_failure fuel schedules
  = EventDrivenExecutor.while_not_terminated fuel schedules pair_at_loop.
Proof.
  unfold parallel_failure.
  assert (Component.__init__ script_recursion_limit Component.Asynchronous "pair"
            ∅ [] [] [task_A; task_B]
          = Ok pair_component) as -> by (vm_compute; reflexivity).
  reflexivity.
Qed.

(** With fuel the run raises, whatever the interleaving, and leaves the
    executor [pair_at_raise]. *)
Lemma parallel_failure_raises (k : nat) (schedules : Z → list nat) :
  parallel_failure (S k) schedules
  = Some (pair_at_raise, Raise (TaskError "Error in task 'B': boom")).
Proof.
  rewrite parallel_failure_loop.
  eapply (while_not_terminated_raise k schedules pair_at_loop pair_at_dispatch
            pair_at_raise start_event (EventQueue.mk [] 1) (SimulationTime.__init__ 0)
            [task_A; task_B]); try reflexivity; [done|].
  apply (pair_result task_A task_B start_event pair_at_dispatch (UserError "boom"));
    reflexivity.
Qed.

(** C2, as the code has it. Each worker merges its private copy as soon as
    its own body has returned, whatever the other workers do. So, for every
    interleaving of the two workers: [run] raises the [TaskError] that names
    B, no record is appended to the log, and A's write is in the component
    state, [state.ok] is true. *)
Theorem parallel_failure_keeps_successful_write (k : nat) (schedules : Z → list nat) :
  ∃ self : EventDrivenExecutor.t,
    parallel_failure (1 + k) schedules
    = Some (self, Raise (TaskError "Error in task 'B': boom")) ∧
    Component.state (EventDrivenExecutor.component self) !! "ok" = Some (VBool true) ∧
    ExecutionLog.rounds (EventDrivenExecutor.log self) = [].
Proof.
  exists pair_at_raise. split; [apply parallel_failure_raises|].
  split; reflexivity.
Qed.

(** The claim as stated fails: in no run of the scenario that raises is A's
    write missing from the component state. *)
Lemma parallel_failure_write_visible :
  ¬ ∃ (fuel : nat) (schedules : Z → list nat) (self : EventDrivenExecutor.t) (e : exn),
      parallel_failure fuel schedules = Some (self, Raise e) ∧
      Component.state (EventDrivenExecutor.component self) !! "ok" ≠ Some (VBool true).
Proof.
  intros (fuel & schedules & self & e & Hrun & Hok).
  destruct fuel as [|k].
  - rewrite parallel_failure_loop in Hrun. discriminate.
  - rewrite parallel_failure_raises in Hrun. injection Hrun as <- _.
    by apply Hok.
Qed.

(** * Round-based executor *)

Section executor.

Import Executor.

Lemma numbered_add_round (log : ExecutionLog.t) (inputs outputs state : dict)
    (task_order : option (list string)) :
  numbered_from_one log →
  numbered_from_one
    (ExecutionLog.add_round (Z.of_nat (length (ExecutionLog.rounds log)) + 1)
       inputs outputs state task_order log).
Proof.
  unfold numbered_from_one. intros H. simpl.
  rewrite map_app, length_app, H. simpl.
  rewrite Nat.add_1_r, seq_S, map_app. simpl. do 3 f_equal. lia.
Qed.

(** The loop keeps the records numbered and [current_round] at their
    number, and returns the log of the executor. *)
Lemma while_not_terminated_numbered (fuel : nat) (self self' : t)
    (returned : ExecutionLog.t) :
  while_not_terminated fuel self = Some (self', Ok returned) →
  numbered_from_one (log self) →
  current_round self = Z.of_nat (length (ExecutionLog.rounds (log self))) →
  returned = log self' ∧ numbered_from_one returned ∧
  current_round self' = Z.of_nat (length (ExecutionLog.rounds returned)).
Proof.
  revert self. induction fuel as [|fuel IH]; intros self Hrun Hnum Hround; [done|].
  cbn [while_not_terminated] in Hrun.
  destruct (TerminationCondition.should_terminate _ _ _ _ _) as [[]|]; [| |done].
  { by injection Hrun as <- <-. }
  destruct (InputGenerator.generate _ _ _ _) as [[inputs|] generator]; [|done].
  destruct (if track_task_order _ then _ else _) as [[task_order|]|]; [|done..].
  destruct (Component.execute_round _ _) as [[[component' inputs'] [outputs|]]|];
    [|done..].
  apply IH in Hrun; [done| |].
  - cbn. rewrite Hround. by apply numbered_add_round.
  - cbn. rewrite length_app, Hround. simpl. lia.
Qed.




End executor.




(** * Insertion-ordered dictionaries *)

Section pydict.

Context {V : Type}.
Implicit Types (d : PyDict.t V) (k : string) (v : V).

Lemma get_set d k k' v :
  PyDict.get (PyDict.set d k v) k'
  = if decide (k = k') then Some v else PyDict.get d k'.
Proof.
  induction d as [|[k0 v0] d IH]; simpl.
  - destruct (decide (k = k')); [done|]. done.
  - destruct (decide (k0 = k)) as [->|Hne]; simpl.
    + destruct (decide (k = k')); done.
    + destruct (decide (k0 = k')) as [->|Hne'].
      * by destruct (decide (k = k')); [congruence|].
      * done.
Qed.

Lemma keys_set_in d k v : k ∈ PyDict.keys d → PyDict.keys (PyDict.set d k v) = PyDict.keys d.
Proof.
  unfold PyDict.keys. induction d as [|[k0 v0] d IH]; simpl.
  - intros H. by apply elem_of_nil in H.
  - intros H. destruct (decide (k0 = k)) as [->|Hne]; [done|]. simpl. f_equal.
    apply IH. apply elem_of_cons in H as [?|?]; [congruence|done].
Qed.

Lemma keys_set_notin d k v :
  k ∉ PyDict.keys d → PyDict.set d k v = d ++ [(k, v)].
Proof.
  unfold PyDict.keys. induction d as [|[k0 v0] d IH]; simpl; [done|].
  intros H. apply not_elem_of_cons in H as [? ?].
  destruct (decide (k0 = k)); [congruence|]. f_equal. by apply IH.
Qed.

Lemma get_Some_keys d k v : PyDict.get d k = Some v → k ∈ PyDict.keys d.
Proof.
  unfold PyDict.keys. induction d as [|[k0 v0] d IH]; simpl; [done|].
  destruct (decide (k0 = k)) as [->|]; [intros _; left|intros; right; auto].
Qed.

Lemma get_Some_elem d k v : PyDict.get d k = Some v → (k, v) ∈ d.
Proof.
  induction d as [|[k0 v0] d IH]; simpl; [done|].
  destruct (decide (k0 = k)) as [->|]; [intros [= ->]; left|intros; right; auto].
Qed.

Lemma keys_get d k : k ∈ PyDict.keys d → is_Some (PyDict.get d k).
Proof.
  unfold PyDict.keys. induction d as [|[k0 v0] d IH]; simpl.
  - intros H. by apply elem_of_nil in H.
  - intros H. destruct (decide (k0 = k)); [done|].
    apply elem_of_cons in H as [?|?]; [congruence|auto].
Qed.

Lemma elem_of_set d k v k' v' :
  (k', v') ∈ PyDict.set d k v → (k', v') ∈ d ∨ (k' = k ∧ v' = v).
Proof.
  induction d as [|[k0 v0] d IH]; simpl.
  - intros [= -> ->]%list_elem_of_singleton. by right.
  - destruct (decide (k0 = k)) as [->|Hne].
    + intros [[= -> ->]|H]%elem_of_cons; [by right|left; by right].
    + intros [[= -> ->]|H]%elem_of_cons; [left; left|].
      destruct (IH H) as [?|?]; [left; by right|by right].
Qed.

Lemma get_None_keys d k : PyDict.get d k = None → k ∉ PyDict.keys d.
Proof.
  intros H Hin. apply keys_get in Hin as [v Hv]. congruence.
Qed.

End pydict.

(** Comprehensions: a later item replaces the value of an earlier one with
    the same key. *)
Section comprehension.

Context {A V : Type} (key : A → string) (val : A → V).

Lemma comprehension_snoc (xs : list A) (x : A) :
  PyDict.comprehension key val (xs ++ [x])
  = PyDict.set (PyDict.comprehension key val xs) (key x) (val x).
Proof. unfold PyDict.comprehension. by rewrite fold_left_app. Qed.

Lemma get_comprehension (xs : list A) (k : string) :
  PyDict.get (PyDict.comprehension key val xs) k
  = val <$> last (filter (λ x, key x = k) xs).
Proof.
  induction xs as [|x xs IH] using rev_ind; [done|].
  rewrite comprehension_snoc, get_set, filter_app, filter_cons, filter_nil.
  destruct (decide (key x = k)) as [Hk|Hk].
  - by rewrite last_snoc.
  - by rewrite app_nil_r.
Qed.

Lemma keys_comprehension_names (xs : list A) (k : string) :
  k ∈ PyDict.keys (PyDict.comprehension key val xs) ↔ k ∈ map key xs.
Proof.
  induction xs as [|x xs IH] using rev_ind.
  - done.
  - rewrite comprehension_snoc, map_app, elem_of_app. simpl.
    rewrite list_elem_of_singleton, <- IH.
    destruct (decide (key x ∈ PyDict.keys (PyDict.comprehension key val xs)))
      as [Hin|Hnotin].
    + rewrite keys_set_in by done. split; [by left|]. by intros [?| ->].
    + rewrite keys_set_notin by done. unfold PyDict.keys. rewrite map_app.
      rewrite elem_of_app. simpl. by rewrite list_elem_of_singleton.
Qed.

Lemma comprehension_values (xs : list A) (k : string) (v : V) :
  (k, v) ∈ PyDict.comprehension key val xs → ∃ x, x ∈ xs ∧ key x = k ∧ val x = v.
Proof.
  induction xs as [|x xs IH] using rev_ind.
  - intros H. by apply elem_of_nil in H.
  - rewrite comprehension_snoc. intros [H|[-> ->]]%elem_of_set.
    + destruct (IH H) as (y & Hy & ? & ?). exists y.
      split; [apply elem_of_app; by left|done].
    + exists x. split; [apply elem_of_app; right; left|done].
Qed.

Lemma last_filter_elem (P : A → Prop) `{∀ x, Decision (P x)} (xs : list A) (x : A) :
  last (filter P xs) = Some x → x ∈ xs ∧ P x.
Proof.
  intros Hlast. apply last_Some_elem_of in Hlast.
  by apply list_elem_of_filter in Hlast as [? ?].
Qed.

Lemma filter_none (P : A → Prop) `{∀ x, Decision (P x)} (xs : list A) :
  (∀ x, x ∈ xs → ¬ P x) → filter P xs = [].
Proof.
  induction xs as [|x xs IH]; intros Hno; [done|].
  rewrite filter_cons_False by (apply Hno; left). apply IH.
  intros y Hy. apply Hno. by right.
Qed.

Lemma filter_key_nodup (xs : list A) (x : A) :
  NoDup (map key xs) → x ∈ xs → filter (λ y, key y = key x) xs = [x].
Proof.
  induction xs as [|y xs IH]; intros Hnd Hx; [by apply elem_of_nil in Hx|].
  simpl in Hnd. apply NoDup_cons in Hnd as [Hy Hnd]. rewrite filter_cons.
  apply elem_of_cons in Hx as [->|Hx].
  - rewrite decide_True by done. f_equal.
    apply filter_none. intros z Hz Hkey. apply Hy.
    rewrite <- Hkey. apply list_elem_of_fmap. eauto.
  - rewrite decide_False; [by apply IH|].
    intros Hkey. apply Hy. rewrite Hkey. apply list_elem_of_fmap. eauto.
Qed.

End comprehension.

(** * The dependency graph *)

(** The graph [{task.name: task.depends_on}] holds, for each name, the
    dependencies of the last task of that name. *)
Lemma depends_last (tasks : list Task.t) (n d : string) :
  depends (Component.dependency_graph tasks) n d ↔ last_depends tasks n d.
Proof.
  unfold depends, last_depends, Component.dependency_graph.
  rewrite get_comprehension. split.
  - intros (deps & Hget & Hd).
    destruct (last _) as [task|]; [|done]. injection Hget as <-. eauto.
  - intros (task & -> & Hd). eauto.
Qed.

(** With distinct names it holds the dependencies of every task. *)
Lemma depends_distinct (tasks : list Task.t) (n d : string) :
  NoDup (map Task.name tasks) →
  depends (Component.dependency_graph tasks) n d ↔ task_depends tasks n d.
Proof.
  intros Hnd. rewrite depends_last. unfold last_depends, task_depends. split.
  - intros (task & Hlast & Hd).
    apply (last_filter_elem (A:=Task.t)) in Hlast as [? ?]. eauto.
  - intros (task & Htask & <- & Hd). exists task. split; [|done].
    by rewrite (filter_key_nodup Task.name tasks task).
Qed.

Lemma cyclic_distinct (tasks : list Task.t) :
  NoDup (map Task.name tasks) →
  has_cycle (Component.dependency_graph tasks) ↔ cyclic tasks.
Proof.
  intros Hnd. unfold has_cycle, cyclic.
  assert (∀ n m, tc (depends (Component.dependency_graph tasks)) n m
                 ↔ tc (task_depends tasks) n m) as Htc.
  { intros n m. split; intros H.
    - eapply tc_congruence with (f := id); [|exact H].
      intros ??. by apply depends_distinct.
    - eapply tc_congruence with (f := id); [|exact H].
      intros ??. by apply depends_distinct. }
  split; intros [n Hn]; exists n; by apply Htc.
Qed.

(** * Cycle detection *)

Section cycle_detection.

Context (graph : PyDict.t (list string)).

#[local] Abbreviation universe := (Component.graph_nodes graph).

Lemma depends_nodes (n d : string) :
  depends graph n d → n ∈ PyDict.keys graph ∧ n ∈ universe ∧ d ∈ universe.
Proof.
  intros (deps & Hget & Hd). pose proof (get_Some_keys _ _ _ Hget) as Hk.
  split; [done|]. unfold Component.graph_nodes.
  split; [by apply elem_of_union_l, elem_of_list_to_set|].
  apply elem_of_union_r, elem_of_list_to_set, list_elem_of_In, in_concat.
  exists deps. split; [|by apply list_elem_of_In].
  apply in_map_iff. exists (n, deps). split; [done|].
  by apply list_elem_of_In, get_Some_elem.
Qed.

Lemma depends_neighbors (n d : string) :
  depends graph n d ↔ d ∈ default [] (PyDict.get graph n).
Proof.
  unfold depends. destruct (PyDict.get graph n) as [deps|]; simpl.
  - split; [by intros (? & [= <-] & ?)|eauto].
  - split; [by intros (? & ? & ?)|]. intros H. by apply elem_of_nil in H.
Qed.

(** A set that contains all that its members depend on contains all that
    they reach. *)
Lemma closed_reach (finished : string → Prop) (n m : string) :
  (∀ x d, finished x → depends graph x d → finished d) →
  finished n → rtc (depends graph) n m → finished m.
Proof. intros Hclosed Hn Hreach. induction Hreach; eauto. Qed.

Lemma tc_first_step (n : string) :
  tc (depends graph) n n → ∃ d, depends graph n d ∧ rtc (depends graph) d n.
Proof.
  intros H. inversion H as [? ? Hstep|? d ? Hstep Hrest]; subst.
  - exists n. split; [done|constructor].
  - exists d. split; [done|by apply tc_rtc].
Qed.

(** When the loop over the neighbours of [node] has fallen through,
    [node] can leave the stack. *)
Lemma dfs_invariant_pop (node : string) (visited rec_stack : gset string) :
  node ∈ visited → node ∈ rec_stack →
  dfs_invariant graph visited rec_stack →
  (∀ d, depends graph node d → d ∈ visited ∧ d ∉ rec_stack) →
  dfs_invariant graph visited (rec_stack ∖ {[node]}).
Proof.
  intros Hv Hr [Hsub Hinv] Hdeps. split; [set_solver|].
  intros n Hn Hnr. destruct (decide (n = node)) as [->|Hne].
  - split.
    + intros Hcycle. apply tc_first_step in Hcycle as (d & Hd & Hreach).
      assert (node ∈ visited ∧ node ∉ rec_stack) as [_ ?]; [|done].
      apply (closed_reach (λ x, x ∈ visited ∧ x ∉ rec_stack) d node); [|by apply Hdeps|done].
      intros x y [Hx Hx'] Hxy. by apply (Hinv x).
    + intros d Hd. destruct (Hdeps d Hd). set_solver.
  - assert (n ∉ rec_stack) as Hnr' by set_solver.
    destruct (Hinv n Hn Hnr') as [Hsafe Hclosed]. split; [done|].
    intros d Hd. destruct (Hclosed d Hd). set_solver.
Qed.

(** Putting a name that is not visited on the stack. *)
Lemma dfs_invariant_push (node : string) (visited rec_stack : gset string) :
  node ∉ visited →
  dfs_invariant graph visited rec_stack →
  dfs_invariant graph ({[node]} ∪ visited) ({[node]} ∪ rec_stack).
Proof.
  intros Hv [Hsub Hinv]. split; [set_solver|].
  intros n Hn Hnr. assert (n ∈ visited ∧ n ∉ rec_stack) as [Hn' Hnr'] by set_solver.
  destruct (Hinv n Hn' Hnr') as [Hsafe Hclosed]. split; [done|].
  intros d Hd. destruct (Hclosed d Hd). set_solver.
Qed.

(** Visiting a name leaves one name less to visit. *)
Lemma size_unvisited (node : string) (visited : gset string) :
  node ∈ universe → node ∉ visited →
  size (universe ∖ visited) = S (size (universe ∖ ({[node]} ∪ visited))).
Proof.
  intros Hu Hv.
  assert (universe ∖ visited = {[node]} ∪ universe ∖ ({[node]} ∪ visited)) as Heq.
  { apply set_eq. intros x. destruct (decide (x = node)); set_solver. }
  rewrite Heq at 1. rewrite size_union, size_singleton by set_solver. done.
Qed.

Lemma size_unvisited_mono (visited visited' : gset string) :
  visited ⊆ visited' → (size (universe ∖ visited') ≤ size (universe ∖ visited))%nat.
Proof. intros H. apply subseteq_size. set_solver. Qed.

Section loop.

Context (depth : nat)
  (call : string → gset string → gset string → option (bool * gset string * gset string)).
Hypothesis call_post : ∀ node visited rec_stack,
  node ∈ universe → node ∉ visited → visited ⊆ universe →
  dfs_invariant graph visited rec_stack →
  dfs_post graph node visited rec_stack depth (call node visited rec_stack).

Lemma dfs_for_neighbor_spec (node : string) (neighbors : list string)
    (visited rec_stack : gset string) :
  (∀ d, d ∈ neighbors → d ∈ universe) →
  visited ⊆ universe →
  dfs_invariant graph visited rec_stack →
  dfs_for_neighbor_post graph node neighbors visited rec_stack depth
    (Component.dfs_for_neighbor call node neighbors visited rec_stack).
Proof.
  revert visited. induction neighbors as [|d neighbors IH];
    intros visited Hnb Hsub Hinv; simpl.
  - split; [done|]. split; [done|]. split; [done|]. split; [done|].
    intros d Hd. by apply elem_of_nil in Hd.
  - assert (d ∈ universe) as Hd by (apply Hnb; left).
    assert (∀ d', d' ∈ neighbors → d' ∈ universe) as Hnb'
      by (intros; apply Hnb; by right).
    destruct (decide (d ∉ visited)) as [Hdv|Hdv].
    + pose proof (call_post d visited rec_stack Hd Hdv Hsub Hinv) as Hpost.
      destruct (call d visited rec_stack) as [[[[] visited1] rec_stack1]|];
        simpl in Hpost; [done| |done].
      destruct Hpost as (Hsub1 & Hd1 & Hu1 & -> & Hinv1).
      specialize (IH visited1 Hnb' Hu1 Hinv1).
      destruct (Component.dfs_for_neighbor call node neighbors visited1 rec_stack)
        as [[[[] visited2] rec_stack2]|]; simpl in *; [done| |].
      * destruct IH as (Hsub2 & Hu2 & -> & Hinv2 & Hall).
        split; [set_solver|]. split; [done|]. split; [done|]. split; [done|].
        intros d' Hd'. apply elem_of_cons in Hd' as [->|Hd']; [|by apply Hall].
        split; [set_solver|]. destruct Hinv as [Hrs _]. set_solver.
      * pose proof (size_unvisited_mono visited visited1 Hsub1). lia.
    + apply dec_stable in Hdv.
      destruct (decide (d ∈ rec_stack)) as [Hdr|Hdr]; [done|].
      specialize (IH visited Hnb' Hsub Hinv).
      destruct (Component.dfs_for_neighbor call node neighbors visited rec_stack)
        as [[[[] visited2] rec_stack2]|]; simpl in *; [done| |done].
      destruct IH as (Hsub2 & Hu2 & -> & Hinv2 & Hall).
      split; [done|]. split; [done|]. split; [done|]. split; [done|].
      intros d' Hd'. apply elem_of_cons in Hd' as [->|Hd']; [|by apply Hall].
      split; [set_solver|done].
Qed.

End loop.

Lemma dfs_spec (depth : nat) (node : string) (visited rec_stack : gset string) :
  node ∈ universe → node ∉ visited → visited ⊆ universe →
  dfs_invariant graph visited rec_stack →
  dfs_post graph node visited rec_stack depth
    (Component.dfs depth graph node visited rec_stack).
Proof.
  revert node visited rec_stack.
  induction depth as [|depth IH]; intros node visited rec_stack Hu Hv Hsub Hinv.
  - simpl. rewrite (size_unvisited node) by done. lia.
  - simpl.
    pose proof (dfs_for_neighbor_spec depth (Component.dfs depth graph) IH node
      (default [] (PyDict.get graph node)) ({[node]} ∪ visited) ({[node]} ∪ rec_stack))
      as Hloop.
    assert (node ∉ rec_stack) as Hr by (destruct Hinv; set_solver).
    assert (∀ d, d ∈ default [] (PyDict.get graph node) → d ∈ universe) as Hnb.
    { intros d Hd. apply depends_neighbors in Hd.
      by apply depends_nodes in Hd as (_ & _ & ?). }
    specialize (Hloop Hnb ltac:(set_solver) ltac:(by apply dfs_invariant_push)).
    destruct (Component.dfs_for_neighbor _ _ _ _ _) as [[[[] visited'] rec_stack']|];
      simpl in *; [done| |].
    + destruct Hloop as (Hsub' & Hu' & -> & Hinv1 & Hall).
      assert (({[node]} ∪ rec_stack) ∖ {[node]} = rec_stack) as Hpop by set_solver.
      split; [set_solver|]. split; [set_solver|]. split; [done|]. split; [done|].
      apply dfs_invariant_pop; [set_solver|set_solver|done|].
      intros d Hd. apply Hall. by apply depends_neighbors.
    + rewrite (size_unvisited node) by done. lia.
Qed.

(** The loop over the names of the graph: when it returns [False], none of
    the names is on a cycle; it runs out of nested calls only when fewer
    are allowed than there are names. *)
Lemma for_task_name_spec (depth : nat) (task_names : list string)
    (visited : gset string) :
  (∀ n, n ∈ task_names → n ∈ universe) →
  visited ⊆ universe →
  dfs_invariant graph visited ∅ →
  match Component.for_task_name depth graph task_names visited ∅ with
  | None => (depth < size universe)%nat
  | Some true => True
  | Some false =>
    ∀ n, n ∈ task_names ∨ n ∈ visited → ¬ tc (depends graph) n n
  end.
Proof.
  revert visited. induction task_names as [|n task_names IH];
    intros visited Hnames Hsub Hinv; cbn [Component.for_task_name].
  - intros n [Hn|Hn]; [by apply elem_of_nil in Hn|].
    by apply (proj2 Hinv n).
  - assert (n ∈ universe) as Hn by (apply Hnames; left).
    assert (∀ n', n' ∈ task_names → n' ∈ universe) as Hnames'
      by (intros; apply Hnames; by right).
    destruct (decide (n ∉ visited)) as [Hnv|Hnv].
    + pose proof (dfs_spec depth n visited ∅ Hn Hnv Hsub Hinv) as Hpost.
      destruct (Component.dfs _ _ _ _ _) as [[[[] visited'] rec_stack']|];
        simpl in Hpost; cbn beta iota; [done| |].
      * destruct Hpost as (Hsub' & Hn' & Hu' & -> & Hinv').
        specialize (IH visited' Hnames' Hu' Hinv').
        destruct (Component.for_task_name _ _ _ _ _) as [[]|]; [done| |done].
        intros m [Hm|Hm]; [|apply IH; right; set_solver].
        apply elem_of_cons in Hm as [->|Hm]; apply IH; [by right|by left].
      * assert (size (universe ∖ visited) ≤ size universe)%nat
          by (apply subseteq_size; set_solver).
        lia.
    + apply dec_stable in Hnv.
      specialize (IH visited Hnames' Hsub Hinv).
      destruct (Component.for_task_name _ _ _ _ _) as [[]|]; [done| |done].
      intros m [Hm|Hm]; [|apply IH; by right].
      apply elem_of_cons in Hm as [->|Hm]; apply IH; [by right|by left].
Qed.

End cycle_detection.

(** The search does not miss a cycle, and raises nothing but
    [RecursionError], and that only when fewer nested calls are allowed
    than the graph has names. *)
Lemma _has_circular_dependencies_complete (recursion_limit : nat) (tasks : list Task.t) :
  match Component._has_circular_dependencies recursion_limit tasks with
  | Ok true => True
  | Ok false => ¬ has_cycle (Component.dependency_graph tasks)
  | Raise e =>
    (∃ msg, e = RecursionError msg) ∧
    (recursion_limit < size (Component.graph_nodes (Component.dependency_graph tasks)))%nat
  end.
Proof.
  unfold Component._has_circular_dependencies.
  pose proof (for_task_name_spec (Component.dependency_graph tasks) recursion_limit
    (PyDict.keys (Component.dependency_graph tasks)) ∅) as H.
  assert (∀ n, n ∈ PyDict.keys (Component.dependency_graph tasks) →
               n ∈ Component.graph_nodes (Component.dependency_graph tasks)) as Hkeys.
  { intros n Hn. unfold Component.graph_nodes. set_solver. }
  specialize (H Hkeys ltac:(set_solver) ltac:(split; [done|set_solver])).
  destruct (Component.for_task_name _ _ _ _ _) as [[]|]; [done| |eauto].
  intros [n Hcycle]. apply (H n); [|done].
  left. apply tc_first_step in Hcycle as (d & Hd & _).
  by apply depends_nodes in Hd as [? _].
Qed.

(** * Validation at construction *)

(** [check_dependencies] either finds every dependency among the names or
    raises [ComponentError]. *)
Lemma check_dependencies_spec (task_names : gset string) (tasks : list Task.t) :
  match Component.check_dependencies task_names tasks with
  | Ok _ =>
    ∀ task dependency,
      task ∈ tasks → dependency ∈ Task.depends_on task → dependency ∈ task_names
  | Raise e => ∃ msg, e = ComponentError msg
  end.
Proof.
  induction tasks as [|task tasks IH]; simpl.
  - intros task dependency H. by apply elem_of_nil in H.
  - destruct (find _ (Task.depends_on task)) as [dependency|] eqn:Hfind; [eauto|].
    destruct (Component.check_dependencies task_names tasks); [|done].
    intros task' dependency Htask Hdep.
    apply elem_of_cons in Htask as [->|Htask]; [|by eapply IH].
    apply list_elem_of_In in Hdep.
    pose proof (find_none _ _ Hfind _ Hdep) as Hb. simpl in Hb.
    apply bool_decide_eq_false in Hb. by apply dec_stable in Hb.
Qed.

Lemma size_list_to_set_le (l : list string) :
  (size (list_to_set (C:=gset string) l) ≤ length l)%nat.
Proof.
  induction l as [|x l IH]; [done|].
  cbn [list_to_set foldr length]. rewrite size_union_alt, size_singleton.
  assert (size (list_to_set (C:=gset string) l ∖ {[x]})
          ≤ size (list_to_set (C:=gset string) l))%nat
    by (apply subseteq_size; set_solver).
  lia.
Qed.

(** When every dependency is known, the search has no more names to visit
    than there are tasks. *)
Lemma known_nodes (tasks : list Task.t) :
  ¬ unknown_dependency tasks →
  (size (Component.graph_nodes (Component.dependency_graph tasks)) ≤ length tasks)%nat.
Proof.
  intros Hknown.
  transitivity (size (list_to_set (C:=gset string) (map Task.name tasks)));
    [|by rewrite <- (length_map Task.name tasks); apply size_list_to_set_le].
  apply subseteq_size. intros n. unfold Component.graph_nodes.
  rewrite elem_of_union, !elem_of_list_to_set.
  intros [Hn|Hn].
  - by apply (keys_comprehension_names Task.name Task.depends_on) in Hn.
  - apply list_elem_of_In, in_concat in Hn as (deps & Hdeps & Hn).
    apply in_map_iff in Hdeps as ([k deps'] & [= ->] & Hin).
    apply list_elem_of_In, comprehension_values in Hin as (task & Htask & _ & <-).
    apply list_elem_of_In in Hn.
    destruct (decide (n ∈ map Task.name tasks)) as [|Hno]; [done|].
    exfalso. apply Hknown. by exists task, n.
Qed.

Lemma checked_dependencies_known (tasks : list Task.t) :
  Component.check_dependencies (list_to_set (map Task.name tasks)) tasks = Ok () →
  ¬ unknown_dependency tasks.
Proof.
  intros Hcheck (task & dependency & Htask & Hdep & Hunknown).
  pose proof (check_dependencies_spec (list_to_set (map Task.name tasks)) tasks) as H.
  rewrite Hcheck in H. apply Hunknown.
  specialize (H task dependency Htask Hdep). by apply elem_of_list_to_set in H.
Qed.

(** C7, as the code has it. The constructor raises [ComponentError] when
    some [depends_on] names a task that is not among the tasks, whatever
    else holds; and when the tasks, their names being distinct, depend on
    each other in a circle, provided Python lets the search nest as many
    calls as there are tasks. Construction then returns no component, so no
    task runs. *)
Theorem construction_rejects_unknown_and_cyclic
    (recursion_limit : nat) (kind : Component.kind) (name : string) (state : dict)
    (inputs outputs : list string) (tasks : list Task.t) :
  unknown_dependency tasks ∨
  (NoDup (map Task.name tasks) ∧ cyclic tasks ∧ (length tasks ≤ recursion_limit)%nat) →
  ∃ msg, Component.__init__ recursion_limit kind name state inputs outputs tasks
         = Raise (ComponentError msg).
Proof.
  intros Hbad. unfold Component.__init__, Component._validate_tasks.
  pose proof (check_dependencies_spec (list_to_set (map Task.name tasks)) tasks)
    as Hcheck.
  destruct (Component.check_dependencies _ tasks) as [[]|e] eqn:Hchecked.
  - destruct Hbad as [Hunknown|(Hnames & Hcycle & Hlimit)].
    + by apply checked_dependencies_known in Hchecked.
    + apply checked_dependencies_known, known_nodes in Hchecked.
      apply cyclic_distinct in Hcycle; [|done].
      pose proof (_has_circular_dependencies_complete recursion_limit tasks) as Hsearch.
      destruct (Component._has_circular_dependencies recursion_limit tasks)
        as [[]|e]; [eauto|done|].
      destruct Hsearch as [_ Hshort]. lia.
  - destruct Hcheck as [msg ->]. eauto.
Qed.

Lemma construction_rejects_unknown_and_cyclic_witness :
  ∃ msg, Component.__init__ 2 Component.Synchronous "loop" ∅ [] [] cyclic_tasks
         = Raise (ComponentError msg).
Proof.
  apply construction_rejects_unknown_and_cyclic. right.
  split; [apply (bool_decide_unpack _); vm_compute; reflexivity|].
  split; [|simpl; lia].
  exists "a". apply tc_l with "b"; [|apply tc_once].
  - exists (Task.mk "a" pass ["b"] None None).
    split; [left|]. split; [reflexivity|]. left.
  - exists (Task.mk "b" pass ["a"] None None).
    split; [right; left|]. split; [reflexivity|]. left.
Defined.

(** The claim as stated fails in two ways. With a name used twice: of the
    two tasks named A the first depends on itself, and the constructor
    returns the component, whatever the recursion limit, because the
    dictionary it searches keeps the dependencies of the second only. With
    a circle longer than Python lets the search nest: the two tasks that
    depend on each other raise [RecursionError], not [ComponentError],
    where one nested call is allowed. *)
Lemma construction_misses_shadowed_and_deep_cycles :
  cyclic shadowed_cycle ∧
  (∀ recursion_limit : nat,
     (1 ≤ recursion_limit)%nat →
     Component.__init__ recursion_limit Component.Synchronous "c" ∅ [] [] shadowed_cycle
     = Ok (Component.mk "c" ∅ [] [] shadowed_cycle ∅ Component.Synchronous)) ∧
  NoDup (map Task.name cyclic_tasks) ∧ cyclic cyclic_tasks ∧
  ∃ msg, Component.__init__ 1 Component.Synchronous "loop" ∅ [] [] cyclic_tasks
         = Raise (RecursionError msg).
Proof.
  split; [|split; [|split; [|split]]].
  - exists "A". apply tc_once. exists (Task.mk "A" pass ["A"] None None).
    split; [left|]. split; [reflexivity|]. left.
  - intros [|recursion_limit] Hlimit; [lia|]. vm_compute. reflexivity.
  - apply (bool_decide_unpack _). vm_compute. reflexivity.
  - exists "a". apply tc_l with "b"; [|apply tc_once].
    + exists (Task.mk "a" pass ["b"] None None).
      split; [left|]. split; [reflexivity|]. left.
    + exists (Task.mk "b" pass ["a"] None None).
      split; [right; left|]. split; [reflexivity|]. left.
  - eexists. vm_compute. reflexivity.
Qed.

(** * Execution order *)

Section comprehension.

Context {A V : Type} (key : A → string) (val : A → V).

Lemma comprehension_from (xs : list A) (d : PyDict.t V) :
  NoDup (PyDict.keys d ++ map key xs) →
  fold_left (λ d x, PyDict.set d (key x) (val x)) xs d
  = d ++ map (λ x, (key x, val x)) xs.
Proof.
  revert d. induction xs as [|x xs IH]; intros d Hnd; simpl.
  - by rewrite app_nil_r.
  - assert (key x ∉ PyDict.keys d) as Hx.
    { apply NoDup_app in Hnd as (_ & Hdisj & _). intros Hin.
      apply (Hdisj _ Hin). left. }
    rewrite keys_set_notin by done. rewrite IH.
    + by rewrite <- app_assoc.
    + unfold PyDict.keys in *. rewrite map_app. simpl.
      rewrite <- app_assoc. done.
Qed.

(** With distinct keys a dict comprehension is the list of its items. *)
Lemma comprehension_nodup (xs : list A) :
  NoDup (map key xs) →
  PyDict.comprehension key val xs = map (λ x, (key x, val x)) xs.
Proof. intros Hnd. unfold PyDict.comprehension. by rewrite comprehension_from. Qed.

Lemma keys_items (xs : list A) :
  PyDict.keys (map (λ x, (key x, val x)) xs) = map key xs.
Proof. unfold PyDict.keys. rewrite map_map. done. Qed.

Lemma get_items (xs : list A) (x : A) :
  NoDup (map key xs) → x ∈ xs →
  PyDict.get (map (λ x, (key x, val x)) xs) (key x) = Some (val x).
Proof.
  induction xs as [|y xs IH]; simpl; intros Hnd Hx.
  - by apply elem_of_nil in Hx.
  - apply NoDup_cons in Hnd as [Hy Hnd].
    destruct (decide (key y = key x)) as [Heq|Hne].
    + apply elem_of_cons in Hx as [->|Hx]; [done|].
      exfalso. apply Hy. rewrite Heq. apply list_elem_of_fmap. eauto.
    + apply elem_of_cons in Hx as [->|Hx]; [done|]. by apply IH.
Qed.

End comprehension.

Section edges.

Implicit Types (es : list (string * string)) (n : string).

Lemma dependents_app es1 es2 n :
  dependents (es1 ++ es2) n = dependents es1 n ++ dependents es2 n.
Proof. unfold dependents. by rewrite filter_app, map_app. Qed.

Lemma pending_app es1 es2 done n :
  pending (es1 ++ es2) done n = (pending es1 done n + pending es2 done n)%nat.
Proof. unfold pending. by rewrite filter_app, length_app. Qed.

Lemma pending_cons e es done n :
  pending (e :: es) done n
  = ((if decide (e.1 = n ∧ e.2 ∉ done) then 1 else 0) + pending es done n)%nat.
Proof.
  unfold pending. rewrite filter_cons. by destruct (decide _).
Qed.

Lemma dependents_cons e es n :
  dependents (e :: es) n
  = (if decide (e.2 = n) then [e.1] else []) ++ dependents es n.
Proof.
  unfold dependents. rewrite filter_cons. by destruct (decide _).
Qed.

Lemma elem_of_dependents es n m :
  m ∈ dependents es n ↔ (m, n) ∈ es.
Proof.
  unfold dependents. rewrite list_elem_of_fmap. split.
  - intros ([m' n'] & -> & Hin). apply list_elem_of_filter in Hin as [Heq Hin].
    simpl in *. by subst.
  - intros Hin. exists (m, n). split; [done|]. by apply list_elem_of_filter.
Qed.

Lemma occurrences_cons (x : string) (l : list string) n :
  occurrences (x :: l) n = ((if decide (x = n) then 1 else 0) + occurrences l n)%nat.
Proof. unfold occurrences. rewrite filter_cons. by destruct (decide _). Qed.

Lemma occurrences_zero (l : list string) n : occurrences l n = 0%nat ↔ n ∉ l.
Proof.
  induction l as [|x l IH]; [by split; [intros _ H%elem_of_nil|]|].
  rewrite occurrences_cons, not_elem_of_cons.
  destruct (decide (x = n)) as [->|Hne]; [split; [lia|tauto]|].
  rewrite <- IH. split; [intros; split; [congruence|lia]|intros [_ ?]; lia].
Qed.

(** The entries of [n] that name [c], counted in [adjacency[c]]. *)
Lemma occurrences_dependents es c n :
  occurrences (dependents es c) n
  = length (filter (λ e, e.1 = n ∧ e.2 = c) es).
Proof.
  induction es as [|[m d] es IH]; [done|].
  rewrite dependents_cons, filter_cons. simpl.
  destruct (decide (d = c)) as [->|Hne]; simpl.
  - rewrite occurrences_cons. destruct (decide (m = n)) as [->|Hne]; simpl.
    + rewrite decide_True by done. simpl. by rewrite IH.
    + rewrite decide_False by tauto. done.
  - rewrite decide_False by tauto. done.
Qed.

(** Ordering [c] takes its entries off the pending ones. *)
Lemma pending_done es done c n :
  c ∉ done →
  pending es done n
  = (pending es (done ++ [c]) n + length (filter (λ e, e.1 = n ∧ e.2 = c) es))%nat.
Proof.
  intros Hc. induction es as [|[m d] es IH]; [done|].
  rewrite !pending_cons, filter_cons, IH. simpl.
  destruct (decide (m = n ∧ d = c)) as [[-> ->]|Hne].
  - rewrite decide_True by done. rewrite decide_False; [simpl; lia|].
    intros [_ H]. apply H, elem_of_app. right. left.
  - destruct (decide (m = n ∧ d ∉ done)) as [[-> Hd]|Hno].
    + rewrite decide_True; [lia|]. split; [done|].
      intros [?|Hin%list_elem_of_singleton]%elem_of_app; [done|]. tauto.
    + rewrite decide_False; [lia|]. intros [-> Hd]. apply Hno. split; [done|].
      intros Hin. apply Hd, elem_of_app. by left.
Qed.

Lemma pending_zero es done n :
  pending es done n = 0%nat ↔ ∀ d, (n, d) ∈ es → d ∈ done.
Proof.
  induction es as [|[m d] es IH].
  - split; [intros _ d H; by apply elem_of_nil in H|done].
  - rewrite pending_cons. simpl. split.
    + intros Hz d' Hin. apply elem_of_cons in Hin as [[= <- <-]|Hin].
      * destruct (decide (n = n ∧ d' ∉ done)) as [|Hno]; [lia|].
        destruct (decide (d' ∈ done)); [done|]. exfalso. by apply Hno.
      * apply IH; [|done]. destruct (decide _); lia.
    + intros Hall. rewrite (proj2 IH) by (intros; apply Hall; by right).
      rewrite decide_False; [done|]. intros [-> Hd]. apply Hd, Hall. left.
Qed.

End edges.

Section first_loop.

Import Component.

Lemma for_dependency_spec (task_name : string) (dependencies : list string)
    (in_degree : PyDict.t Z) (adjacency : PyDict.t (list string)) :
  task_name ∈ PyDict.keys in_degree →
  (∀ d, d ∈ dependencies → d ∈ PyDict.keys adjacency) →
  let es := map (λ d, (task_name, d)) dependencies in
  ∃ in_degree' adjacency',
    for_dependency task_name dependencies in_degree adjacency
    = Ok (in_degree', adjacency') ∧
    PyDict.keys in_degree' = PyDict.keys in_degree ∧
    PyDict.keys adjacency' = PyDict.keys adjacency ∧
    (∀ n, PyDict.get in_degree' n
          = (λ v, v + Z.of_nat (pending es [] n))%Z <$> PyDict.get in_degree n) ∧
    (∀ n, PyDict.get adjacency' n
          = (λ l, l ++ dependents es n) <$> PyDict.get adjacency n).
Proof.
  revert in_degree adjacency.
  induction dependencies as [|d dependencies IH];
    intros in_degree adjacency Hname Hdeps es.
  - exists in_degree, adjacency. subst es. simpl. repeat split; try done.
    + intros n. destruct (PyDict.get in_degree n); simpl; [|done].
      unfold pending. simpl. f_equal. lia.
    + intros n. destruct (PyDict.get adjacency n); simpl; [|done].
      by rewrite app_nil_r.
  - simpl. unfold PyDict.item.
    destruct (keys_get adjacency d ltac:(apply Hdeps; left)) as [l Hl].
    destruct (keys_get in_degree task_name Hname) as [v Hv].
    rewrite Hl. simpl. rewrite Hv. simpl.
    destruct (IH (PyDict.set in_degree task_name (v + 1))
                 (PyDict.set adjacency d (l ++ [task_name])))
      as (in_degree' & adjacency' & Hrun & Hk1 & Hk2 & Hg1 & Hg2).
    { rewrite keys_set_in; done. }
    { intros d' Hd'. rewrite keys_set_in; [|apply Hdeps; left].
      apply Hdeps. by right. }
    exists in_degree', adjacency'. split; [done|].
    rewrite Hk1, Hk2, !keys_set_in by (done || apply Hdeps; left).
    split; [done|]. split; [done|]. split.
    + intros n. rewrite Hg1, get_set. subst es. simpl. rewrite pending_cons. simpl.
      destruct (decide (task_name = n)) as [->|Hne].
      * rewrite Hv. simpl. rewrite decide_True; [f_equal; lia|].
        split; [done|]. apply not_elem_of_nil.
      * rewrite decide_False by tauto. done.
    + intros n. rewrite Hg2, get_set. subst es. simpl. rewrite dependents_cons. simpl.
      destruct (decide (d = n)) as [->|Hne].
      * rewrite Hl. simpl. by rewrite <- app_assoc.
      * done.
Qed.

Lemma for_task_spec (tasks : list Task.t)
    (in_degree : PyDict.t Z) (adjacency : PyDict.t (list string)) :
  (∀ task, task ∈ tasks → Task.name task ∈ PyDict.keys in_degree) →
  (∀ task d, task ∈ tasks → d ∈ Task.depends_on task → d ∈ PyDict.keys adjacency) →
  ∃ in_degree' adjacency',
    for_task tasks in_degree adjacency = Ok (in_degree', adjacency') ∧
    PyDict.keys in_degree' = PyDict.keys in_degree ∧
    PyDict.keys adjacency' = PyDict.keys adjacency ∧
    (∀ n, PyDict.get in_degree' n
          = (λ v, v + Z.of_nat (pending (task_edges tasks) [] n))%Z
            <$> PyDict.get in_degree n) ∧
    (∀ n, PyDict.get adjacency' n
          = (λ l, l ++ dependents (task_edges tasks) n) <$> PyDict.get adjacency n).
Proof.
  revert in_degree adjacency.
  induction tasks as [|task tasks IH]; intros in_degree adjacency Hnames Hdeps.
  - exists in_degree, adjacency. simpl. repeat split; try done.
    + intros n. destruct (PyDict.get in_degree n); simpl; [|done].
      unfold pending. simpl. f_equal. lia.
    + intros n. destruct (PyDict.get adjacency n); simpl; [|done].
      by rewrite app_nil_r.
  - simpl.
    destruct (for_dependency_spec (Task.name task) (Task.depends_on task)
                in_degree adjacency)
      as (in_degree1 & adjacency1 & Hrun1 & Hk1 & Hk2 & Hg1 & Hg2).
    { apply Hnames. left. }
    { intros d Hd. apply (Hdeps task); [left|done]. }
    rewrite Hrun1. simpl.
    destruct (IH in_degree1 adjacency1)
      as (in_degree' & adjacency' & Hrun & Hk1' & Hk2' & Hg1' & Hg2').
    { intros t Ht. rewrite Hk1. apply Hnames. by right. }
    { intros t d Ht Hd. rewrite Hk2. apply (Hdeps t); [by right|done]. }
    exists in_degree', adjacency'. split; [done|].
    split; [congruence|]. split; [congruence|]. split.
    + intros n. rewrite Hg1', Hg1. unfold task_edges. simpl.
      rewrite pending_app. destruct (PyDict.get in_degree n); simpl; [|done].
      f_equal. lia.
    + intros n. rewrite Hg2', Hg2. unfold task_edges. simpl.
      rewrite dependents_app. destruct (PyDict.get adjacency n); simpl; [|done].
      by rewrite <- app_assoc.
Qed.

End first_loop.

Section second_loop.

Import Component.

(** The loop over [adjacency[current]]: every occurrence of a name takes
    one off its in-degree, and the names whose in-degree was the number
    of their occurrences join the queue, once each. *)
Lemma for_neighbor_spec (neighbors : list string) (in_degree : PyDict.t Z)
    (queue : list string) :
  (∀ n, n ∈ neighbors →
        ∃ v, PyDict.get in_degree n = Some v ∧
             (Z.of_nat (occurrences neighbors n) ≤ v)%Z) →
  ∃ in_degree' added,
    for_neighbor neighbors in_degree queue = Ok (in_degree', queue ++ added) ∧
    PyDict.keys in_degree' = PyDict.keys in_degree ∧
    (∀ n, PyDict.get in_degree' n
          = (λ v, v - Z.of_nat (occurrences neighbors n))%Z
            <$> PyDict.get in_degree n) ∧
    NoDup added ∧
    (∀ n, n ∈ added ↔
          n ∈ neighbors ∧
          PyDict.get in_degree n = Some (Z.of_nat (occurrences neighbors n))).
Proof.
  revert in_degree queue.
  induction neighbors as [|x neighbors IH]; intros in_degree queue Hdeg.
  - exists in_degree, []. simpl. rewrite app_nil_r.
    split; [done|]. split; [done|]. split.
    { intros n. destruct (PyDict.get in_degree n); simpl; [|done].
      unfold occurrences. simpl. f_equal. lia. }
    split; [constructor|]. intros n. split; [by intros H%elem_of_nil|].
    by intros [H%elem_of_nil _].
  - destruct (Hdeg x ltac:(left)) as (v & Hv & Hle).
    rewrite occurrences_cons, decide_True in Hle by done.
    simpl. unfold PyDict.item. rewrite Hv. simpl.
    set (in_degree1 := PyDict.set in_degree x (v - 1)).
    set (queue1 := if (v - 1 =? 0)%Z then queue ++ [x] else queue).
    destruct (IH in_degree1 queue1) as (in_degree' & added' & Hrun & Hk & Hg & Hnd & Hin).
    { intros n Hn. unfold in_degree1. rewrite get_set.
      destruct (decide (x = n)) as [->|Hne].
      - exists (v - 1)%Z. split; [done|lia].
      - destruct (Hdeg n ltac:(by right)) as (vn & Hvn & Hlen).
        rewrite occurrences_cons, decide_False in Hlen by done.
        exists vn. split; [done|]. simpl in Hlen. lia. }
    exists in_degree', ((if (v - 1 =? 0)%Z then [x] else []) ++ added').
    split.
    { rewrite Hrun. unfold queue1. destruct (v - 1 =? 0)%Z; simpl.
      - by rewrite <- app_assoc.
      - done. }
    split.
    { rewrite Hk. unfold in_degree1. apply keys_set_in. by eapply get_Some_keys. }
    split.
    { intros n. rewrite Hg. unfold in_degree1. rewrite get_set, occurrences_cons.
      destruct (decide (x = n)) as [->|Hne].
      - rewrite Hv. simpl. f_equal. lia.
      - destruct (PyDict.get in_degree n); simpl; [|done]. f_equal; lia. }
    assert ((v - 1 =? 0)%Z = true → x ∉ neighbors) as Hfresh.
    { intros Hz%Z.eqb_eq. apply occurrences_zero. lia. }
    split.
    { destruct (v - 1 =? 0)%Z eqn:Hz; simpl; [|done].
      apply NoDup_cons. split; [|done]. intros [Hx _]%Hin. by apply Hfresh. }
    intros n. rewrite elem_of_app, Hin, elem_of_cons, occurrences_cons.
    unfold in_degree1. rewrite get_set.
    destruct (decide (x = n)) as [->|Hne].
    + rewrite Hv. split.
      * intros [Hx|[Hx Heq]].
        -- destruct (v - 1 =? 0)%Z eqn:Hz; [|by apply elem_of_nil in Hx].
           split; [by left|]. specialize (Hfresh eq_refl).
           apply occurrences_zero in Hfresh. apply Z.eqb_eq in Hz.
           f_equal. lia.
        -- split; [by left|]. injection Heq as Heq. f_equal. lia.
      * intros [_ Heq]. injection Heq as Heq.
        destruct (v - 1 =? 0)%Z eqn:Hz.
        -- left. left.
        -- right. apply Z.eqb_neq in Hz. split.
           ++ apply dec_stable. intros Hno%occurrences_zero. lia.
           ++ f_equal. lia.
    + split.
      * intros [Hx|[Hx Heq]].
        -- destruct (v - 1 =? 0)%Z; [|by apply elem_of_nil in Hx].
           apply list_elem_of_singleton in Hx. congruence.
        -- split; [by right|]. rewrite Heq. f_equal; simpl; lia.
      * intros [[?|Hx] Heq]; [congruence|]. right. split; [done|].
        rewrite Heq. f_equal; simpl; lia.
Qed.

End second_loop.

(** * Finite relations without sinks *)

(** In a finite non-empty set each member of which is related to a member,
    some member is related to itself along one or more steps. *)
Lemma no_sink_cycle (R : relation string) (U : gset string) :
  U ≠ ∅ →
  (∀ u, u ∈ U → ∃ u', u' ∈ U ∧ R u u') →
  ∃ n, tc R n n.
Proof.
  remember (size U) as k eqn:Hk. revert R U Hk.
  induction k as [k IH] using lt_wf_ind. intros R U -> Hne Hsucc.
  apply set_choose_L in Hne as [u Hu].
  destruct (Hsucc u Hu) as (z & Hz & Huz).
  destruct (decide (z = u)) as [->|Hzu]; [exists u; by apply tc_once|].
  set (R' := λ x y, R x y ∨ (R x u ∧ R u y)).
  assert (size U = S (size (U ∖ {[u]}))) as Hsize.
  { assert (U = {[u]} ∪ U ∖ {[u]}) as Heq.
    { apply set_eq. intros x. destruct (decide (x = u)); set_solver. }
    rewrite Heq at 1. rewrite size_union, size_singleton by set_solver. done. }
  destruct (IH (size (U ∖ {[u]})) ltac:(lia) R' (U ∖ {[u]}) eq_refl) as [n Hn].
  - apply (non_empty_inhabited_L z). set_solver.
  - intros x Hx. destruct (Hsucc x ltac:(set_solver)) as (y & Hy & Hxy).
    destruct (decide (y = u)) as [->|Hyu].
    + exists z. split; [set_solver|]. right. done.
    + exists y. split; [set_solver|]. by left.
  - exists n. revert Hn. generalize n at 2 4 as m. generalize n.
    induction 1 as [x y [Hxy|[Hxu Huy]]|x y z' [Hxy|[Hxu Huy]] _ IHn].
    + by apply tc_once.
    + by apply tc_l with u; [|apply tc_once].
    + by apply tc_l with y.
    + apply tc_l with u; [done|]. by apply tc_l with y.
Qed.

Lemma fmap_inj_on {A B} (f : A → B) (l : list A) (x y : A) :
  NoDup (map f l) → x ∈ l → y ∈ l → f x = f y → x = y.
Proof.
  induction l as [|a l IH]; simpl; intros Hnd Hx Hy Heq.
  - by apply elem_of_nil in Hx.
  - apply NoDup_cons in Hnd as [Ha Hnd].
    apply elem_of_cons in Hx as [->|Hx]; apply elem_of_cons in Hy as [->|Hy]; auto.
    + exfalso. apply Ha. rewrite Heq. apply list_elem_of_fmap. eauto.
    + exfalso. apply Ha. rewrite <- Heq. apply list_elem_of_fmap. eauto.
Qed.

Lemma fmap_eq_inj_on {A B} (f : A → B) (l l1 l2 : list A) :
  NoDup (map f l) → Forall (λ x, x ∈ l) l1 → Forall (λ x, x ∈ l) l2 →
  map f l1 = map f l2 → l1 = l2.
Proof.
  intros Hnd. revert l2. induction l1 as [|x l1 IH]; intros [|y l2] H1 H2 Heq;
    try done.
  apply Forall_cons in H1 as [Hx H1]. apply Forall_cons in H2 as [Hy H2].
  injection Heq as Hxy Heq. f_equal; [by eapply fmap_inj_on|by apply IH].
Qed.

(** A dictionary with distinct keys is the list of its keys with their
    values. *)
Lemma items_of_keys {V} (d : PyDict.t V) (val : string → V) :
  NoDup (PyDict.keys d) →
  (∀ k, k ∈ PyDict.keys d → PyDict.get d k = Some (val k)) →
  d = map (λ k, (k, val k)) (PyDict.keys d).
Proof.
  unfold PyDict.keys. induction d as [|[k v] d IH]; simpl; intros Hnd Hget; [done|].
  apply NoDup_cons in Hnd as [Hk Hnd].
  pose proof (Hget k ltac:(left)) as Hv. rewrite decide_True in Hv by done.
  injection Hv as ->. f_equal. apply IH; [done|].
  intros k' Hk'. specialize (Hget k' ltac:(by right)).
  rewrite decide_False in Hget by (intros ->; done). done.
Qed.

Lemma elem_of_task_edges (tasks : list Task.t) (m d : string) :
  (m, d) ∈ task_edges tasks ↔
  ∃ task, task ∈ tasks ∧ Task.name task = m ∧ d ∈ Task.depends_on task.
Proof.
  unfold task_edges. rewrite list_elem_of_In, in_flat_map. split.
  - intros (task & Htask & Hin). apply list_elem_of_In, list_elem_of_fmap in Hin
      as (d' & [= -> ->] & Hd). exists task. by rewrite list_elem_of_In.
  - intros (task & Htask & <- & Hd). exists task. split; [by apply list_elem_of_In|].
    apply list_elem_of_In, list_elem_of_fmap. eauto.
Qed.

(** For distinct task names the graph the component builds is the graph of
    the tasks. *)
Lemma depends_tasks (tasks : list Task.t) (n d : string) :
  NoDup (map Task.name tasks) →
  depends (Component.dependency_graph tasks) n d ↔
  ∃ task, task ∈ tasks ∧ Task.name task = n ∧ d ∈ Task.depends_on task.
Proof.
  intros Hnd. unfold depends, Component.dependency_graph.
  rewrite comprehension_nodup by done. split.
  - intros (deps & Hget & Hd). apply get_Some_elem, list_elem_of_fmap in Hget
      as (task & [= -> ->] & Htask). eauto.
  - intros (task & Htask & <- & Hd). exists (Task.depends_on task). split; [|done].
    by apply (get_items Task.name Task.depends_on).
Qed.

(** * The loop of Kahn's algorithm *)

Section kahn.

Import Component.

Context (tasks : list Task.t).
Hypothesis names_distinct : NoDup (map Task.name tasks).
Hypothesis dependencies_known : ¬ unknown_dependency tasks.

#[local] Abbreviation names := (map Task.name tasks).
#[local] Abbreviation edges := (task_edges tasks).
#[local] Abbreviation graph := (map (λ task : Task.t, (Task.name task, task)) tasks).

Lemma edge_names (m d : string) : (m, d) ∈ edges → m ∈ names ∧ d ∈ names.
Proof.
  intros (task & Htask & <- & Hd)%elem_of_task_edges. split.
  - apply list_elem_of_fmap. eauto.
  - destruct (decide (d ∈ names)) as [|Hno]; [done|].
    exfalso. apply dependencies_known. exists task, d.
    split; [done|]. split; done.
Qed.

Lemma edge_depends (m d : string) :
  (m, d) ∈ edges → depends (dependency_graph tasks) m d.
Proof.
  intros (task & Htask & <- & Hd)%elem_of_task_edges.
  exists (Task.depends_on task). split; [|done].
  unfold dependency_graph. rewrite comprehension_nodup by done.
  by apply (get_items Task.name Task.depends_on).
Qed.

Lemma graph_task (n : string) :
  n ∈ names → ∃ task, task ∈ tasks ∧ Task.name task = n ∧
                      PyDict.get graph n = Some task.
Proof.
  intros (task & -> & Htask)%list_elem_of_fmap. exists task.
  split; [done|]. split; [done|].
  by apply (get_items Task.name (λ task, task)).
Qed.

(** When the queue is empty and the graph has no cycle, every task is
    ordered. *)
Lemma ordered_all (in_degree : PyDict.t Z) (order : list Task.t) :
  ¬ has_cycle (dependency_graph tasks) →
  kahn_invariant tasks [] in_degree order →
  ∀ n, n ∈ names → n ∈ map Task.name order.
Proof.
  intros Hacyclic [_ _ _ _ Hready _ _ _] n Hn.
  set (done := map Task.name order) in *.
  destruct (decide (n ∈ done)) as [|Hno]; [done|]. exfalso.
  apply Hacyclic.
  apply (no_sink_cycle (depends (dependency_graph tasks))
           (list_to_set names ∖ list_to_set done)).
  - apply (non_empty_inhabited_L n). set_solver.
  - intros u [Hu Hud%not_elem_of_list_to_set]%elem_of_difference.
    apply elem_of_list_to_set in Hu.
    assert (pending edges done u ≠ 0%nat) as Hp.
    { intros Hz. apply Hud. apply Hready in Hz; [|done].
      by rewrite app_nil_r in Hz. }
    assert (∃ d, (u, d) ∈ edges ∧ d ∉ done) as (d & Hedge & Hd).
    { unfold pending in Hp.
      destruct (filter (λ e, e.1 = u ∧ e.2 ∉ done) edges) as [|[m d] l] eqn:Hf;
        [done|].
      assert ((m, d) ∈ filter (λ e, e.1 = u ∧ e.2 ∉ done) edges) as Hin
        by (rewrite Hf; left).
      apply list_elem_of_filter in Hin as [[Hm Hd] Hin]. simpl in *. subst m.
      eauto. }
    exists d. split; [|by apply edge_depends].
    apply elem_of_difference. split; [|by rewrite elem_of_list_to_set].
    apply elem_of_list_to_set. by apply edge_names in Hedge as [_ ?].
Qed.

Context (adjacency : PyDict.t (list string)).
Hypothesis adjacency_dependents :
  ∀ n, n ∈ names → PyDict.get adjacency n = Some (dependents edges n).

(** One turn of the loop. *)
Lemma while_queue_turn (current : string) (queue : list string)
    (in_degree : PyDict.t Z) (ordered_tasks : list Task.t) :
  kahn_invariant tasks (current :: queue) in_degree ordered_tasks →
  ∃ task in_degree' queue',
    (task ← PyDict.item graph current;
     neighbors ← PyDict.item adjacency current;
     '(in_degree, queue) ← for_neighbor neighbors in_degree queue;
     Ok (task, in_degree, queue)) = Ok (task, in_degree', queue') ∧
    kahn_invariant tasks queue' in_degree' (ordered_tasks ++ [task]).
Proof.
  intros [Hkeys Hnd Hnames Hdeg Hready Htasks Htopo [later Hroots]].
  set (done := map Task.name ordered_tasks) in *.
  assert (current ∈ names) as Hc
    by (apply Hnames, elem_of_app; right; left).
  assert (current ∉ done) as Hcd.
  { apply NoDup_app in Hnd as (_ & Hdisj & _). intros Hin.
    apply (Hdisj _ Hin). left. }
  destruct (graph_task current Hc) as (task & Htask & Hname & Hget).
  unfold PyDict.item. rewrite Hget, (adjacency_dependents current Hc). simpl.
  set (L := dependents edges current).
  assert (∀ n, pending edges done n
               = (pending edges (done ++ [current]) n + occurrences L n)%nat) as Hpend.
  { intros n. unfold L. rewrite occurrences_dependents. by apply pending_done. }
  destruct (for_neighbor_spec L in_degree queue)
    as (in_degree' & added & Hrun & Hkeys' & Hget' & Hnd' & Hadded).
  { intros n Hn. apply elem_of_dependents in Hn. apply edge_names in Hn as [Hn _].
    exists (Z.of_nat (pending edges done n)). split; [by apply Hdeg|].
    rewrite (Hpend n). lia. }
  rewrite Hrun. simpl. exists task, in_degree', (queue ++ added). split; [done|].
  assert (∀ n, n ∈ added → n ∈ names ∧ pending edges done n ≠ 0%nat ∧
               pending edges (done ++ [current]) n = 0%nat) as Hadded'.
  { intros n [HnL Hv]%Hadded.
    assert (n ∈ names) as Hn
      by (by apply elem_of_dependents, edge_names in HnL as [? _]).
    rewrite (Hdeg n Hn) in Hv. injection Hv as Hv. apply Nat2Z.inj in Hv.
    assert (occurrences L n ≠ 0%nat) by (by rewrite occurrences_zero; intros []).
    specialize (Hpend n). split; [done|]. split; lia. }
  assert (map Task.name (ordered_tasks ++ [task]) = done ++ [current]) as Hdone
    by (by rewrite map_app; simpl; rewrite Hname).
  assert (∀ more, (done ++ [current]) ++ queue ++ more
                  = (done ++ current :: queue) ++ more) as Hassoc
    by (intros; by rewrite <- !app_assoc).
  split; rewrite ?Hdone, ?Hassoc.
  - by rewrite Hkeys'.
  - apply NoDup_app. split; [done|]. split; [|done].
    intros n Hn Hn'. apply Hadded' in Hn' as (Hnn & Hne & _).
    apply Hne. by apply Hready.
  - intros n [Hn|Hn]%elem_of_app; [by apply Hnames|by apply Hadded'].
  - intros n Hn. rewrite Hget', (Hdeg n Hn). simpl.
    f_equal. rewrite (Hpend n). lia.
  - intros n Hn. rewrite elem_of_app. split.
    + intros [Hin|Hin]; [|by apply Hadded'].
      apply Hready in Hin; [|done]. specialize (Hpend n). lia.
    + intros Hz. destruct (decide (occurrences L n = 0%nat)) as [Hocc|Hocc].
      * left. apply Hready; [done|]. specialize (Hpend n). lia.
      * right. apply Hadded. split.
        -- apply dec_stable. by rewrite <- occurrences_zero.
        -- rewrite (Hdeg n Hn). do 2 f_equal. specialize (Hpend n). lia.
  - apply Forall_app. split; [done|]. by constructor.
  - intros before t after Hsplit d Hd.
    destruct after as [|a after _] using rev_ind.
    + apply app_inj_tail in Hsplit as [-> ->].
      assert (pending edges done current = 0%nat) as Hz
        by (apply Hready; [done|]; apply elem_of_app; right; left).
      apply (proj1 (pending_zero _ _ _) Hz).
      apply elem_of_task_edges. eauto.
    + rewrite app_comm_cons, app_assoc in Hsplit.
      apply app_inj_tail in Hsplit as [Hsplit _].
      by apply (Htopo before t after).
  - exists (later ++ added). by rewrite Hroots, <- app_assoc.
Qed.

(** The loop ends within one turn per name that is not ordered yet, with
    the queue empty. *)
Lemma while_queue_spec (rounds : nat) (queue : list string)
    (in_degree : PyDict.t Z) (ordered_tasks : list Task.t) :
  kahn_invariant tasks queue in_degree ordered_tasks →
  (length tasks ≤ rounds + length ordered_tasks)%nat →
  ∃ order in_degree',
    while_queue rounds graph adjacency queue in_degree ordered_tasks
    = Some (Ok order) ∧
    kahn_invariant tasks [] in_degree' order.
Proof.
  revert queue in_degree ordered_tasks.
  induction rounds as [|rounds IH]; intros queue in_degree ordered_tasks Hinv Hlen.
  - destruct queue as [|current queue]; [simpl; eauto|].
    exfalso. destruct Hinv as [_ Hnd Hnames _ _ _ _ _].
    assert (length (map Task.name ordered_tasks ++ current :: queue)
            ≤ length names)%nat as Hle.
    { apply submseteq_length, NoDup_submseteq; [done|]. intros n Hn. by apply Hnames. }
    rewrite length_app, !length_map in Hle. simpl in Hle. lia.
  - destruct queue as [|current queue]; [simpl; eauto|].
    destruct (while_queue_turn current queue in_degree ordered_tasks Hinv)
      as (task & in_degree1 & queue1 & Hturn & Hinv1).
    cbn [while_queue]. rewrite Hturn.
    apply IH; [done|]. rewrite length_app. simpl. lia.
Qed.

End kahn.

Lemma NoDup_fmap_filter {A B} (f : A → B) (P : A → Prop) `{!∀ x, Decision (P x)}
    (l : list A) :
  NoDup (map f l) → NoDup (map f (filter P l)).
Proof.
  induction l as [|x l IH]; simpl; [done|]. intros [Hx Hnd]%NoDup_cons.
  rewrite filter_cons. destruct (decide (P x)); [|by apply IH].
  simpl. apply NoDup_cons. split; [|by apply IH].
  intros (y & Hy & Hin)%list_elem_of_fmap. apply list_elem_of_filter in Hin as [_ Hin].
  apply Hx. rewrite Hy. apply list_elem_of_fmap. eauto.
Qed.

Lemma filter_iff_on {A} (P Q : A → Prop)
    `{!∀ x, Decision (P x), !∀ x, Decision (Q x)} (l : list A) :
  (∀ x, x ∈ l → P x ↔ Q x) → filter P l = filter Q l.
Proof.
  induction l as [|x l IH]; intros Hiff; [done|].
  rewrite !filter_cons, IH by (intros; apply Hiff; by right).
  specialize (Hiff x ltac:(left)).
  destruct (decide (P x)), (decide (Q x)); tauto.
Qed.

(** The queue before the loop: the names with in-degree zero, in the order
    of the dictionary. *)
Lemma initial_queue (tasks : list Task.t) (degree : Task.t → nat) :
  map fst (filter (λ item : string * Z, (item.2 =? 0)%Z)
                  (map (λ task, (Task.name task, Z.of_nat (degree task))) tasks))
  = map Task.name (filter (λ task, degree task = 0%nat) tasks).
Proof.
  induction tasks as [|task tasks IH]; [done|].
  simpl. rewrite !filter_cons. simpl.
  destruct (decide (degree task = 0%nat)) as [Hz|Hnz].
  - rewrite decide_True by (apply Is_true_true, Z.eqb_eq; lia). simpl. by rewrite IH.
  - rewrite decide_False; [done|]. intros Hz%Is_true_true%Z.eqb_eq. lia.
Qed.

Section order.

Context (tasks : list Task.t).
Hypothesis names_distinct : NoDup (map Task.name tasks).
Hypothesis dependencies_known : ¬ unknown_dependency tasks.

(** For distinct names the in-degree of a task is the number of its
    dependency entries. *)
Lemma pending_root (task : Task.t) :
  task ∈ tasks →
  pending (task_edges tasks) [] (Task.name task) = 0%nat ↔ Task.depends_on task = [].
Proof.
  intros Htask. rewrite pending_zero. split.
  - intros Hall. destruct (Task.depends_on task) as [|d l] eqn:Hdeps; [done|].
    exfalso. apply (not_elem_of_nil d), Hall, elem_of_task_edges.
    exists task. rewrite Hdeps. split; [done|]. split; [done|left].
  - intros Hdeps d (task' & Htask' & Hname & Hd)%elem_of_task_edges.
    assert (task' = task) as -> by (by eapply fmap_inj_on).
    rewrite Hdeps in Hd. by apply elem_of_nil in Hd.
Qed.

(** The state in which the loop is entered. *)
Lemma kahn_invariant_initial (in_degree : PyDict.t Z) :
  PyDict.keys in_degree = map Task.name tasks →
  (∀ n, n ∈ map Task.name tasks →
        PyDict.get in_degree n = Some (Z.of_nat (pending (task_edges tasks) [] n))) →
  kahn_invariant tasks
    (map fst (filter (λ item : string * Z, (item.2 =? 0)%Z) in_degree)) in_degree [].
Proof.
  intros Hkeys Hget.
  assert (in_degree
          = map (λ task, (Task.name task,
                          Z.of_nat (pending (task_edges tasks) [] (Task.name task))))
                tasks) as Hitems.
  { rewrite (items_of_keys in_degree
               (λ n, Z.of_nat (pending (task_edges tasks) [] n))).
    - rewrite Hkeys, map_map. done.
    - by rewrite Hkeys.
    - intros k Hk. apply Hget. by rewrite <- Hkeys. }
  assert (map fst (filter (λ item : string * Z, (item.2 =? 0)%Z) in_degree)
          = map Task.name (roots tasks)) as Hqueue.
  { rewrite Hitems at 1.
    etransitivity;
      [exact (initial_queue tasks
                (λ task, pending (task_edges tasks) [] (Task.name task)))|].
    unfold roots. f_equal. apply filter_iff_on.
    intros task Htask. by apply pending_root. }
  rewrite Hqueue. split; simpl.
  - done.
  - by apply NoDup_fmap_filter.
  - intros n (task & -> & Hin)%list_elem_of_fmap.
    apply list_elem_of_filter in Hin as [_ Hin]. apply list_elem_of_fmap. eauto.
  - done.
  - intros n (task & -> & Htask)%list_elem_of_fmap.
    rewrite pending_root by done. unfold roots. rewrite list_elem_of_fmap. split.
    + intros (task' & Hname & Hin). apply list_elem_of_filter in Hin as [Hd Hin].
      assert (task' = task) as -> by (by eapply fmap_inj_on). done.
    + intros Hd. exists task. split; [done|]. by apply list_elem_of_filter.
  - constructor.
  - intros [|? ?] ? ? ?; done.
  - exists []. by rewrite app_nil_r.
Qed.

End order.

(** What the search of the constructor establishes. *)
Lemma checked_acyclic (recursion_limit : nat) (tasks : list Task.t) :
  Component._has_circular_dependencies recursion_limit tasks = Ok false →
  ¬ has_cycle (Component.dependency_graph tasks).
Proof.
  intros Hcheck.
  pose proof (_has_circular_dependencies_complete recursion_limit tasks) as H.
  by rewrite Hcheck in H.
Qed.

(** C4, as the code has it. For every component whose task names are
    distinct, whose dependencies all name sibling tasks and whose dependency
    graph is acyclic, [get_task_execution_order] returns (the bound on the
    turns of its loop is not reached, and it does not raise) a permutation
    of the component's tasks in which every task comes after all the tasks
    it depends on, and which begins with the tasks of in-degree zero in
    their declared order. The order is a function of the component. *)
Theorem execution_order_topological_roots_first (self : Component.t) :
  NoDup (map Task.name (Component.tasks self)) →
  ¬ unknown_dependency (Component.tasks self) →
  ¬ has_cycle (Component.dependency_graph (Component.tasks self)) →
  ∃ order later,
    Component.get_task_execution_order self = Some (Ok order) ∧
    order ≡ₚ Component.tasks self ∧
    topologically_ordered order ∧
    order = roots (Component.tasks self) ++ later.
Proof.
  intros Hnames Hknown Hacyclic.
  set (tasks := Component.tasks self) in *.
  unfold Component.get_task_execution_order. fold tasks.
  rewrite !comprehension_nodup by done.
  destruct (for_task_spec tasks (map (λ task, (Task.name task, 0%Z)) tasks)
              (map (λ task, (Task.name task, @nil string)) tasks))
    as (in_degree & adjacency & Hrun & Hk1 & Hk2 & Hg1 & Hg2).
  { intros task Htask. rewrite (keys_items Task.name (λ _, 0%Z)).
    apply list_elem_of_fmap. eauto. }
  { intros task d Htask Hd. rewrite (keys_items Task.name (λ _, @nil string)).
    destruct (decide (d ∈ map Task.name tasks)) as [|Hno]; [done|].
    exfalso. apply Hknown. by exists task, d. }
  rewrite Hrun. rewrite (keys_items Task.name (λ _, 0%Z)) in Hk1.
  rewrite (keys_items Task.name (λ _, @nil string)) in Hk2.
  assert (∀ n, n ∈ map Task.name tasks →
            PyDict.get in_degree n
            = Some (Z.of_nat (pending (task_edges tasks) [] n))) as Hdeg.
  { intros n (task & -> & Htask)%list_elem_of_fmap.
    rewrite Hg1, (get_items Task.name (λ _, 0%Z)) by done. simpl. f_equal. }
  assert (∀ n, n ∈ map Task.name tasks →
            PyDict.get adjacency n = Some (dependents (task_edges tasks) n)) as Hadj.
  { intros n (task & -> & Htask)%list_elem_of_fmap.
    by rewrite Hg2, (get_items Task.name (λ _, @nil string)). }
  destruct (while_queue_spec tasks Hnames Hknown adjacency Hadj (length in_degree)
              (map fst (filter (λ item : string * Z, (item.2 =? 0)%Z) in_degree))
              in_degree [])
    as (order & in_degree' & Hloop & Hinv).
  { by apply kahn_invariant_initial. }
  { simpl. rewrite Nat.add_0_r.
    assert (length in_degree = length (PyDict.keys in_degree)) as ->
      by (unfold PyDict.keys; by rewrite length_map).
    by rewrite Hk1, length_map. }
  rewrite Hloop.
  pose proof (ordered_all tasks Hnames Hknown in_degree' order Hacyclic Hinv) as Hall.
  destruct Hinv as [_ Hnd Hsub _ _ Htasks Htopo [later Hroots]].
  rewrite app_nil_r in Hnd, Hsub, Hroots.
  assert (order ≡ₚ tasks) as Hperm.
  { apply NoDup_Permutation.
    - by apply NoDup_fmap_1 in Hnd.
    - by apply NoDup_fmap_1 in Hnames.
    - intros task. split.
      + intros Hin. rewrite Forall_forall in Htasks. by apply Htasks.
      + intros Hin.
        destruct (proj1 (list_elem_of_fmap _ _ _)
                    (Hall (Task.name task) ltac:(apply list_elem_of_fmap; eauto)))
          as (task' & Hname & Hin').
        rewrite Forall_forall in Htasks.
        assert (task = task') as ->; [|done].
        apply (fmap_inj_on Task.name tasks); [done|done|by apply Htasks|done]. }
  exists order, (drop (length (roots tasks)) order).
  rewrite decide_False by (apply Permutation_length in Hperm; lia).
  split; [done|]. split; [done|]. split; [done|].
  rewrite <- (take_drop (length (roots tasks)) order) at 1. f_equal.
  apply (fmap_eq_inj_on Task.name tasks); [done| | |].
  - apply Forall_take. done.
  - apply Forall_forall. intros task Hin. unfold roots in Hin.
    by apply list_elem_of_filter in Hin as [_ ?].
  - rewrite <- firstn_map, Hroots, take_app_length'; [done|]. by rewrite length_map.
Qed.

Lemma four_tasks_valid :
  NoDup (map Task.name four_tasks) ∧
  ¬ unknown_dependency four_tasks ∧
  ¬ has_cycle (Component.dependency_graph four_tasks).
Proof.
  split; [|split].
  - apply (bool_decide_unpack _). vm_compute. reflexivity.
  - apply checked_dependencies_known. vm_compute. reflexivity.
  - apply (checked_acyclic 4). vm_compute. reflexivity.
Defined.

Lemma execution_order_topological_roots_first_witness :
  ∃ order later,
    Component.get_task_execution_order (component_of four_tasks) = Some (Ok order) ∧
    order ≡ₚ four_tasks ∧
    topologically_ordered order ∧
    order = roots four_tasks ++ later.
Proof.
  apply (execution_order_topological_roots_first (component_of four_tasks));
    apply four_tasks_valid.
Defined.

(** The claim as stated fails in two ways. With distinct names: the four
    tasks are ordered A, C, D, B, so D comes before B although B is declared
    before D and both have in-degree 1. With a name used twice: the twin
    tasks pass for acyclic with known dependencies, and the call raises
    [ComponentError]. *)
Lemma execution_order_not_stable :
  (NoDup (map Task.name four_tasks) ∧
   ¬ unknown_dependency four_tasks ∧
   ¬ has_cycle (Component.dependency_graph four_tasks) ∧
   ∃ order,
     Component.get_task_execution_order (component_of four_tasks) = Some (Ok order) ∧
     map Task.name order = ["A"; "C"; "D"; "B"] ∧
     ¬ stable_among_equal_in_degree four_tasks order) ∧
  (¬ unknown_dependency twin_tasks ∧
   ¬ has_cycle (Component.dependency_graph twin_tasks) ∧
   Component.get_task_execution_order (component_of twin_tasks)
   = Some (Raise (ComponentError "Failed to order tasks for component 'c'"))).
Proof.
  split.
  - destruct four_tasks_valid as (H1 & H2 & H3).
    split; [done|]. split; [done|]. split; [done|].
    eexists. split; [vm_compute; reflexivity|]. split; [reflexivity|].
    intros Hstable.
    destruct (Hstable (Task.mk "B" pass ["C"] None None)
                      (Task.mk "D" pass ["A"] None None))
      as (l1 & l2 & l3 & Horder).
    + by exists [Task.mk "A" pass [] None None], [Task.mk "C" pass [] None None], [].
    + done.
    + apply (f_equal (map Task.name)) in Horder.
      rewrite map_app in Horder. simpl in Horder. rewrite map_app in Horder.
      simpl in Horder.
      destruct l1 as [|? [|? [|? [|? ?]]]]; simpl in Horder; try discriminate.
      * do 4 (apply (f_equal tail) in Horder; simpl in Horder).
        destruct l2; discriminate.
      * do 4 (apply (f_equal tail) in Horder; simpl in Horder).
        by apply app_cons_not_nil in Horder.
  - split; [|split].
    + apply checked_dependencies_known. vm_compute. reflexivity.
    + apply (checked_acyclic 2). vm_compute. reflexivity.
    + vm_compute. reflexivity.
Qed.

(** * The bound on the turns of Kahn's loop is never reached *)

Section bound.

Import Component.

Lemma keys_set_nodup {V} (d : PyDict.t V) (k : string) (v : V) :
  NoDup (PyDict.keys d) → NoDup (PyDict.keys (PyDict.set d k v)).
Proof.
  intros Hnd. destruct (decide (k ∈ PyDict.keys d)) as [Hin|Hin].
  - by rewrite keys_set_in.
  - rewrite keys_set_notin by done. unfold PyDict.keys in *. rewrite map_app.
    apply NoDup_app. split; [done|]. split; [|apply NoDup_singleton].
    intros x Hx Hx'%list_elem_of_singleton. by subst.
Qed.

Lemma keys_comprehension_nodup {A V} (key : A → string) (val : A → V) (xs : list A) :
  NoDup (PyDict.keys (PyDict.comprehension key val xs)).
Proof.
  unfold PyDict.comprehension.
  assert (NoDup (PyDict.keys (@nil (string * V)))) as H by constructor.
  revert H. generalize (@nil (string * V)).
  induction xs as [|x xs IH]; intros d Hd; simpl; [done|].
  by apply IH, keys_set_nodup.
Qed.

Lemma elem_get {V} (d : PyDict.t V) (k : string) (v : V) :
  NoDup (PyDict.keys d) → (k, v) ∈ d → PyDict.get d k = Some v.
Proof.
  unfold PyDict.keys. induction d as [|[k0 v0] d IH]; simpl; intros Hnd Hin.
  - by apply elem_of_nil in Hin.
  - apply NoDup_cons in Hnd as [Hk Hnd].
    apply elem_of_cons in Hin as [[= -> ->]|Hin].
    + by rewrite decide_True.
    + rewrite decide_False; [by apply IH|]. intros ->. apply Hk.
      apply list_elem_of_fmap. by exists (k, v).
Qed.

Lemma for_dependency_keys (task_name : string) (dependencies : list string)
    (in_degree in_degree' : PyDict.t Z) (adjacency adjacency' : PyDict.t (list string)) :
  for_dependency task_name dependencies in_degree adjacency
  = Ok (in_degree', adjacency') →
  PyDict.keys in_degree' = PyDict.keys in_degree.
Proof.
  revert in_degree adjacency.
  induction dependencies as [|d dependencies IH]; intros in_degree adjacency; simpl.
  - by intros [= -> ->].
  - unfold PyDict.item. destruct (PyDict.get adjacency d) as [l|]; [simpl|done].
    destruct (PyDict.get in_degree task_name) as [v|] eqn:Hv; [simpl|done].
    intros Hrun%IH. rewrite Hrun. apply keys_set_in. by eapply get_Some_keys.
Qed.

Lemma for_task_keys (tasks : list Task.t)
    (in_degree in_degree' : PyDict.t Z) (adjacency adjacency' : PyDict.t (list string)) :
  for_task tasks in_degree adjacency = Ok (in_degree', adjacency') →
  PyDict.keys in_degree' = PyDict.keys in_degree.
Proof.
  revert in_degree adjacency.
  induction tasks as [|task tasks IH]; intros in_degree adjacency; simpl.
  - by intros [= -> ->].
  - destruct (for_dependency _ _ _ _) as [[in_degree1 adjacency1]|] eqn:Hdep;
      [simpl|done].
    intros Hrun%IH. rewrite Hrun. by eapply for_dependency_keys.
Qed.

Lemma for_neighbor_keys (neighbors : list string)
    (in_degree in_degree' : PyDict.t Z) (queue queue' : list string) :
  for_neighbor neighbors in_degree queue = Ok (in_degree', queue') →
  PyDict.keys in_degree' = PyDict.keys in_degree.
Proof.
  revert in_degree queue.
  induction neighbors as [|x neighbors IH]; intros in_degree queue; simpl.
  - by intros [= -> _].
  - unfold PyDict.item.
    destruct (PyDict.get in_degree x) as [v|] eqn:Hv; [simpl|done].
    intros Hrun%IH. rewrite Hrun. apply keys_set_in. by eapply get_Some_keys.
Qed.

(** The loop over the neighbours, whatever they are: in-degrees only go
    down, and a name joins the queue when its in-degree goes from one to
    zero. *)
Lemma for_neighbor_bounded (neighbors : list string)
    (in_degree in_degree' : PyDict.t Z) (queue queue' : list string) :
  for_neighbor neighbors in_degree queue = Ok (in_degree', queue') →
  ∃ added,
    queue' = queue ++ added ∧ NoDup added ∧
    (∀ n, n ∈ added →
          (∃ v, PyDict.get in_degree n = Some v ∧ (1 ≤ v)%Z) ∧
          (∃ v', PyDict.get in_degree' n = Some v' ∧ (v' ≤ 0)%Z)) ∧
    (∀ n v, PyDict.get in_degree n = Some v →
            ∃ v', PyDict.get in_degree' n = Some v' ∧ (v' ≤ v)%Z).
Proof.
  revert in_degree queue.
  induction neighbors as [|x neighbors IH]; intros in_degree queue; simpl.
  - intros [= -> ->]. exists []. rewrite app_nil_r. split; [done|].
    split; [constructor|]. split; [by intros n H%elem_of_nil|]. eauto with lia.
  - unfold PyDict.item. destruct (PyDict.get in_degree x) as [v|] eqn:Hv; [simpl|done].
    intros (added & -> & Hnd & Hadded & Hmono)%IH.
    assert (∀ n w, PyDict.get in_degree n = Some w →
              ∃ v', PyDict.get in_degree' n = Some v' ∧ (v' ≤ w)%Z) as Hmono'.
    { intros n w Hw.
      destruct (Hmono n (if decide (x = n) then v - 1 else w)%Z) as (v' & Hv' & Hle).
      - rewrite get_set. destruct (decide (x = n)) as [->|]; [done|done].
      - exists v'. split; [done|]. destruct (decide (x = n)) as [->|]; [|done].
        rewrite Hv in Hw. injection Hw as <-. lia. }
    exists ((if (v - 1 =? 0)%Z then [x] else []) ++ added).
    split; [by destruct (v - 1 =? 0)%Z; rewrite <- ?app_assoc|].
    assert (∀ n, n ∈ added →
              ∃ w, PyDict.get in_degree n = Some w ∧ (1 ≤ w)%Z) as Hpos.
    { intros n [(w & Hw & Hle) _]%Hadded. rewrite get_set in Hw.
      destruct (decide (x = n)) as [->|]; [|eauto].
      injection Hw as <-. exists v. split; [done|lia]. }
    split; [|split; [|done]].
    + destruct (v - 1 =? 0)%Z eqn:Hz; [|done]. simpl.
      apply NoDup_cons. split; [|done]. intros [(w & Hw & Hle) _]%Hadded.
      rewrite get_set, decide_True in Hw by done. injection Hw as <-.
      apply Z.eqb_eq in Hz. lia.
    + intros n [Hn|Hn]%elem_of_app.
      * destruct (v - 1 =? 0)%Z eqn:Hz; [|by apply elem_of_nil in Hn].
        apply list_elem_of_singleton in Hn as ->. apply Z.eqb_eq in Hz.
        split; [exists v; split; [done|lia]|].
        destruct (Hmono x (v - 1)%Z) as (v' & Hv' & Hle);
          [by rewrite get_set, decide_True|].
        exists v'. split; [done|lia].
      * split; [by apply Hpos|]. by apply Hadded.
Qed.

Lemma while_queue_total (rounds : nat) (graph : PyDict.t Task.t)
    (adjacency : PyDict.t (list string)) (queue : list string)
    (in_degree : PyDict.t Z) (ordered_tasks : list Task.t) (popped : list string) :
  kahn_bounded queue in_degree popped →
  (length in_degree ≤ rounds + length popped)%nat →
  is_Some (while_queue rounds graph adjacency queue in_degree ordered_tasks).
Proof.
  revert queue in_degree ordered_tasks popped.
  induction rounds as [|rounds IH];
    intros queue in_degree ordered_tasks popped [Hnd Hnp] Hlen.
  - destruct queue as [|current queue]; [done|]. exfalso.
    assert (length (popped ++ current :: queue) ≤ length (PyDict.keys in_degree))%nat
      as Hle.
    { apply submseteq_length, NoDup_submseteq; [done|]. intros n Hn.
      destruct (Hnp n Hn) as (v & Hv & _). by eapply get_Some_keys. }
    unfold PyDict.keys in Hle. rewrite length_app, length_map in Hle.
    simpl in Hle. lia.
  - destruct queue as [|current queue]; [done|]. cbn [while_queue].
    unfold PyDict.item.
    destruct (PyDict.get graph current) as [task|]; [simpl|done].
    destruct (PyDict.get adjacency current) as [neighbors|]; [simpl|done].
    destruct (for_neighbor neighbors in_degree queue)
      as [[in_degree' queue']|] eqn:Hrun; [simpl|done].
    pose proof (for_neighbor_keys _ _ _ _ _ Hrun) as Hkeys.
    destruct (for_neighbor_bounded _ _ _ _ _ Hrun) as (added & -> & Hnd' & Hadded & Hmono).
    apply (IH _ _ _ (popped ++ [current])).
    + split.
      * rewrite <- app_assoc. simpl. rewrite app_comm_cons, app_assoc.
        apply NoDup_app. split; [done|]. split; [|done].
        intros n Hn [(v & Hv & Hle) _]%Hadded.
        destruct (Hnp n Hn) as (w & Hw & Hle'). rewrite Hv in Hw.
        injection Hw as <-. lia.
      * intros n Hn. rewrite <- app_assoc in Hn. simpl in Hn.
        rewrite app_comm_cons, app_assoc in Hn.
        apply elem_of_app in Hn as [Hn|Hn]; [|by apply Hadded].
        destruct (Hnp n Hn) as (w & Hw & Hle).
        destruct (Hmono n w Hw) as (v' & Hv' & Hle'). exists v'. split; [done|lia].
    + assert (length in_degree' = length in_degree) as ->.
      { unfold PyDict.keys in Hkeys.
        by rewrite <- (length_map fst in_degree'), Hkeys, length_map. }
      rewrite length_app. simpl. lia.
Qed.

End bound.

(** [get_task_execution_order] returns or raises, whatever the component. *)
Lemma get_task_execution_order_total (self : Component.t) :
  is_Some (Component.get_task_execution_order self).
Proof.
  unfold Component.get_task_execution_order.
  destruct (Component.for_task _ _ _) as [[in_degree adjacency]|] eqn:Hfirst; [|done].
  apply for_task_keys in Hfirst.
  assert (NoDup (PyDict.keys in_degree)) as Hnd
    by (rewrite Hfirst; apply keys_comprehension_nodup).
  destruct (while_queue_total (length in_degree)
              (PyDict.comprehension Task.name (λ task, task) (Component.tasks self))
              adjacency
              (map fst (filter (λ item : string * Z, (item.2 =? 0)%Z) in_degree))
              in_degree [] []) as [[order|e] Hloop].
  - split; simpl.
    + by apply NoDup_fmap_filter.
    + intros n ([n' v] & -> & Hin)%list_elem_of_fmap.
      apply list_elem_of_filter in Hin as [Hz%Is_true_true%Z.eqb_eq Hin]. simpl in *.
      exists v. split; [by apply elem_get|lia].
  - simpl. lia.
  - rewrite Hloop. by destruct (decide _).
  - by rewrite Hloop.
Qed.

(** * Further properties: clock, emitter, triggers *)

Section clock.

Import SimulationTime.

Lemma clock_step_start_time (clock : t) (c : clock_call) :
  start_time (clock_step clock c) = start_time clock.
Proof.
  unfold clock_step.
  destruct c; simpl; unfold advance_to, advance_by; by destruct (Qlt_le_dec _ _).
Qed.

Lemma clock_step_current_time (clock : t) (c : clock_call) :
  (current_time clock <= current_time (clock_step clock c))%Q.
Proof.
  unfold clock_step.
  destruct c; simpl; unfold advance_to, advance_by;
    destruct (Qlt_le_dec _ _); simpl; lra.
Qed.

Lemma clock_run_start_time (calls : list clock_call) (clock : t) :
  start_time (clock_run calls clock) = start_time clock.
Proof.
  unfold clock_run. revert clock.
  induction calls as [|c calls IH]; intros clock; [done|].
  simpl. by rewrite IH, clock_step_start_time.
Qed.

Lemma clock_run_current_time (calls : list clock_call) (clock : t) :
  (current_time clock <= current_time (clock_run calls clock))%Q.
Proof.
  unfold clock_run. revert clock.
  induction calls as [|c calls IH]; intros clock; simpl; [lra|].
  specialize (IH (clock_step clock c)).
  pose proof (clock_step_current_time clock c). lra.
Qed.

End clock.

(** The clock never runs backwards. Whatever calls of [advance_to] and
    [advance_by] are made on a clock, raising or not, [current_time] does
    not decrease and [start_time] is not written; on a clock that started
    at [initial_time], [elapsed()] is never negative. *)
Theorem clock_never_runs_backwards :
  (∀ (calls : list clock_call) (clock : SimulationTime.t),
     (SimulationTime.current_time clock
      <= SimulationTime.current_time (clock_run calls clock))%Q ∧
     SimulationTime.start_time (clock_run calls clock)
     = SimulationTime.start_time clock) ∧
  (∀ (calls : list clock_call) (initial_time : Q),
     (0 <= SimulationTime.elapsed
             (clock_run calls (SimulationTime.__init__ initial_time)))%Q).
Proof.
  split.
  - intros calls clock. split.
    + apply clock_run_current_time.
    + apply clock_run_start_time.
  - intros calls initial_time. unfold SimulationTime.elapsed.
    rewrite clock_run_start_time.
    pose proof (clock_run_current_time calls (SimulationTime.__init__ initial_time)) as H.
    simpl in *. lra.
Qed.

(** * Event emitter *)

Section emitter.

Import EventEmitter.

Lemma emit_all_pending (calls : list EmitCall) (emitter : t) :
  pending_events (emit_all calls emitter)
  = pending_events emitter ++
    map (λ call,
           mkPending (ec_name call)
             (match ec_data call with Some v => {[ "value" := v ]} | None => ∅ end)
             (ec_delay call) (ec_priority call)) calls.
Proof.
  revert emitter. induction calls as [|call calls IH]; intros emitter; simpl.
  - by rewrite app_nil_r.
  - unfold emit_all in IH. rewrite IH. simpl. by rewrite <- app_assoc.
Qed.

End emitter.

(** [get_pending_events] hands out what was emitted since the last call of
    it, one record per call of [emit] and in the order of the calls, and
    empties the emitter: a second call returns the empty list. The data of
    a record is [{'value': data}], and [{}] exactly when [data] is [None]. *)
Theorem pending_events_in_emit_order (calls : list EmitCall) :
  let got := EventEmitter.get_pending_events (emit_all calls EventEmitter.__init__) in
  length got.1 = length calls ∧
  (∀ (i : nat) (call : EmitCall),
     calls !! i = Some call →
     ∃ event,
       got.1 !! i = Some event ∧
       pe_name event = ec_name call ∧ pe_delay event = ec_delay call ∧
       pe_priority event = ec_priority call ∧
       ∀ key, pe_data event !! key
              = if decide (key = "value") then ec_data call else None) ∧
  EventEmitter.get_pending_events got.2 = ([], got.2).
Proof.
  unfold EventEmitter.get_pending_events.
  rewrite emit_all_pending. simpl. split; [by rewrite length_map|].
  split; [|done].
  intros i call Hcall. rewrite list_lookup_fmap, Hcall. simpl.
  eexists. split; [done|]. repeat split.
  intros key. destruct (ec_data call) as [v|]; destruct (decide (key = "value")) as [->|Hne].
  - simpl. apply lookup_singleton_eq.
  - simpl. by apply lookup_singleton_ne.
  - done.
  - done.
Qed.

Lemma pending_events_in_emit_order_witness :
  ∃ event,
    (EventEmitter.get_pending_events
       (emit_all [mkEmit "a" (Some (VInt 0)) 1 0; mkEmit "b" None 0 2]
          EventEmitter.__init__)).1 !! 1%nat = Some event ∧
    pe_name event = "b" ∧ pe_delay event = 0%Q ∧ pe_priority event = 2 ∧
    ∀ key, pe_data event !! key = if decide (key = "value") then None else None.
Proof.
  destruct (pending_events_in_emit_order
              [mkEmit "a" (Some (VInt 0)) 1 0; mkEmit "b" None 0 2]) as (_ & H & _).
  apply (H 1%nat (mkEmit "b" None 0 2)). reflexivity.
Defined.

(** * Triggers *)

Section triggers.

Import Trigger.

Lemma activations_immediate_run (calls : list activation_call) :
  activations (ImmediateTrigger true) calls
  = (repeat false (length calls), ImmediateTrigger true).
Proof.
  induction calls as [|c calls IH]; [done|]. simpl. by rewrite IH.
Qed.

Lemma fired_at_false (calls : list activation_call) (n : nat) :
  fired_at calls (repeat false n) = [].
Proof.
  revert n. induction calls as [|c calls IH]; intros [|n]; simpl; auto.
Qed.

(** The firings of a periodic trigger with the latch at [last] come
    later than [last], each later than the one before. *)
Lemma periodic_later (interval : Q) (calls : list activation_call) (last : Q) :
  (0 < interval)%Q →
  let times := fired_at calls (activations (PeriodicTrigger interval (Some last)) calls).1 in
  StronglySorted Qlt times ∧ Forall (Qlt last) times.
Proof.
  intros Hpos. revert last. induction calls as [|c calls IH]; intros last; simpl.
  - split; constructor.
  - destruct (Qle_bool interval (call_time c - last)) eqn:E.
    + specialize (IH (call_time c)). simpl in IH.
      destruct (activations _ calls) as [answers trigger]. simpl in *.
      destruct IH as [IH1 IH2]. apply Qle_bool_iff in E.
      assert (last < call_time c)%Q as Hlater by lra.
      split; constructor; try done.
      eapply Forall_impl; [exact IH2|]. intros t Ht. simpl in Ht. lra.
    + specialize (IH last). simpl in IH.
      by destruct (activations _ calls) as [answers trigger].
Qed.

End triggers.

(** An [ImmediateTrigger] fires exactly once: of any calls of
    [should_activate] on a new one, whatever their arguments, the first is
    answered [True] and every later one [False]. *)
Theorem immediate_trigger_fires_once (c : activation_call) (calls : list activation_call) :
  activations (Trigger.ImmediateTrigger false) (c :: calls)
  = (true :: repeat false (length calls), Trigger.ImmediateTrigger true).
Proof. simpl. by rewrite activations_immediate_run. Qed.

(** A [PeriodicTrigger] with a positive interval fires at later and later
    times. Whatever calls of [should_activate] are made on a new one, the
    first is answered [True], and every call answered [True] is at a time
    after that of every earlier call answered [True]. A call answered
    [True] sets [last_execution] to its time, a call answered [False]
    leaves the trigger as it was, and a call at a time not after
    [last_execution] is answered [False]. *)
Theorem periodic_trigger_fires_later_each_time (interval : Q) :
  (0 < interval)%Q →
  (∀ (c : activation_call) (calls : list activation_call),
     let answers := (activations (Trigger.PeriodicTrigger interval None) (c :: calls)).1 in
     head answers = Some true ∧
     StronglySorted Qlt (fired_at (c :: calls) answers)) ∧
  (∀ (last : option Q) (event_name : string) (state : dict) (now : Q),
     let answer :=
       (Trigger.should_activate (Trigger.PeriodicTrigger interval last)
          event_name state now).1 in
     (Trigger.should_activate (Trigger.PeriodicTrigger interval last)
        event_name state now).2
     = Trigger.PeriodicTrigger interval (if answer then Some now else last)) ∧
  (∀ (last : Q) (event_name : string) (state : dict) (now : Q),
     (now <= last)%Q →
     (Trigger.should_activate (Trigger.PeriodicTrigger interval (Some last))
        event_name state now).1 = false).
Proof.
  intros Hpos. split; [|split].
  - intros c calls. simpl.
    pose proof (periodic_later interval calls (call_time c) Hpos) as H. simpl in H.
    destruct (activations _ calls) as [answers trigger]. simpl in *.
    split; [done|]. destruct H as [H1 H2]. by constructor.
  - intros last event_name state now. simpl.
    by destruct (Trigger.period_elapsed now interval last).
  - intros last event_name state now Hnow. simpl.
    destruct (Qle_bool interval (now - last)) eqn:E; [|done].
    apply Qle_bool_iff in E. lra.
Qed.

Lemma periodic_trigger_fires_later_each_time_witness :
  (activations (Trigger.PeriodicTrigger 2 None)
     [mkCall "tick" ∅ 0; mkCall "tick" ∅ 1; mkCall "tick" ∅ 2]).1
  = [true; false; true] ∧
  StronglySorted Qlt
    (fired_at [mkCall "tick" ∅ 0; mkCall "tick" ∅ 1; mkCall "tick" ∅ 2]
       [true; false; true]).
Proof.
  split; [reflexivity|].
  assert (0 < 2)%Q as Hpos by reflexivity.
  destruct (periodic_trigger_fires_later_each_time 2 Hpos) as [H _].
  exact (proj2 (H (mkCall "tick" ∅ 0) [mkCall "tick" ∅ 1; mkCall "tick" ∅ 2])).
Defined.

Section condition_trigger.

Import Trigger.

Variable cond : dict → Q → result value.

(** Between a call that left the latch set and a later call answered
    [True], the condition was evaluated to a false value. *)
Lemma condition_latch (calls : list activation_call) :
  ∀ (i : nat),
    (activations (ConditionTrigger cond true) calls).1 !! i = Some true →
    ∃ (k : nat) (c : activation_call),
      (k < i)%nat ∧ calls !! k = Some c ∧ condition_at cond c = Some false.
Proof.
  induction calls as [|c calls IH]; intros i; simpl; [done|].
  unfold condition_at in *.
  destruct (cond (call_state c) (call_time c)) as [v|e] eqn:E.
  - destruct (truthy v) eqn:Ev; simpl.
    + destruct (activations _ calls) as [answers trigger]. simpl in *.
      destruct i as [|i]; [done|]. simpl. intros Hi.
      destruct (IH i Hi) as (k & c' & Hk & Hc & Hf).
      exists (S k), c'. split; [lia|]. done.
    + destruct (activations (ConditionTrigger cond false) calls) as [answers trigger].
      simpl. destruct i as [|i]; [done|]. intros _.
      exists 0%nat, c. split; [lia|]. split; [done|]. by rewrite E, Ev.
  - destruct (activations _ calls) as [answers trigger]. simpl in *.
    destruct i as [|i]; [done|]. simpl. intros Hi.
    destruct (IH i Hi) as (k & c' & Hk & Hc & Hf).
    exists (S k), c'. split; [lia|]. done.
Qed.

Lemma condition_rising_edge (calls : list activation_call) :
  ∀ (was_true : bool) (i j : nat) (c : activation_call),
    let answers := (activations (ConditionTrigger cond was_true) calls).1 in
    answers !! i = Some true → calls !! i = Some c →
    condition_at cond c = Some true ∧
    ((i < j)%nat → answers !! j = Some true →
     ∃ (k : nat) (c' : activation_call),
       (i < k < j)%nat ∧ calls !! k = Some c' ∧ condition_at cond c' = Some false).
Proof.
  induction calls as [|c0 calls IH]; intros was_true i j c; simpl; [done|].
  destruct (cond (call_state c0) (call_time c0)) as [v|e] eqn:E.
  - destruct (activations (ConditionTrigger cond (truthy v)) calls)
      as [answers trigger] eqn:Ea. simpl.
    destruct i as [|i]; simpl.
    + intros [= Hb] [= <-]. apply andb_true_iff in Hb as [Hv Hw].
      split; [unfold condition_at; by rewrite E, Hv|].
      intros Hij Hj. destruct j as [|j]; [lia|]. simpl in Hj.
      pose proof (condition_latch calls j) as Hl.
      rewrite Hv in Ea. rewrite Ea in Hl. simpl in Hl.
      destruct (Hl Hj) as (k & c' & Hk & Hc & Hf).
      exists (S k), c'. split; [lia|]. done.
    + intros Hi Hc. specialize (IH (truthy v) i (pred j) c).
      rewrite Ea in IH. simpl in IH. destruct (IH Hi Hc) as [H1 H2].
      split; [done|]. intros Hij Hj. destruct j as [|j]; [lia|]. simpl in *.
      destruct (H2 ltac:(lia) Hj) as (k & c' & Hk & Hc' & Hf).
      exists (S k), c'. split; [lia|]. done.
  - destruct (activations (ConditionTrigger cond was_true) calls)
      as [answers trigger] eqn:Ea. simpl.
    destruct i as [|i]; simpl; [done|].
    intros Hi Hc. specialize (IH was_true i (pred j) c).
    rewrite Ea in IH. simpl in IH. destruct (IH Hi Hc) as [H1 H2].
    split; [done|]. intros Hij Hj. destruct j as [|j]; [lia|]. simpl in *.
    destruct (H2 ltac:(lia) Hj) as (k & c' & Hk & Hc' & Hf).
    exists (S k), c'. split; [lia|]. done.
Qed.

End condition_trigger.

(** A [ConditionTrigger] fires on the rising edge only. In any sequence of
    calls of [should_activate], a call answered [True] is one at which the
    condition evaluates to a true value, and between two calls answered
    [True] there is a call at which it evaluates to a false value. A call
    at which evaluating the condition raises is answered [False] and leaves
    the trigger as it was. *)
Theorem condition_trigger_fires_on_rising_edge (cond : dict → Q → result value) :
  (∀ (was_true : bool) (calls : list activation_call) (i j : nat) (c : activation_call),
     let answers := (activations (Trigger.ConditionTrigger cond was_true) calls).1 in
     answers !! i = Some true → calls !! i = Some c →
     condition_at cond c = Some true ∧
     ((i < j)%nat → answers !! j = Some true →
      ∃ (k : nat) (c' : activation_call),
        (i < k < j)%nat ∧ calls !! k = Some c' ∧ condition_at cond c' = Some false)) ∧
  (∀ (was_true : bool) (event_name : string) (state : dict) (now : Q),
     condition_at cond (mkCall event_name state now) = None →
     Trigger.should_activate (Trigger.ConditionTrigger cond was_true) event_name state now
     = (false, Trigger.ConditionTrigger cond was_true)).
Proof.
  split.
  - intros was_true calls i j c. apply condition_rising_edge.
  - intros was_true event_name state now H. unfold condition_at in H. simpl in *.
    by destruct (cond state now).
Qed.

Lemma condition_trigger_fires_on_rising_edge_witness :
  let cond : dict → Q → result value :=
    λ state _, match state !! "x" with Some v => Ok v | None => Raise (KeyError "x") end in
  condition_at cond (mkCall "e" {[ "x" := VBool true ]} 0) = Some true ∧
  Trigger.should_activate (Trigger.ConditionTrigger cond true) "e" ∅ 1
  = (false, Trigger.ConditionTrigger cond true).
Proof.
  intros cond. destruct (condition_trigger_fires_on_rising_edge cond) as [H1 H2]. split.
  - apply (H1 false [mkCall "e" {[ "x" := VBool true ]} 0] 0%nat 0%nat); reflexivity.
  - apply H2. reflexivity.
Defined.

(** * Further properties: event queue *)

Section queue_entries.

Import EventQueue.

Lemma extract_least_length (l : list entry) (x : entry) :
  length (extract_least x l).2 = length l.
Proof.
  revert x. induction l as [|y l IH]; intros x; simpl; [done|].
  specialize (IH y). destruct (extract_least y l) as [m rest]. simpl in *.
  destruct (tuple_lt m x); simpl; by rewrite IH.
Qed.

End queue_entries.

Lemma pop_earliest (q : EventQueue.t) :
  queue_ok q → Forall keyed (EventQueue._queue q) →
  match EventQueue.pop q with
  | (Some event, q') =>
    queued q ≡ₚ event :: queued q' ∧
    Forall (not_after event) (queued q') ∧
    EventQueue.peek q = Some event ∧
    EventQueue.is_empty q = false
  | (None, q') =>
    queued q = [] ∧ q' = q ∧ EventQueue.peek q = None ∧ EventQueue.is_empty q = true
  end.
Proof.
  intros Hok Hkeyed.
  unfold EventQueue.pop. destruct (EventQueue.pop_entry q) as [[x|] q'] eqn:E; simpl.
  - destruct (pop_entry_spec _ _ _ Hok E) as (Hperm & Hmin & _ & _).
    unfold queued. rewrite Hperm in Hkeyed. apply Forall_cons in Hkeyed as [Hx Hrest].
    split; [by rewrite Hperm|]. split.
    + apply Forall_fmap. apply Forall_forall. intros y Hy. simpl.
      rewrite Forall_forall in Hmin, Hrest. apply key_lt_not_after; auto.
    + unfold EventQueue.pop_entry, EventQueue.peek, EventQueue.is_empty in *.
      destruct (EventQueue._queue q) as [|y l]; [done|]. simpl in *.
      destruct (EventQueue.extract_least y l) as [m rest]. by simplify_eq.
  - pose proof (pop_entry_none _ _ E) as Hnil.
    unfold queued, EventQueue.pop_entry, EventQueue.peek, EventQueue.is_empty in *.
    rewrite Hnil in *. simpl in *. by simplify_eq.
Qed.

(** [pop] hands out an earliest event and nothing else. On a queue reached
    by any calls of [push], [pop] and [clear]: when the queue holds events,
    [pop] returns one of them whose [(time, priority)] is not above that of
    any event left, the events left are those the queue held without the
    returned one, and [peek] had shown that event; when the queue is empty,
    [pop] and [peek] return [None] and the queue stays as it is. *)
Theorem pop_returns_earliest (ops : list EventQueue.op) :
  let q := EventQueue.run_ops ops EventQueue.__init__ in
  match EventQueue.pop q with
  | (Some event, q') =>
    queued q ≡ₚ event :: queued q' ∧
    Forall (not_after event) (queued q') ∧
    EventQueue.peek q = Some event ∧
    EventQueue.is_empty q = false
  | (None, q') =>
    queued q = [] ∧ q' = q ∧ EventQueue.peek q = None ∧ EventQueue.is_empty q = true
  end.
Proof.
  intros q. apply pop_earliest.
  - apply queue_ok_run_ops, queue_ok_init.
  - apply keyed_run_ops. constructor.
Qed.

(** The length of the queue counts the events: [push] adds one (also on a
    queue that was cleared or popped from), a [pop] that returns an event
    takes one away, [clear] leaves none, and [is_empty] says whether the
    length is zero. *)
Theorem queue_length_counts_events (q : EventQueue.t) (e : Event.t) :
  EventQueue.__len__ (EventQueue.push e q) = EventQueue.__len__ q + 1 ∧
  EventQueue.__len__ (EventQueue.pop q).2
  = match (EventQueue.pop q).1 with
    | Some _ => EventQueue.__len__ q - 1
    | None => EventQueue.__len__ q
    end ∧
  EventQueue.__len__ (EventQueue.clear q) = 0 ∧
  (EventQueue.is_empty q = true ↔ EventQueue.__len__ q = 0) ∧
  (EventQueue.is_empty q = true ↔ (EventQueue.pop q).1 = None).
Proof.
  unfold EventQueue.__len__, EventQueue.is_empty, EventQueue.pop, EventQueue.pop_entry,
    EventQueue.heappop.
  split; [|split; [|split; [|split]]].
  - simpl. unfold EventQueue.heappush. rewrite length_app. simpl. lia.
  - destruct (EventQueue._queue q) as [|x l] eqn:E; simpl; [by rewrite E|].
    pose proof (extract_least_length l x) as Hl.
    destruct (EventQueue.extract_least x l) as [m rest]. simpl in *. lia.
  - done.
  - destruct (EventQueue._queue q); simpl; split; intros; try done; lia.
  - destruct (EventQueue._queue q) as [|x l]; simpl; [done|].
    destruct (EventQueue.extract_least x l) as [m rest]. simpl. split; intros; done.
Qed.

(** * Execution log *)

Section log.

Import ExecutionLog.

Lemma find_numbered (rounds : list RoundRecord.t) (start : nat) (k : Z) :
  map RoundRecord.round_number rounds = map Z.of_nat (seq start (length rounds)) →
  find (λ r, (RoundRecord.round_number r =? k)%Z) rounds
  = if decide (Z.of_nat start ≤ k)%Z then rounds !! Z.to_nat (k - Z.of_nat start) else None.
Proof.
  revert start. induction rounds as [|r rounds IH]; intros start Hnum; simpl.
  - by destruct (decide _).
  - simpl in Hnum. injection Hnum as Hr Hnum.
    destruct (Z.eqb_spec (RoundRecord.round_number r) k) as [Hk|Hk].
    + rewrite decide_True by lia. by replace (k - Z.of_nat start)%Z with 0%Z by lia.
    + rewrite (IH (S start) Hnum).
      destruct (decide (Z.of_nat (S start) ≤ k)%Z) as [H1|H1].
      * rewrite decide_True by lia.
        replace (Z.to_nat (k - Z.of_nat start)) with (S (Z.to_nat (k - Z.of_nat (S start))))
          by lia. done.
      * destruct (decide (Z.of_nat start ≤ k)%Z); [lia|done].
Qed.

End log.

(** [get_round] returns the earliest record with the number asked for, and
    [None] when the log has none: after [add_round(n, ...)], a number that
    the log had before is still answered with the record it had, the number
    [n], if new, with the record just added, and any other number with
    [None]. *)
Theorem get_round_returns_earliest_record (log : ExecutionLog.t) (n m : Z)
    (inputs outputs state : dict) (task_order : option (list string)) :
  ExecutionLog.get_round m
    (ExecutionLog.add_round n inputs outputs state task_order log)
  = match ExecutionLog.get_round m log with
    | Some record => Some record
    | None =>
      if decide (m = n)
      then Some (RoundRecord.mk n inputs outputs state task_order)
      else None
    end ∧
  match ExecutionLog.get_round m log with
  | Some record =>
    RoundRecord.round_number record = m ∧ record ∈ ExecutionLog.rounds log
  | None =>
    Forall (λ record, RoundRecord.round_number record ≠ m) (ExecutionLog.rounds log)
  end ∧
  ExecutionLog.__len__ (ExecutionLog.add_round n inputs outputs state task_order log)
  = ExecutionLog.__len__ log + 1.
Proof.
  unfold ExecutionLog.get_round, ExecutionLog.add_round, ExecutionLog.__len__. simpl.
  split; [|split].
  - induction (ExecutionLog.rounds log) as [|r rounds IH]; simpl.
    + destruct (Z.eqb_spec n m); destruct (decide (m = n)); try done; lia.
    + by destruct (RoundRecord.round_number r =? m)%Z.
  - induction (ExecutionLog.rounds log) as [|r rounds IH]; simpl; [constructor|].
    destruct (Z.eqb_spec (RoundRecord.round_number r) m) as [Hr|Hr].
    + split; [done|]. left.
    + destruct (find _ rounds) as [record|].
      * destruct IH as [? ?]. split; [done|]. by right.
      * by constructor.
  - rewrite length_app. simpl. lia.
Qed.

(** In a log that [Executor.run] returned, [get_round(k)] is the [k]-th
    record for [k] from 1 to the number of rounds, and [None] for any other
    [k]. *)
Theorem get_round_of_returned_log (fuel : nat) (self self' : Executor.t)
    (returned : ExecutionLog.t) (k : Z) :
  Executor.run fuel self = Some (self', Ok returned) →
  ExecutionLog.get_round k returned
  = if decide (1 ≤ k)%Z then ExecutionLog.rounds returned !! Z.to_nat (k - 1) else None.
Proof.
  intros Hrun. unfold Executor.run in Hrun.
  apply while_not_terminated_numbered in Hrun as (_ & Hnum & _); [|done..].
  unfold ExecutionLog.get_round. by rewrite (find_numbered _ 1 k Hnum).
Qed.

Lemma get_round_of_returned_log_witness :
  ∃ (self' : Executor.t) (returned : ExecutionLog.t),
    Executor.run 4 counter_executor_built = Some (self', Ok returned) ∧
    ExecutionLog.get_round 2 returned = ExecutionLog.rounds returned !! 1%nat.
Proof.
  destruct (Executor.run 4 counter_executor_built) as [[self' [returned|e]]|] eqn:E.
  - exists self', returned. split; [reflexivity|].
    exact (get_round_of_returned_log 4 counter_executor_built self' returned 2 E).
  - vm_compute in E. discriminate.
  - vm_compute in E. discriminate.
Defined.

(** * Termination conditions *)

Section composite.

Import TerminationCondition.

Lemma should_terminate_composite (conditions : list t) (round_number : Z)
    (state : dict) (log : ExecutionLog.t) (kw : kwargs) :
  should_terminate (CompositeCondition conditions) round_number state log kw
  = match conditions with
    | [] => Ok false
    | cond :: conditions =>
      match should_terminate cond round_number state log kw with
      | Ok true => Ok true
      | Ok false =>
        should_terminate (CompositeCondition conditions) round_number state log kw
      | Raise e => Raise e
      end
    end.
Proof. by destruct conditions. Qed.

End composite.

(** [CompositeCondition] is [any] over its conditions, asked in order and
    no further than needed. It answers [True] when some condition answers
    [True] and all before it answered [False]; the conditions after that
    one are not asked, so an error of theirs is not raised. It answers
    [False] when every condition answers [False], and it raises what the
    first condition that raises does, all before it having answered
    [False]. *)
Theorem composite_condition_is_ordered_any (conditions : list TerminationCondition.t)
    (round_number : Z) (state : dict) (log : ExecutionLog.t)
    (kw : TerminationCondition.kwargs) :
  let answers := verdicts conditions round_number state log kw in
  match
    TerminationCondition.should_terminate
      (TerminationCondition.CompositeCondition conditions) round_number state log kw
  with
  | Ok true =>
    ∃ i : nat, answers !! i = Some (Ok true) ∧
               Forall (λ answer, answer = Ok false) (take i answers)
  | Ok false => Forall (λ answer, answer = Ok false) answers
  | Raise e =>
    ∃ i : nat, answers !! i = Some (Raise e) ∧
               Forall (λ answer, answer = Ok false) (take i answers)
  end.
Proof.
  induction conditions as [|cond conditions IH]; [constructor|].
  rewrite should_terminate_composite. cbv zeta in *. unfold verdicts in *. cbn [map].
  destruct (TerminationCondition.should_terminate cond round_number state log kw)
    as [[]|e] eqn:E.
  - exists 0%nat. split; [done|constructor].
  - destruct (TerminationCondition.should_terminate
                (TerminationCondition.CompositeCondition conditions) _ _ _ _) as [[]|e'].
    + destruct IH as (i & Hi & Hbefore). exists (S i). split; [done|]. by constructor.
    + by constructor.
    + destruct IH as (i & Hi & Hbefore). exists (S i). split; [done|]. by constructor.
  - exists 0%nat. split; [done|constructor].
Qed.

(** * Round-based executor *)

Section executor_loop.

Import Executor.

Lemma execute_round_total (input_values : dict) (self : Component.t) :
  is_Some (Component.execute_round input_values self).
Proof.
  unfold Component.execute_round.
  destruct (get_task_execution_order_total self) as [[order|e] Horder]; rewrite Horder.
  - destruct (Component.component_type self);
      destruct (Component.missing_input _ _); try done.
    by destruct (Component.execute_tasks _ _).
  - by destruct (Component.component_type self);
      destruct (Component.missing_input _ _).
Qed.

(** The loop keeps the condition, and leaves the log behind numbered, with
    [current_round] at the number of the last record, or one above when
    the round it began did not complete. *)
Lemma while_not_terminated_log (fuel : nat) (self self' : t) (r : result ExecutionLog.t) :
  while_not_terminated fuel self = Some (self', r) →
  numbered_from_one (log self) →
  current_round self = Z.of_nat (length (ExecutionLog.rounds (log self))) →
  termination_condition self' = termination_condition self ∧
  numbered_from_one (log self') ∧
  (length (ExecutionLog.rounds (log self)) ≤ length (ExecutionLog.rounds (log self')))%nat ∧
  match r with
  | Ok returned =>
    returned = log self' ∧
    current_round self' = Z.of_nat (length (ExecutionLog.rounds (log self'))) ∧
    TerminationCondition.should_terminate (termination_condition self')
      (current_round self') (Component.state (component self')) (log self')
      TerminationCondition.no_kwargs = Ok true
  | Raise _ =>
    current_round self' = Z.of_nat (length (ExecutionLog.rounds (log self'))) ∨
    current_round self' = Z.of_nat (length (ExecutionLog.rounds (log self'))) + 1
  end.
Proof.
  revert self. induction fuel as [|fuel IH]; intros self Hrun Hnum Hround; [done|].
  cbn [while_not_terminated] in Hrun.
  destruct (TerminationCondition.should_terminate (termination_condition self) _ _ _ _)
    as [[]|] eqn:Hstop.
  { injection Hrun as <- <-. by rewrite Hstop. }
  2:{ injection Hrun as <- <-. repeat split; auto. }
  destruct (InputGenerator.generate _ _ _ _) as [[inputs|] generator].
  2:{ injection Hrun as <- <-. cbn. repeat split; auto. right. lia. }
  destruct (if track_task_order _ then _ else _) as [[task_order|]|]; [| |done].
  2:{ injection Hrun as <- <-. cbn. repeat split; auto. right. lia. }
  destruct (Component.execute_round _ _) as [[[component' inputs'] [outputs|]]|];
    [| |done].
  2:{ injection Hrun as <- <-. cbn. repeat split; auto. right. lia. }
  apply IH in Hrun.
  - cbn in Hrun. destruct Hrun as (Hc & Hn & Hl & Hr). split; [done|]. split; [done|].
    split; [|done]. rewrite length_app in Hl. simpl in Hl. lia.
  - cbn. rewrite Hround. by apply numbered_add_round.
  - cbn. rewrite length_app, Hround. simpl. lia.
Qed.

End executor_loop.

(** What a call of [Executor.run] leaves behind, however it ends. The
    records of the executor's log are numbered 1, 2, ... in order. When
    [run] returns, it returns that log, [current_round] is the number of its
    records and the termination condition holds of it. When [run] raises,
    the log holds the rounds completed before, and [current_round] is their
    number, or one more when the failing round had begun. *)
Theorem run_leaves_numbered_log (fuel : nat) (self self' : Executor.t)
    (r : result ExecutionLog.t) :
  Executor.run fuel self = Some (self', r) →
  numbered_from_one (Executor.log self') ∧
  match r with
  | Ok returned =>
    returned = Executor.log self' ∧
    Executor.current_round self' = ExecutionLog.__len__ returned ∧
    TerminationCondition.should_terminate (Executor.termination_condition self)
      (Executor.current_round self') (Component.state (Executor.component self'))
      returned TerminationCondition.no_kwargs = Ok true
  | Raise _ =>
    Executor.current_round self' = ExecutionLog.__len__ (Executor.log self') ∨
    Executor.current_round self' = ExecutionLog.__len__ (Executor.log self') + 1
  end.
Proof.
  intros Hrun. unfold Executor.run in Hrun.
  apply while_not_terminated_log in Hrun as (Hc & Hn & _ & Hr); [|done..].
  split; [done|]. unfold ExecutionLog.__len__. destruct r as [returned|e]; [|done].
  destruct Hr as (-> & Hround & Hstop). by rewrite Hc in Hstop.
Qed.

Lemma run_leaves_numbered_log_witness :
  ∃ (self' : Executor.t) (r : result ExecutionLog.t),
    Executor.run 4 counter_executor_built = Some (self', r) ∧
    numbered_from_one (Executor.log self').
Proof.
  destruct (Executor.run 4 counter_executor_built) as [[self' r]|] eqn:E.
  - exists self', r. split; [reflexivity|].
    exact (proj1 (run_leaves_numbered_log 4 counter_executor_built self' r E)).
  - vm_compute in E. discriminate.
Defined.

Section max_rounds.

Import Executor.

Variable max_rounds : Z.

Lemma while_max_rounds (fuel : nat) (self : t) :
  termination_condition self = TerminationCondition.MaxRoundsCondition max_rounds →
  (Z.to_nat (max_rounds - current_round self) < fuel)%nat →
  is_Some (while_not_terminated fuel self).
Proof.
  revert self. induction fuel as [|fuel IH]; intros self Hc Hfuel; [lia|].
  cbn [while_not_terminated]. rewrite Hc. simpl.
  destruct (Z.leb_spec max_rounds (current_round self)) as [Hle|Hlt]; [done|].
  destruct (InputGenerator.generate _ _ _ _) as [[inputs|] generator]; [|done].
  destruct (track_task_order _).
  - simpl.
    destruct (get_task_execution_order_total (component self)) as [[order|e] ->];
      [|done].
    destruct (execute_round_total inputs (component self))
      as [[[component' inputs'] [outputs|]] ->]; [|done].
    apply IH; [done|]. cbn. lia.
  - simpl.
    destruct (execute_round_total inputs (component self))
      as [[[component' inputs'] [outputs|]] ->]; [|done].
    apply IH; [done|]. cbn. lia.
Qed.

Lemma while_max_rounds_count (fuel : nat) (self self' : t) (r : result ExecutionLog.t) :
  termination_condition self = TerminationCondition.MaxRoundsCondition max_rounds →
  current_round self = Z.of_nat (length (ExecutionLog.rounds (log self))) →
  (current_round self ≤ max_rounds)%Z →
  while_not_terminated fuel self = Some (self', r) →
  match r with
  | Ok _ => Z.of_nat (length (ExecutionLog.rounds (log self'))) = max_rounds
  | Raise _ => (Z.of_nat (length (ExecutionLog.rounds (log self'))) < max_rounds)%Z
  end.
Proof.
  revert self. induction fuel as [|fuel IH]; intros self Hc Hround Hle Hrun; [done|].
  cbn [while_not_terminated] in Hrun. rewrite Hc in Hrun. simpl in Hrun.
  destruct (Z.leb_spec max_rounds (current_round self)) as [Hge|Hlt].
  { injection Hrun as <- <-. lia. }
  destruct (InputGenerator.generate _ _ _ _) as [[inputs|] generator].
  2:{ injection Hrun as <- <-. cbn. lia. }
  destruct (if track_task_order _ then _ else _) as [[task_order|]|]; [| |done].
  2:{ injection Hrun as <- <-. cbn. lia. }
  destruct (Component.execute_round _ _) as [[[component' inputs'] [outputs|]]|];
    [| |done].
  2:{ injection Hrun as <- <-. cbn. lia. }
  apply IH in Hrun; [done|done| |].
  - cbn. rewrite length_app. simpl. lia.
  - cbn. lia.
Qed.

End max_rounds.

(** [run] with [MaxRoundsCondition(n)] ends after at most [n] rounds: the
    loop asks the condition at most [n + 1] times. When it returns, the log
    holds exactly [n] records, numbered 1 to [n]; when it raises, the log
    holds fewer than [n]. *)
Theorem run_with_max_rounds_ends (max_rounds : Z) (fuel : nat) (self : Executor.t) :
  Executor.termination_condition self
  = TerminationCondition.MaxRoundsCondition max_rounds →
  (0 < max_rounds)%Z →
  (Z.to_nat max_rounds < fuel)%nat →
  ∃ (self' : Executor.t) (r : result ExecutionLog.t),
    Executor.run fuel self = Some (self', r) ∧
    numbered_from_one (Executor.log self') ∧
    match r with
    | Ok returned =>
      returned = Executor.log self' ∧ ExecutionLog.__len__ returned = max_rounds
    | Raise _ => (ExecutionLog.__len__ (Executor.log self') < max_rounds)%Z
    end.
Proof.
  intros Hc Hpos Hfuel. unfold Executor.run.
  destruct (while_max_rounds max_rounds fuel
              (Executor.set_log_round ExecutionLog.__init__ 0 self))
    as [[self' r] Hrun]; [done|cbn; lia|].
  exists self', r. split; [done|].
  pose proof Hrun as Hlog.
  apply while_not_terminated_log in Hlog as (_ & Hn & _ & Hr); [|done..].
  apply (while_max_rounds_count max_rounds) in Hrun; [|done|done|cbn; lia].
  split; [done|]. unfold ExecutionLog.__len__.
  destruct r as [returned|e]; [|done]. destruct Hr as (-> & _). done.
Qed.

Lemma run_with_max_rounds_ends_witness :
  ∃ (self' : Executor.t) (r : result ExecutionLog.t),
    Executor.run 4 counter_executor_built = Some (self', r) ∧
    numbered_from_one (Executor.log self') ∧
    match r with
    | Ok returned =>
      returned = Executor.log self' ∧ ExecutionLog.__len__ returned = 3
    | Raise _ => (ExecutionLog.__len__ (Executor.log self') < 3)%Z
    end.
Proof.
  apply (run_with_max_rounds_ends 3 4 counter_executor_built); [reflexivity|lia|simpl; lia].
Defined.

Section event_conditions.

Import Executor.

(** A condition that answers [False] whatever the round keeps the loop
    going until something raises. *)
Lemma while_never_terminated (fuel : nat) (self self' : t) (returned : ExecutionLog.t) :
  (∀ round_number state log,
     TerminationCondition.should_terminate (termination_condition self)
       round_number state log TerminationCondition.no_kwargs = Ok false) →
  while_not_terminated fuel self ≠ Some (self', Ok returned).
Proof.
  revert self. induction fuel as [|fuel IH]; intros self Hnever Hrun; [done|].
  cbn [while_not_terminated] in Hrun. rewrite Hnever in Hrun.
  destruct (InputGenerator.generate _ _ _ _) as [[inputs|] generator]; [|done].
  destruct (if track_task_order _ then _ else _) as [[task_order|]|]; [|done..].
  destruct (Component.execute_round _ _) as [[[component' inputs'] [outputs|]]|];
    [|done..].
  by apply IH in Hrun.
Qed.

End event_conditions.

(** The conditions that read keyword arguments, in the round-based
    executor, which passes none. [EmptyQueueCondition] finds no queue and
    answers [True]: [run] returns the empty log without running a round.
    [MaxTimeCondition] and [MaxEventsCondition], as their constructors
    accept them, compare their positive bound with the default 0 and
    answer [False] at every round: [run] never returns a log, it goes on
    until a round raises. *)
Theorem keyword_conditions_in_round_based_run :
  (∀ (fuel : nat) (self : Executor.t),
     Executor.termination_condition self = TerminationCondition.EmptyQueueCondition →
     Executor.run (S fuel) self
     = Some (Executor.reset self, Ok ExecutionLog.__init__)) ∧
  (∀ (max_time : Q) (condition : TerminationCondition.t) (fuel : nat)
     (self self' : Executor.t) (returned : ExecutionLog.t),
     TerminationCondition.MaxTimeCondition__init__ max_time = Ok condition →
     Executor.termination_condition self = condition →
     Executor.run fuel self ≠ Some (self', Ok returned)) ∧
  (∀ (max_events : Z) (condition : TerminationCondition.t) (fuel : nat)
     (self self' : Executor.t) (returned : ExecutionLog.t),
     TerminationCondition.MaxEventsCondition__init__ max_events = Ok condition →
     Executor.termination_condition self = condition →
     Executor.run fuel self ≠ Some (self', Ok returned)).
Proof.
  split; [|split].
  - intros fuel self Hc. unfold Executor.run. cbn [Executor.while_not_terminated].
    cbn. by rewrite Hc.
  - intros max_time condition fuel self self' returned Hinit Hc.
    unfold TerminationCondition.MaxTimeCondition__init__ in Hinit.
    destruct (Qle_bool max_time 0) eqn:Hpos; [done|]. injection Hinit as <-.
    apply while_never_terminated. cbn. rewrite Hc. intros ? ? ?. simpl.
    by rewrite Hpos.
  - intros max_events condition fuel self self' returned Hinit Hc.
    unfold TerminationCondition.MaxEventsCondition__init__ in Hinit.
    destruct (Z.leb_spec max_events 0) as [|Hpos]; [done|]. injection Hinit as <-.
    apply while_never_terminated. cbn. rewrite Hc. intros ? ? ?. simpl.
    f_equal. apply Z.leb_gt. done.
Qed.

Lemma keyword_conditions_in_round_based_run_witness :
  Executor.run 1
    (Executor.__init__ counter_component (InputGenerator.FixedInputGenerator [])
       TerminationCondition.EmptyQueueCondition false)
  = Some (Executor.reset
            (Executor.__init__ counter_component (InputGenerator.FixedInputGenerator [])
               TerminationCondition.EmptyQueueCondition false),
          Ok ExecutionLog.__init__) ∧
  ∀ (self' : Executor.t) (returned : ExecutionLog.t),
    Executor.run 5
      (Executor.__init__ counter_component (InputGenerator.FixedInputGenerator [])
         (TerminationCondition.MaxTimeCondition 5) false)
    ≠ Some (self', Ok returned).
Proof.
  destruct keyword_conditions_in_round_based_run as (H1 & H2 & _). split.
  - apply H1. reflexivity.
  - intros self' returned. apply (H2 5%Q (TerminationCondition.MaxTimeCondition 5));
      reflexivity.
Defined.

(** * Further properties: components *)

(** ** Cycle detection finds cycles only *)

Section cycle_soundness.

Context (graph : PyDict.t (list string)).

#[local] Abbreviation nodes := (Component.graph_nodes graph).

(** The names on the stack reach the name being searched. *)
#[local] Abbreviation on_path rec_stack node :=
  (∀ x : string, x ∈ (rec_stack : gset string) → rtc (depends graph) x node).

Section loop.

Context (depth : nat)
  (call : string → gset string → gset string → option (bool * gset string * gset string)).
Hypothesis call_post : ∀ node visited rec_stack,
  node ∈ nodes → node ∉ visited → visited ⊆ nodes →
  dfs_invariant graph visited rec_stack →
  dfs_post graph node visited rec_stack depth (call node visited rec_stack).
Hypothesis call_sound : ∀ node visited rec_stack visited' rec_stack',
  node ∈ nodes → node ∉ visited → visited ⊆ nodes →
  dfs_invariant graph visited rec_stack →
  on_path rec_stack node →
  call node visited rec_stack = Some (true, visited', rec_stack') →
  has_cycle graph.

Lemma dfs_for_neighbor_sound (node : string) (neighbors : list string)
    (visited rec_stack visited' rec_stack' : gset string) :
  (∀ d, d ∈ neighbors → depends graph node d) →
  visited ⊆ nodes →
  dfs_invariant graph visited rec_stack →
  on_path rec_stack node →
  Component.dfs_for_neighbor call node neighbors visited rec_stack
  = Some (true, visited', rec_stack') →
  has_cycle graph.
Proof.
  revert visited. induction neighbors as [|d neighbors IH];
    intros visited Hnb Hsub Hinv Hpath; simpl; [done|].
  assert (depends graph node d) as Hd by (apply Hnb; left).
  assert (d ∈ nodes) as Hdu by (by apply depends_nodes in Hd as (_ & _ & ?)).
  assert (∀ d', d' ∈ neighbors → depends graph node d') as Hnb'
    by (intros; apply Hnb; by right).
  destruct (decide (d ∉ visited)) as [Hdv|Hdv].
  - pose proof (call_post d visited rec_stack Hdu Hdv Hsub Hinv) as Hpost.
    destruct (call d visited rec_stack) as [[[[] visited1] rec_stack1]|] eqn:Hcall;
      simpl in Hpost; [|  |done].
    + intros _. apply (call_sound d visited rec_stack visited1 rec_stack1); try done.
      intros x Hx. eapply rtc_r; [by apply Hpath|done].
    + destruct Hpost as (Hsub1 & Hd1 & Hu1 & -> & Hinv1).
      by apply IH.
  - destruct (decide (d ∈ rec_stack)) as [Hdr|Hdr]; [|by apply IH].
    intros _. exists d. eapply tc_rtc_l; [by apply Hpath|]. by apply tc_once.
Qed.

End loop.

Lemma dfs_sound (depth : nat) (node : string)
    (visited rec_stack visited' rec_stack' : gset string) :
  node ∈ nodes → node ∉ visited → visited ⊆ nodes →
  dfs_invariant graph visited rec_stack →
  on_path rec_stack node →
  Component.dfs depth graph node visited rec_stack = Some (true, visited', rec_stack') →
  has_cycle graph.
Proof.
  revert node visited rec_stack visited' rec_stack'.
  induction depth as [|depth IH];
    intros node visited rec_stack visited' rec_stack' Hu Hv Hsub Hinv Hpath;
    [done|].
  simpl.
  apply (dfs_for_neighbor_sound depth (Component.dfs depth graph)).
  - intros. by apply dfs_spec.
  - intros. by eapply IH.
  - intros d Hd. by apply depends_neighbors.
  - set_solver.
  - by apply dfs_invariant_push.
  - intros x [Hx%elem_of_singleton|Hx]%elem_of_union; [by subst x|by apply Hpath].
Qed.

Lemma for_task_name_sound (depth : nat) (task_names : list string)
    (visited : gset string) :
  (∀ n, n ∈ task_names → n ∈ nodes) →
  visited ⊆ nodes →
  dfs_invariant graph visited ∅ →
  Component.for_task_name depth graph task_names visited ∅ = Some true →
  has_cycle graph.
Proof.
  revert visited. induction task_names as [|n task_names IH];
    intros visited Hnames Hsub Hinv; cbn [Component.for_task_name]; [done|].
  assert (n ∈ nodes) as Hn by (apply Hnames; left).
  assert (∀ n', n' ∈ task_names → n' ∈ nodes) as Hnames'
    by (intros; apply Hnames; by right).
  destruct (decide (n ∉ visited)) as [Hnv|Hnv]; [|by apply IH].
  pose proof (dfs_spec graph depth n visited ∅ Hn Hnv Hsub Hinv) as Hpost.
  destruct (Component.dfs _ _ _ _ _) as [[[[] visited'] rec_stack']|] eqn:Hdfs;
    simpl in Hpost; cbn beta iota; [| |done].
  - intros _. apply (dfs_sound _ _ _ _ _ _ Hn Hnv Hsub Hinv) in Hdfs; [done|].
    intros x Hx. by apply elem_of_empty in Hx.
  - destruct Hpost as (Hsub' & Hn' & Hu' & -> & Hinv'). by apply IH.
Qed.

End cycle_soundness.

Lemma _has_circular_dependencies_sound (recursion_limit : nat) (tasks : list Task.t) :
  Component._has_circular_dependencies recursion_limit tasks = Ok true →
  has_cycle (Component.dependency_graph tasks).
Proof.
  unfold Component._has_circular_dependencies.
  destruct (Component.for_task_name _ _ _ _ _) as [[]|] eqn:Hsearch; [|done..].
  intros _. revert Hsearch. apply for_task_name_sound.
  - intros n Hn. unfold Component.graph_nodes. set_solver.
  - set_solver.
  - split; [done|]. set_solver.
Qed.

(** What [_has_circular_dependencies] does, given the number of calls of
    [dfs] that Python lets nest. *)
Lemma _has_circular_dependencies_exact (recursion_limit : nat) (tasks : list Task.t) :
  match Component._has_circular_dependencies recursion_limit tasks with
  | Ok found => found = true ↔ has_cycle (Component.dependency_graph tasks)
  | Raise e =>
    (∃ msg, e = RecursionError msg) ∧
    (recursion_limit < size (Component.graph_nodes (Component.dependency_graph tasks)))%nat
  end.
Proof.
  pose proof (_has_circular_dependencies_sound recursion_limit tasks) as Hsound.
  pose proof (_has_circular_dependencies_complete recursion_limit tasks) as Hcomplete.
  destruct (Component._has_circular_dependencies recursion_limit tasks) as [[]|e];
    [split; auto| |done].
  split; [done|]. intros Hcycle. by destruct Hcomplete.
Qed.

(** [_has_circular_dependencies] finds the cycles and nothing else, unless
    Python's recursion limit stops it. The graph it searches is the
    dictionary [{task.name: task.depends_on}], which keeps, of tasks that
    share a name, the dependencies of the last. Given the number of calls
    of [dfs] that Python lets nest: when the search returns, it returns
    [True] exactly when some name reaches itself along one or more entries
    of that graph; when it raises, it raises [RecursionError], and the
    graph has more names than calls can be nested. So with as many nested
    calls allowed as the graph has names the search returns. *)
Theorem cycle_detection_is_exact (recursion_limit : nat) (tasks : list Task.t) :
  match Component._has_circular_dependencies recursion_limit tasks with
  | Ok found => found = true ↔ has_cycle (Component.dependency_graph tasks)
  | Raise e =>
    (∃ msg, e = RecursionError msg) ∧
    (recursion_limit < size (Component.graph_nodes (Component.dependency_graph tasks)))%nat
  end ∧
  (∀ n d : string,
     depends (Component.dependency_graph tasks) n d ↔ last_depends tasks n d).
Proof.
  split; [apply _has_circular_dependencies_exact|]. intros n d. apply depends_last.
Qed.

(** ** Construction *)

Lemma check_dependencies_raise (task_names : gset string) (tasks : list Task.t) (e : exn) :
  Component.check_dependencies task_names tasks = Raise e →
  ∃ task dependency,
    task ∈ tasks ∧ dependency ∈ Task.depends_on task ∧ (dependency ∉ task_names) ∧
    e = ComponentError ("Task '" +:+ Task.name task +:+
                        ("' depends on unknown task '" +:+ (dependency +:+ "'"))).
Proof.
  induction tasks as [|task tasks IH]; simpl; [done|].
  destruct (find _ (Task.depends_on task)) as [dependency|] eqn:Hfind.
  - intros [= <-]. apply find_some in Hfind as [Hin Hb].
    apply bool_decide_eq_true in Hb. exists task, dependency.
    split; [left|]. split; [by apply list_elem_of_In|]. done.
  - intros (task' & dependency & Htask & Hrest)%IH. exists task', dependency.
    split; [by right|done].
Qed.

Lemma constructed_outputs (kind : Component.kind) (name : string) (state : dict)
    (inputs outputs : list string) (tasks : list Task.t) (output : string) :
  output ∈ outputs →
  Component.current_outputs (constructed kind name state inputs outputs tasks) !! output
  = Some VNone.
Proof.
  intros Hin. simpl. apply elem_of_list_to_map_1'.
  - intros y (output' & [= -> ->] & _)%list_elem_of_fmap. done.
  - apply list_elem_of_fmap. eauto.
Qed.

(** What the constructor does, given the number of calls of [dfs] that
    Python lets nest. *)
Lemma __init___spec (recursion_limit : nat)
    (kind : Component.kind) (name : string) (state : dict)
    (inputs outputs : list string) (tasks : list Task.t) :
  match Component.__init__ recursion_limit kind name state inputs outputs tasks with
  | Ok self =>
    ¬ unknown_dependency tasks ∧ ¬ has_cycle (Component.dependency_graph tasks) ∧
    self = constructed kind name state inputs outputs tasks
  | Raise e =>
    ((∃ msg, e = ComponentError msg) ∧
     (unknown_dependency tasks ∨ has_cycle (Component.dependency_graph tasks))) ∨
    ((∃ msg, e = RecursionError msg) ∧
     ¬ unknown_dependency tasks ∧ (recursion_limit < length tasks)%nat)
  end.
Proof.
  unfold Component.__init__, Component._validate_tasks.
  destruct (Component.check_dependencies _ tasks) as [[]|e] eqn:Hcheck.
  - apply checked_dependencies_known in Hcheck.
    pose proof (_has_circular_dependencies_exact recursion_limit tasks) as Hsearch.
    destruct (Component._has_circular_dependencies recursion_limit tasks) as [[]|e].
    + left. split; [eauto|]. right. by apply Hsearch.
    + split; [done|]. split; [|done]. intros Hcycle. by apply Hsearch in Hcycle.
    + right. destruct Hsearch as [Hmsg Hshort]. split; [done|]. split; [done|].
      pose proof (known_nodes tasks Hcheck). lia.
  - apply check_dependencies_raise in Hcheck
      as (task & dependency & Htask & Hdep & Hunknown & ->).
    left. split; [eauto|]. left. exists task, dependency. split; [done|]. split; [done|].
    intros Hin. apply Hunknown. by apply elem_of_list_to_set.
Qed.

(** The constructor accepts exactly the task lists whose graph is valid,
    unless Python's recursion limit stops the search for cycles. The graph
    is the dictionary [{task.name: task.depends_on}], which keeps, of
    tasks that share a name, the dependencies of the last: a circle that
    runs through an earlier task of a shared name is not seen. Given the
    number of calls of [dfs] that Python lets nest, the constructor
    returns or raises. When it returns, no [depends_on] names an unknown
    task, that graph has no cycle, and the component holds the arguments
    as given, with [None] for every declared output. When it raises, it
    raises [ComponentError], and the task list has an unknown dependency
    or that graph a cycle; or it raises [RecursionError], and then every
    dependency is known and there are more tasks than calls can be
    nested. *)
Theorem construction_accepts_exactly_valid_tasks (recursion_limit : nat)
    (kind : Component.kind) (name : string) (state : dict)
    (inputs outputs : list string) (tasks : list Task.t) :
  match Component.__init__ recursion_limit kind name state inputs outputs tasks with
  | Ok self =>
    ¬ unknown_dependency tasks ∧ ¬ has_cycle (Component.dependency_graph tasks) ∧
    self = constructed kind name state inputs outputs tasks ∧
    ∀ output, output ∈ outputs → Component.current_outputs self !! output = Some VNone
  | Raise e =>
    ((∃ msg, e = ComponentError msg) ∧
     (unknown_dependency tasks ∨ has_cycle (Component.dependency_graph tasks))) ∨
    ((∃ msg, e = RecursionError msg) ∧
     ¬ unknown_dependency tasks ∧ (recursion_limit < length tasks)%nat)
  end ∧
  (∀ n d : string,
     depends (Component.dependency_graph tasks) n d ↔ last_depends tasks n d).
Proof.
  split; [|intros n d; apply depends_last].
  pose proof (__init___spec recursion_limit kind name state inputs outputs tasks) as H.
  destruct (Component.__init__ _ _ _ _ _ _ _) as [self|e]; [|done].
  destruct H as (? & ? & ->). split; [done|]. split; [done|]. split; [done|].
  intros output. apply constructed_outputs.
Qed.

(** ** Task names used twice *)

Section distinct_keys.

Context {A V : Type} (key : A → string) (val : A → V).

Lemma keys_fold_set (xs : list A) (d : PyDict.t V) (k : string) :
  k ∈ PyDict.keys (fold_left (λ d x, PyDict.set d (key x) (val x)) xs d)
  ↔ k ∈ PyDict.keys d ∨ k ∈ map key xs.
Proof.
  revert d. induction xs as [|x xs IH]; intros d; simpl.
  - split; [by left|]. intros [?|H%elem_of_nil]; done.
  - rewrite IH, elem_of_cons.
    destruct (decide (key x ∈ PyDict.keys d)) as [Hin|Hin].
    + rewrite keys_set_in by done. split; [tauto|].
      intros [?|[->|?]]; tauto.
    + rewrite keys_set_notin by done. unfold PyDict.keys. rewrite map_app.
      simpl. rewrite elem_of_app, list_elem_of_singleton. tauto.
Qed.

Lemma keys_comprehension (xs : list A) (k : string) :
  k ∈ PyDict.keys (PyDict.comprehension key val xs) ↔ k ∈ map key xs.
Proof.
  unfold PyDict.comprehension. rewrite keys_fold_set. simpl.
  split; [by intros [H%elem_of_nil|?]|by right].
Qed.

(** A key used twice takes one place only. *)
Lemma comprehension_shorter (xs : list A) :
  ¬ NoDup (map key xs) →
  (length (PyDict.comprehension key val xs) < length xs)%nat.
Proof.
  intros Hdup.
  pose proof (keys_comprehension_nodup key val xs) as Hnd.
  assert (PyDict.keys (PyDict.comprehension key val xs) ⊆+ map key xs) as Hsub.
  { apply NoDup_submseteq; [done|]. intros k. apply keys_comprehension. }
  pose proof (submseteq_length _ _ Hsub) as Hle.
  unfold PyDict.keys in *. rewrite !length_map in Hle.
  destruct (decide (length (PyDict.comprehension key val xs) = length xs)) as [Heq|];
    [|lia].
  exfalso. apply Hdup.
  apply submseteq_length_Permutation in Hsub; [by rewrite <- Hsub|].
  rewrite !length_map. lia.
Qed.

End distinct_keys.

Section constant_values.

Context {A V : Type} (key : A → string) (c : V).

Lemma get_fold_constant (xs : list A) (d : PyDict.t V) (k : string) (v : V) :
  (∀ k v, PyDict.get d k = Some v → v = c) →
  PyDict.get (fold_left (λ d x, PyDict.set d (key x) c) xs d) k = Some v → v = c.
Proof.
  revert d. induction xs as [|x xs IH]; intros d Hd; simpl; [apply Hd|].
  apply IH. intros k' v'. rewrite get_set. destruct (decide _); [by intros [= <-]|apply Hd].
Qed.

Lemma get_comprehension_constant (xs : list A) (k : string) (v : V) :
  PyDict.get (PyDict.comprehension key (λ _, c) xs) k = Some v → v = c.
Proof. apply get_fold_constant. done. Qed.

End constant_values.

Section never_key_error.

Import Component.

Lemma for_neighbor_known (neighbors : list string) (in_degree : PyDict.t Z)
    (queue : list string) :
  (∀ n, n ∈ neighbors → n ∈ PyDict.keys in_degree) →
  ∃ in_degree' queue',
    for_neighbor neighbors in_degree queue = Ok (in_degree', queue') ∧
    PyDict.keys in_degree' = PyDict.keys in_degree ∧
    ∀ n, n ∈ queue' → n ∈ queue ∨ n ∈ neighbors.
Proof.
  revert in_degree queue. induction neighbors as [|x neighbors IH];
    intros in_degree queue Hknown; simpl.
  - exists in_degree, queue. split; [done|]. split; [done|]. by left.
  - destruct (keys_get in_degree x ltac:(apply Hknown; left)) as [v Hv].
    unfold PyDict.item. rewrite Hv. simpl.
    destruct (IH (PyDict.set in_degree x (v - 1))
                 (if (v - 1 =? 0)%Z then queue ++ [x] else queue))
      as (in_degree' & queue' & Hrun & Hk & Hq).
    { intros n Hn. rewrite keys_set_in by (by eapply get_Some_keys).
      apply Hknown. by right. }
    exists in_degree', queue'. split; [done|]. split.
    + rewrite Hk. apply keys_set_in. by eapply get_Some_keys.
    + intros n [Hn|Hn]%Hq; [|right; by right].
      destruct (v - 1 =? 0)%Z; [|by left].
      apply elem_of_app in Hn as [?|Hn%list_elem_of_singleton]; [by left|].
      subst n. right. left.
Qed.

Lemma while_queue_known (rounds : nat) (graph : PyDict.t Task.t)
    (adjacency : PyDict.t (list string)) (queue : list string)
    (in_degree : PyDict.t Z) (ordered_tasks : list Task.t) (e : exn) :
  (∀ n, n ∈ PyDict.keys in_degree → n ∈ PyDict.keys graph ∧ n ∈ PyDict.keys adjacency) →
  (∀ n neighbors m, PyDict.get adjacency n = Some neighbors → m ∈ neighbors →
                    m ∈ PyDict.keys in_degree) →
  (∀ n, n ∈ queue → n ∈ PyDict.keys in_degree) →
  while_queue rounds graph adjacency queue in_degree ordered_tasks ≠ Some (Raise e).
Proof.
  intros Hkeys Hadj. revert queue in_degree ordered_tasks Hkeys Hadj.
  induction rounds as [|rounds IH]; intros queue in_degree ordered_tasks Hkeys Hadj Hq.
  - by destruct queue.
  - destruct queue as [|current queue]; [done|]. cbn [while_queue].
    destruct (Hkeys current ltac:(apply Hq; left)) as [Hg Ha].
    destruct (keys_get graph current Hg) as [task Htask].
    destruct (keys_get adjacency current Ha) as [neighbors Hneighbors].
    unfold PyDict.item. rewrite Htask, Hneighbors. simpl.
    destruct (for_neighbor_known neighbors in_degree queue)
      as (in_degree' & queue' & Hrun & Hk & Hq'); [intros m Hm; by eapply Hadj|].
    rewrite Hrun. simpl. apply IH.
    + intros n Hn. apply Hkeys. by rewrite <- Hk.
    + intros n l m Hl Hm. rewrite Hk. by eapply Hadj.
    + intros n [Hn|Hn]%Hq'; rewrite Hk; [apply Hq; by right|by eapply Hadj].
Qed.

(** A turn of the loop orders one task. *)
Lemma while_queue_length (rounds : nat) (graph : PyDict.t Task.t)
    (adjacency : PyDict.t (list string)) (queue : list string)
    (in_degree : PyDict.t Z) (ordered_tasks order : list Task.t) :
  while_queue rounds graph adjacency queue in_degree ordered_tasks = Some (Ok order) →
  (length order ≤ length ordered_tasks + rounds)%nat.
Proof.
  revert queue in_degree ordered_tasks.
  induction rounds as [|rounds IH]; intros queue in_degree ordered_tasks.
  - destruct queue; [|done]. intros [= <-]. simpl. lia.
  - destruct queue as [|current queue]; [intros [= <-]; lia|]. cbn [while_queue].
    destruct (_ ≫= _) as [[[task in_degree'] queue']|]; [|done].
    intros Hrun%IH. rewrite length_app in Hrun. simpl in Hrun. lia.
Qed.

Lemma get_task_execution_order_duplicate (self : t) (order : list Task.t) :
  ¬ NoDup (map Task.name (tasks self)) →
  get_task_execution_order self ≠ Some (Ok order).
Proof.
  intros Hdup. unfold get_task_execution_order.
  destruct (for_task _ _ _) as [[in_degree adjacency]|] eqn:Hfirst; [|done].
  apply for_task_keys in Hfirst.
  destruct (while_queue _ _ _ _ _ _) as [[ordered|]|] eqn:Hloop; [|done..].
  apply while_queue_length in Hloop. simpl in Hloop.
  assert (length in_degree < length (tasks self))%nat as Hshort.
  { rewrite <- (length_map fst in_degree). fold (PyDict.keys in_degree).
    rewrite Hfirst. unfold PyDict.keys. rewrite length_map.
    by apply comprehension_shorter. }
  rewrite decide_True by lia. done.
Qed.

Lemma get_task_execution_order_known (self : t) (e : exn) :
  ¬ unknown_dependency (tasks self) →
  get_task_execution_order self = Some (Raise e) →
  e = ComponentError ("Failed to order tasks for component '" +:+ name self +:+ "'").
Proof.
  intros Hknown. unfold get_task_execution_order.
  assert (∀ V (val : Task.t → V) task, task ∈ tasks self →
            Task.name task ∈ PyDict.keys (PyDict.comprehension Task.name val (tasks self)))
    as Hname.
  { intros V val task Htask. apply keys_comprehension, list_elem_of_fmap. eauto. }
  destruct (for_task_spec (tasks self)
              (PyDict.comprehension Task.name (λ _, 0%Z) (tasks self))
              (PyDict.comprehension Task.name (λ _, @nil string) (tasks self)))
    as (in_degree & adjacency & Hrun & Hk1 & Hk2 & _ & Hg2).
  { intros. by apply Hname. }
  { intros task d Htask Hd. apply keys_comprehension.
    destruct (decide (d ∈ map Task.name (tasks self))) as [|Hno]; [done|].
    exfalso. apply Hknown. by exists task, d. }
  rewrite Hrun.
  destruct (while_queue _ _ _ _ _ _) as [[ordered|e']|] eqn:Hloop; [| |done].
  { destruct (decide _); [by intros [= <-]|done]. }
  exfalso. revert Hloop. apply while_queue_known.
  - intros n Hn. rewrite Hk1 in Hn. apply keys_comprehension in Hn.
    rewrite Hk2. split; by apply keys_comprehension.
  - intros n neighbors m Hget Hm. rewrite Hg2 in Hget.
    destruct (PyDict.get (PyDict.comprehension _ _ _) n) as [l|] eqn:Hl; [|done].
    apply get_comprehension_constant in Hl as ->. simpl in Hget.
    injection Hget as <-. apply elem_of_dependents, elem_of_task_edges in Hm
      as (task & Htask & <- & _).
    rewrite Hk1. by apply Hname.
  - intros n ([n' v] & -> & Hin%list_elem_of_filter)%list_elem_of_fmap.
    destruct Hin as [_ Hin]. apply list_elem_of_fmap. by exists (n', v).
Qed.

End never_key_error.

(** The constructor takes no notice of a task name used twice, and the
    round-based methods cannot order the tasks of such a component. For a
    task list with a name used twice: when every dependency is known, the
    graph [{task.name: task.depends_on}] has no cycle and Python lets
    [dfs] nest as many calls as there are tasks, the constructor returns
    the component; and on the component made of such a list every call of
    [get_task_execution_order] raises (with every dependency known:
    [ComponentError], failed to order), and so does every call of
    [execute_round], which leaves the component as it was. This is about
    [get_task_execution_order] and [execute_round] only; the event-driven
    executor calls neither. *)
Theorem duplicate_task_names_accepted_not_ordered (recursion_limit : nat)
    (kind : Component.kind) (name : string) (state : dict)
    (inputs outputs : list string) (tasks : list Task.t) :
  ¬ NoDup (map Task.name tasks) →
  let self := constructed kind name state inputs outputs tasks in
  (¬ unknown_dependency tasks → ¬ has_cycle (Component.dependency_graph tasks) →
   (length tasks ≤ recursion_limit)%nat →
   Component.__init__ recursion_limit kind name state inputs outputs tasks = Ok self) ∧
  (∃ e, Component.get_task_execution_order self = Some (Raise e)) ∧
  (¬ unknown_dependency tasks →
   Component.get_task_execution_order self
   = Some (Raise (ComponentError ("Failed to order tasks for component '"
                                   +:+ name +:+ "'")))) ∧
  (∀ input_values : dict,
     ∃ e, Component.execute_round input_values self
          = Some (self, input_values, Raise e)).
Proof.
  intros Hdup self. split.
  { intros Hknown Hacyclic Hlimit.
    pose proof (__init___spec recursion_limit kind name state inputs outputs tasks) as H.
    destruct (Component.__init__ _ _ _ _ _ _ _) as [self'|e].
    - by destruct H as (_ & _ & ->).
    - destruct H as [[_ [?|?]]|(_ & _ & ?)]; [done..|lia]. }
  pose proof (get_task_execution_order_duplicate self) as Hno.
  destruct (get_task_execution_order_total self) as [[order|e] Horder].
  { by destruct (Hno order Hdup). }
  split; [eauto|]. split.
  - intros Hknown. rewrite Horder.
    by rewrite (get_task_execution_order_known self e Hknown Horder).
  - intros input_values. unfold Component.execute_round. rewrite Horder.
    destruct (Component.component_type self);
      destruct (Component.missing_input _ _); eauto.
Qed.

Lemma duplicate_task_names_accepted_not_ordered_witness :
  let self := constructed Component.Synchronous "c" ∅ [] [] twin_tasks in
  Component.__init__ 2 Component.Synchronous "c" ∅ [] [] twin_tasks = Ok self ∧
  Component.get_task_execution_order self
  = Some (Raise (ComponentError "Failed to order tasks for component 'c'")) ∧
  (∀ input_values : dict,
     ∃ e, Component.execute_round input_values self
          = Some (self, input_values, Raise e)).
Proof.
  assert (¬ NoDup (map Task.name twin_tasks)) as Hdup.
  { simpl. intros Hnd. apply NoDup_cons in Hnd as [Hin _]. apply Hin. left. }
  assert (¬ unknown_dependency twin_tasks) as Hknown.
  { intros (task & dependency & Htask & Hdep & _).
    repeat (apply elem_of_cons in Htask as [->|Htask]; [by apply elem_of_nil in Hdep|]).
    by apply elem_of_nil in Htask. }
  destruct (duplicate_task_names_accepted_not_ordered 2 Component.Synchronous "c" ∅ [] []
              twin_tasks Hdup) as (Hbuilt & _ & Horder & Hround).
  split; [|split; [by apply Horder|exact Hround]].
  apply Hbuilt; [done| |simpl; lia].
  intros [n Hcycle]. apply tc_first_step in Hcycle as (d & Hd & _).
  apply depends_last in Hd as (task & Htask & Hd).
  apply (last_filter_elem (A:=Task.t)) in Htask as [Htask _].
  repeat (apply elem_of_cons in Htask as [->|Htask]; [by apply elem_of_nil in Hd|]).
  by apply elem_of_nil in Htask.
Defined.

(** ** Rounds *)

(** A round checks its inputs first. When a declared input is missing from
    [input_values], [execute_round] of a synchronous component raises
    [ComponentError] naming the first missing input in declared order, no
    task has run, and the component is as it was. *)
Theorem missing_input_stops_round (input_values : dict) (self : Component.t)
    (present : list string) (input_name : string) (rest : list string) :
  Component.component_type self = Component.Synchronous →
  Component.inputs self = present ++ input_name :: rest →
  (∀ n, n ∈ present → is_Some (input_values !! n)) →
  input_values !! input_name = None →
  Component.execute_round input_values self
  = Some (self, input_values,
          Raise (ComponentError ("Missing required input '" +:+ input_name +:+
                                 "' for component '" +:+ Component.name self +:+ "'"))).
Proof.
  intros Hkind Hinputs Hpresent Hmissing. unfold Component.execute_round.
  rewrite Hkind.
  assert (Component.missing_input (Component.inputs self) input_values = Some input_name)
    as ->; [|done].
  rewrite Hinputs. unfold Component.missing_input. clear Hinputs.
  induction present as [|n present IH]; simpl.
  - by rewrite Hmissing, bool_decide_eq_true_2.
  - destruct (Hpresent n ltac:(left)) as [v Hv]. rewrite Hv.
    rewrite bool_decide_eq_false_2 by done. apply IH. intros. apply Hpresent. by right.
Qed.

Lemma missing_input_stops_round_witness :
  Component.execute_round {[ "a" := VInt 1 ]}
    (Component.mk "c" ∅ ["a"; "b"; "d"] [] [] ∅ Component.Synchronous)
  = Some (Component.mk "c" ∅ ["a"; "b"; "d"] [] [] ∅ Component.Synchronous,
          {[ "a" := VInt 1 ]},
          Raise (ComponentError "Missing required input 'b' for component 'c'")).
Proof.
  apply (missing_input_stops_round {[ "a" := VInt 1 ]}
           (Component.mk "c" ∅ ["a"; "b"; "d"] [] [] ∅ Component.Synchronous)
           ["a"] "b" ["d"]); try reflexivity.
  intros n Hn. apply list_elem_of_singleton in Hn as ->. by eexists.
Defined.

(** A synchronous round is not undone when a task fails. The tasks run on
    the component's own dictionaries: when a task raises, the round raises
    [TaskError] naming it, and what the tasks before it and the failing
    task itself had written to the state and the outputs stays written. *)
Theorem failing_round_keeps_writes (input_values : dict) (self : Component.t)
    (before : list Task.t) (task : Task.t) (after : list Task.t)
    (reached : TaskContext.t) (e : exn) :
  Component.component_type self = Component.Synchronous →
  Component.missing_input (Component.inputs self) input_values = None →
  Component.get_task_execution_order self = Some (Ok (before ++ task :: after)) →
  Component.execute_tasks before (round_context input_values self) = (reached, Ok ()) →
  Task.raised (Task.compiled_code task reached None) = Some e →
  let left_behind := Task.after (Task.compiled_code task reached None) in
  Component.execute_round input_values self
  = Some (Component.set_state_outputs (TaskContext.state left_behind)
            (TaskContext.outputs left_behind) self,
          TaskContext.inputs left_behind,
          Raise (TaskError ("Error executing task '" +:+ Task.name task +:+ "': "
                            +:+ str e))).
Proof.
  intros Hkind Hinputs Horder Hbefore Hraise left_behind.
  unfold Component.execute_round. rewrite Hkind, Hinputs, Horder.
  fold (round_context input_values self).
  assert (Component.execute_tasks (before ++ task :: after)
            (round_context input_values self)
          = (left_behind,
             Raise (TaskError ("Error executing task '" +:+ Task.name task +:+ "': "
                               +:+ str e)))) as ->; [|done].
  clear Horder. revert Hbefore. generalize (round_context input_values self).
  induction before as [|t before IH]; intros context; simpl.
  - intros [= ->]. unfold Task.execute. by rewrite Hraise.
  - destruct (Task.execute t context) as [context' [[]|]]; [|done]. apply IH.
Qed.

Lemma failing_round_keeps_writes_witness :
  let half_done : Task.compiled := λ context _,
    Task.mkOutcome
      (TaskContext.mk (TaskContext.inputs context) (TaskContext.outputs context)
         (<["seen" := VBool true]> (TaskContext.state context)))
      [] (Some (UserError "late")) in
  let self := Component.mk "c" ∅ [] [] [Task.mk "t" half_done [] None None] ∅
                Component.Synchronous in
  Component.execute_round ∅ self
  = Some (Component.set_state_outputs {[ "seen" := VBool true ]} ∅ self, ∅,
          Raise (TaskError "Error executing task 't': late")).
Proof.
  intros half_done self.
  apply (failing_round_keeps_writes ∅ self [] (Task.mk "t" half_done [] None None) []
           (round_context ∅ self) (UserError "late")); reflexivity.
Defined.

Lemma execute_round_asynchronous (input_values : dict) (self : Component.t) :
  Component.component_type self = Component.Asynchronous →
  ∃ e, Component.execute_round input_values self = Some (self, input_values, Raise e) ∧
       ((is_Some (Component.missing_input (Component.inputs self) input_values) ∨
         ∃ order, Component.get_task_execution_order self = Some (Ok order)) →
        ∃ msg, e = NameError msg).
Proof.
  intros Hkind. unfold Component.execute_round. rewrite Hkind.
  destruct (Component.missing_input _ _) as [input_name|].
  - eexists. split; [done|]. eauto.
  - destruct (get_task_execution_order_total self) as [[order|e] ->].
    + eexists. split; [done|]. eauto.
    + exists e. split; [done|]. intros [[? [=]]|[order [=]]].
Qed.

(** [AsynchronousComponent.execute_round] never returns. Whatever the
    component and the input values, the call raises, having run no task and
    changed nothing: with an input missing [NameError] (the misspelt
    [CompnonentError]), otherwise what [get_task_execution_order] raises or
    [NameError] (the misspelt [ordered_task]). *)
Theorem asynchronous_round_always_raises (input_values : dict) (self : Component.t) :
  Component.component_type self = Component.Asynchronous →
  ∃ e, Component.execute_round input_values self = Some (self, input_values, Raise e) ∧
       ((is_Some (Component.missing_input (Component.inputs self) input_values) ∨
         ∃ order, Component.get_task_execution_order self = Some (Ok order)) →
        ∃ msg, e = NameError msg).
Proof. apply execute_round_asynchronous. Qed.

Lemma asynchronous_round_always_raises_witness :
  ∃ e, Component.execute_round ∅ pair_component = Some (pair_component, ∅, Raise e) ∧
       ((is_Some (Component.missing_input (Component.inputs pair_component) ∅) ∨
         ∃ order, Component.get_task_execution_order pair_component = Some (Ok order)) →
        ∃ msg, e = NameError msg).
Proof. apply (asynchronous_round_always_raises ∅ pair_component). reflexivity. Defined.

Section asynchronous_in_executor.

Import Executor.

Lemma while_asynchronous (fuel : nat) (self self' : t) (r : result ExecutionLog.t) :
  Component.component_type (component self) = Component.Asynchronous →
  while_not_terminated fuel self = Some (self', r) →
  log self' = log self ∧
  match r with
  | Ok _ => current_round self' = current_round self
  | Raise _ => True
  end.
Proof.
  intros Hkind. destruct fuel as [|fuel]; [done|]. cbn [while_not_terminated].
  destruct (TerminationCondition.should_terminate _ _ _ _ _) as [[]|];
    [by intros [= <- <-]| |by intros [= <- <-]].
  destruct (InputGenerator.generate _ _ _ _) as [[inputs|] generator];
    [|by intros [= <- <-]].
  destruct (if track_task_order _ then _ else _) as [[task_order|]|];
    [|by intros [= <- <-]|done].
  destruct (execute_round_asynchronous inputs
              (component (set_input_generator generator
                 (set_log_round (log self) (current_round self + 1) self))) Hkind)
    as (e & -> & _).
  by intros [= <- <-].
Qed.

End asynchronous_in_executor.

(** The round-based executor cannot complete a round of an asynchronous
    component: when [run] returns on one, the log is empty and no round was
    begun (the condition held before the first round); otherwise [run]
    raises with an empty log. *)
Theorem asynchronous_component_logs_nothing (fuel : nat) (self self' : Executor.t)
    (r : result ExecutionLog.t) :
  Component.component_type (Executor.component self) = Component.Asynchronous →
  Executor.run fuel self = Some (self', r) →
  Executor.log self' = ExecutionLog.__init__ ∧
  match r with
  | Ok returned => returned = ExecutionLog.__init__ ∧ Executor.current_round self' = 0
  | Raise _ => True
  end.
Proof.
  intros Hkind Hrun. unfold Executor.run in Hrun.
  pose proof Hrun as Hlog.
  apply while_asynchronous in Hrun as [Hl Hr]; [|done].
  split; [done|]. destruct r as [returned|e]; [|done].
  apply while_not_terminated_log in Hlog as (_ & _ & _ & -> & _); [|done..].
  done.
Qed.

Lemma asynchronous_component_logs_nothing_witness :
  ∃ (self' : Executor.t) (r : result ExecutionLog.t),
    Executor.run 2
      (Executor.__init__ pair_component (InputGenerator.FixedInputGenerator [∅])
         (TerminationCondition.MaxRoundsCondition 1) false) = Some (self', r) ∧
    Executor.log self' = ExecutionLog.__init__.
Proof.
  destruct (Executor.run 2
              (Executor.__init__ pair_component (InputGenerator.FixedInputGenerator [∅])
                 (TerminationCondition.MaxRoundsCondition 1) false))
    as [[self' r]|] eqn:E.
  - exists self', r. split; [reflexivity|].
    exact (proj1 (asynchronous_component_logs_nothing 2
                    (Executor.__init__ pair_component
                       (InputGenerator.FixedInputGenerator [∅])
                       (TerminationCondition.MaxRoundsCondition 1) false)
                    self' r eq_refl E)).
  - vm_compute in E. discriminate.
Defined.

(** * Further properties: event-driven executor *)

Section frame.

Import EventDrivenExecutor.

Lemma same_task_refl (task : Task.t) : same_task task task.
Proof. by repeat split. Qed.

Lemma same_task_trans (a b c : Task.t) : same_task a b → same_task b c → same_task a c.
Proof.
  intros (? & ? & ? & ? & ?) (? & ? & ? & ? & ?).
  repeat split; try congruence; tauto.
Qed.

Lemma same_tasks_refl (tasks : list Task.t) : Forall2 same_task tasks tasks.
Proof. induction tasks; constructor; auto using same_task_refl. Qed.

Lemma same_tasks_trans (a b c : list Task.t) :
  Forall2 same_task a b → Forall2 same_task b c → Forall2 same_task a c.
Proof.
  intros Hab. revert c. induction Hab as [|x y a b Hxy Hab IH]; intros c Hbc.
  - by inversion Hbc.
  - inversion Hbc as [|y' z b' c' Hyz Hbc']; subst. constructor; [|by apply IH].
    by eapply same_task_trans.
Qed.

Lemma within_event_refl (self : t) : within_event self self.
Proof. split; try done. apply same_tasks_refl. Qed.

Lemma within_event_trans (a b c : t) :
  within_event a b → within_event b c → within_event a c.
Proof.
  intros [Ht Hc Hl Hk Hr Ho Hi Hts] [Ht' Hc' Hl' Hk' Hr' Ho' Hi' Hts'].
  split.
  - by rewrite Ht'.
  - by rewrite Hc'.
  - by rewrite Hl'.
  - by rewrite Hk'.
  - by etransitivity.
  - by etransitivity.
  - by etransitivity.
  - by eapply same_tasks_trans.
Qed.

Lemma within_event_queue (q : EventQueue.t) (self : t) :
  within_event self (set_event_queue q self).
Proof. split; try done. apply same_tasks_refl. Qed.

Lemma within_event_push (event : Event.t) (self : t) :
  within_event self (push_event event self).
Proof. apply within_event_queue. Qed.

Lemma within_event_merge_state (context : TaskContext.t) (self : t) :
  within_event self (merge_state context self).
Proof. split; try done; simpl. apply same_tasks_refl. Qed.

Lemma within_event_merge_outputs (context : TaskContext.t) (self : t) :
  within_event self (merge_outputs context self).
Proof.
  split; try done; simpl.
  - unfold update. rewrite dom_union. set_solver.
  - apply same_tasks_refl.
Qed.

Lemma within_event_schedule (pending_events : list PendingEvent) (source_task : string)
    (self : t) :
  within_event self (_schedule_pending_events pending_events source_task self).
Proof.
  unfold _schedule_pending_events. revert self.
  induction pending_events as [|pending pending_events IH]; intros self; simpl.
  - apply within_event_refl.
  - eapply within_event_trans; [|apply IH]. apply within_event_push.
Qed.

Lemma within_event_execute_task (task : Task.t) (event : option Event.t) (self : t) :
  within_event self (_execute_task task event self).1.
Proof.
  unfold _execute_task. destruct (Task.raised _); simpl.
  - apply within_event_refl.
  - eapply within_event_trans; [apply within_event_merge_state|].
    apply within_event_merge_outputs.
Qed.

Lemma within_event_step (tasks : list Task.t) (event : Event.t) (p : pool) (i : nat) :
  within_event (executor p) (executor (step tasks event p i)).
Proof.
  unfold step. destruct (tasks !! i) as [task|]; [|apply within_event_refl].
  destruct (workers p !! i) as [[]|]; simpl; try apply within_event_refl.
  - destruct (Task.raised _); apply within_event_refl.
  - apply within_event_merge_state.
  - apply within_event_merge_outputs.
Qed.

Lemma within_event_interleave (tasks : list Task.t) (event : Event.t)
    (schedule : list nat) (p : pool) :
  within_event (executor p) (executor (interleave tasks event schedule p)).
Proof.
  unfold interleave. revert p.
  induction schedule as [|i schedule IH]; intros p; simpl.
  - apply within_event_refl.
  - eapply within_event_trans; [|apply IH]. apply within_event_step.
Qed.

Lemma within_event_parallel (schedule : list nat) (tasks : list Task.t)
    (event : Event.t) (self : t) :
  within_event self (_execute_tasks_parallel schedule tasks event self).1.
Proof.
  unfold _execute_tasks_parallel.
  destruct tasks as [|task [|task' tasks]].
  - apply within_event_refl.
  - pose proof (within_event_execute_task task (Some event) self) as H.
    destruct (_execute_task task (Some event) self) as [self' [pending|e]]; simpl in *.
    + eapply within_event_trans; [exact H|]. apply within_event_schedule.
    + done.
  - destruct (from_option _ _ _); [apply within_event_refl|].
    set (p := join _ _ _).
    assert (within_event self (executor p)) as Hp.
    { unfold p, join. eapply within_event_trans; [|apply within_event_interleave].
      apply (within_event_interleave _ _ _ (mkPool self _ [] [])). }
    destruct (error_queue p) as [|[task_name error] ?]; simpl; [|done].
    eapply within_event_trans; [exact Hp|].
    generalize (executor p). induction (all_pending_events p) as [|[n l] rest IH];
      intros self'; simpl.
    + apply within_event_refl.
    + eapply within_event_trans; [|apply IH]. apply within_event_schedule.
Qed.

Lemma within_event_generate (self : t) :
  within_event self (_generate_and_emit_input self).1.
Proof.
  unfold _generate_and_emit_input.
  destruct (input_generator self) as [generator|]; [|apply within_event_refl].
  destruct (InputGenerator.generate _ _ _ _) as [[new_inputs|e] generator'] eqn:E.
  - clear E.
    assert (within_event self
              (set_initial_inputs (update (initial_inputs self) new_inputs)
                 (set_input_generator (Some generator')
                    (set_input_round (input_round self + 1) self)))) as H.
    { split; try done; simpl.
      - lia.
      - unfold update. rewrite dom_union. set_solver.
      - apply same_tasks_refl. }
    destruct (interval_set _); cbn [fst].
    + eapply within_event_trans; [exact H|].
      eapply within_event_trans; [|apply within_event_push]. apply within_event_push.
    + eapply within_event_trans; [exact H|]. apply within_event_push.
  - cbn [fst]. split; try done; simpl; [lia|apply same_tasks_refl].
Qed.

(** *** Task selection *)

Lemma select_task_spec (event : Event.t) (state : dict) (now : Q) (task : Task.t)
    (queue : EventQueue.t) :
  let '(task', should_run, queue') := select_task event state now task queue in
  same_task task task' ∧
  should_run = trigger_fires event state now task && guard_passes task state now ∧
  queued queue'
  = queued queue ++ option_list (next_run now task).
Proof.
  unfold select_task, trigger_fires, next_run, guard_passes.
  destruct (Task.trigger task) as [trigger|] eqn:Ht;
    [|by rewrite app_nil_r; repeat split; try done; rewrite Ht].
  destruct trigger as [interval last| name | cond was | has_run]; simpl.
  - destruct (Trigger.period_elapsed now interval last); simpl.
    + split; [by repeat split; simpl; try done; rewrite Ht|]. split; [done|].
      unfold queued. simpl. unfold EventQueue.heappush. by rewrite map_app.
    + split; [by repeat split; simpl; try done; rewrite Ht|]. split; [done|].
      by rewrite app_nil_r.
  - split; [by repeat split; simpl; try done; rewrite Ht|]. split; [done|].
    by rewrite app_nil_r.
  - destruct (cond state now); simpl.
    + split; [by repeat split; simpl; try done; rewrite Ht|]. split; [done|].
      by rewrite app_nil_r.
    + split; [by repeat split; simpl; try done; rewrite Ht|]. split; [done|].
      by rewrite app_nil_r.
  - destruct has_run; simpl.
    + split; [by repeat split; simpl; try done; rewrite Ht|]. split; [done|].
      by rewrite app_nil_r.
    + split; [by repeat split; simpl; try done; rewrite Ht|]. split; [done|].
      by rewrite app_nil_r.
Qed.

Lemma select_tasks_spec (event : Event.t) (state : dict) (now : Q)
    (tasks : list Task.t) (queue : EventQueue.t) :
  let '(tasks', activated, queue') := select_tasks event state now tasks queue in
  Forall2 same_task tasks tasks' ∧
  activated `sublist_of` tasks' ∧
  map Task.name activated
  = map Task.name
      (filter (λ task, trigger_fires event state now task
                       && guard_passes task state now = true) tasks) ∧
  Forall (λ task, Task.trigger task ≠ None) activated ∧
  queued queue' = queued queue ++ omap (next_run now) tasks.
Proof.
  revert queue. induction tasks as [|task tasks IH]; intros queue; simpl.
  - split; [constructor|]. split; [constructor|]. split; [done|].
    split; [constructor|]. by rewrite app_nil_r.
  - pose proof (select_task_spec event state now task queue) as Hone.
    destruct (select_task event state now task queue) as [[task' should_run] queue1].
    destruct Hone as (Hsame & Hrun & Hq1).
    specialize (IH queue1).
    destruct (select_tasks event state now tasks queue1) as [[tasks' activated] queue'].
    destruct IH as (Hall & Hsub & Hnames & Htrig & Hq).
    split; [by constructor|]. rewrite filter_cons, <- Hrun.
    split; [|split; [|split]].
    + destruct should_run; [by apply sublist_skip|by apply sublist_cons].
    + destruct should_run.
      * rewrite decide_True by done. simpl. f_equal; [|done].
        symmetry. apply Hsame.
      * rewrite decide_False by done. done.
    + destruct should_run; [|done]. constructor; [|done].
      destruct Hsame as (_ & _ & _ & _ & Hnone). intros Hno%Hnone.
      unfold trigger_fires in Hrun. by rewrite Hno in Hrun.
    + rewrite Hq, Hq1, <- app_assoc. f_equal.
      by destruct (next_run now task).
Qed.



Lemma within_event_activated (event : Event.t) (self : t) :
  within_event self (_get_activated_tasks event self).2.
Proof.
  unfold _get_activated_tasks.
  pose proof (select_tasks_spec event (Component.state (component self))
                (current_time self) (Component.tasks (component self))
                (event_queue self)) as H.
  destruct (select_tasks _ _ _ _ _) as [[tasks' activated] queue'].
  destruct H as (Hall & _). simpl. by split.
Qed.

(** *** What [run] pushes before the loop *)

Lemma queued_push_all (events : list Event.t) (q : EventQueue.t) :
  queued (EventQueue.push_all events q) = queued q ++ events.
Proof.
  revert q. induction events as [|e events IH]; intros q; simpl.
  - by rewrite app_nil_r.
  - rewrite IH. unfold queued at 1. simpl. unfold EventQueue.heappush.
    by rewrite map_app, <- app_assoc.
Qed.

Lemma push_all_app (a b : list Event.t) (q : EventQueue.t) :
  EventQueue.push_all (a ++ b) q = EventQueue.push_all b (EventQueue.push_all a q).
Proof. apply fold_left_app. Qed.

Lemma is_empty_queued (q : EventQueue.t) :
  EventQueue.is_empty q = match queued q with [] => true | _ => false end.
Proof. unfold EventQueue.is_empty, queued. by destruct (EventQueue._queue q). Qed.

Lemma schedule_periodic_fold (tasks : list Task.t) (self : t) :
  fold_left
    (λ self task,
       match Task.trigger task with
       | Some trigger =>
         if Trigger.is_periodic trigger
         then push_event (periodic_event 0 task) self
         else self
       | None => self
       end) tasks self
  = set_event_queue
      (EventQueue.push_all
         (map (periodic_event 0)
            (filter (λ task, from_option Trigger.is_periodic false (Task.trigger task)
                             = true) tasks))
         (event_queue self)) self.
Proof.
  revert self. induction tasks as [|task tasks IH]; intros self; simpl.
  - by destruct self.
  - rewrite IH, filter_cons.
    destruct (decide (from_option Trigger.is_periodic false (Task.trigger task) = true))
      as [Hp|Hp]; destruct (Task.trigger task) as [trigger|]; simpl in *; try done.
    + by rewrite Hp.
    + by destruct (Trigger.is_periodic trigger).
Qed.

Lemma seeded_start (events : list Event.t) (self : t) :
  (let self' := set_event_queue (EventQueue.push_all events (event_queue self)) self in
   if EventQueue.is_empty (event_queue self')
   then push_event (Event.mk 0 "start" 0 ∅ None) self'
   else self')
  = set_event_queue
      (EventQueue.push_all
         (match queued (event_queue self) ++ events with
          | [] => [Event.mk 0 "start" 0 ∅ None]
          | _ => events
          end) (event_queue self)) self.
Proof.
  cbv zeta. cbn [event_queue set_event_queue]. rewrite is_empty_queued, queued_push_all.
  destruct (queued (event_queue self) ++ events) as [|e l] eqn:E; [|done].
  by apply app_eq_nil in E as [_ ->].
Qed.

Lemma run_seeded (fuel : nat) (schedules : Z → list nat) (self : t) :
  run fuel schedules self = while_not_terminated fuel schedules (seeded self).
Proof.
  unfold run. f_equal. unfold _schedule_periodic_tasks. rewrite schedule_periodic_fold.
  unfold seeded, seed_events. cbv zeta. set (periodic := map _ (filter _ _)).
  rewrite <- seeded_start. cbv zeta.
  match goal with
  | |- (if EventQueue.is_empty (event_queue ?a) then _ else _)
       = (if EventQueue.is_empty (event_queue ?b) then _ else _) =>
    assert (a = b) as ->; [|done]
  end.
  rewrite push_all_app. unfold _schedule_input_generation.
  change (input_generator (set_event_queue _ self)) with (input_generator self).
  change (input_interval (set_event_queue _ self)) with (input_interval self).
  destruct (input_generator self); [|reflexivity].
  destruct (interval_set _); reflexivity.
Qed.

Lemma within_event_seeded (self : t) : within_event self (seeded self).
Proof. apply within_event_queue. Qed.

Lemma seed_events_time (self : t) :
  Forall (λ event, Event.time event = 0%Q) (seed_events self).
Proof.
  unfold seed_events. cbv zeta. destruct (_ ++ _ ++ _); [by repeat constructor|].
  apply Forall_app. split.
  - apply Forall_fmap, Forall_forall. done.
  - destruct (input_generator self); [|done].
    destruct (interval_set _); by repeat constructor.
Qed.

(** *** The loop *)

Lemma advance_to_ok (new_time : Q) (clock now : SimulationTime.t) :
  SimulationTime.advance_to new_time clock = Ok now →
  (SimulationTime.current_time clock <= SimulationTime.current_time now)%Q ∧
  SimulationTime.current_time now = new_time ∧
  SimulationTime.start_time now = SimulationTime.start_time clock.
Proof.
  unfold SimulationTime.advance_to. destruct (Qlt_le_dec _ _); [done|].
  by intros [= <-].
Qed.

Section loop_invariant.

Context (P : t → Prop).
Hypothesis P_queue : ∀ self queue, P self → P (set_event_queue queue self).
Hypothesis P_event : ∀ self now mid,
  P self →
  (current_time self <= SimulationTime.current_time now)%Q →
  SimulationTime.start_time now = SimulationTime.start_time (sim_time self) →
  within_event (set_event_count (event_count self + 1) (set_sim_time now self)) mid →
  P mid ∧
  ∀ inputs outputs state task_order,
    P (set_log (ExecutionLog.add_round (event_count mid) inputs outputs state
                  task_order (log mid)) mid).

Lemma while_invariant (fuel : nat) (schedules : Z → list nat) (self self' : t)
    (r : result ExecutionLog.t) :
  P self →
  while_not_terminated fuel schedules self = Some (self', r) →
  P self' ∧
  match r with
  | Ok returned =>
    returned = log self' ∧
    (_should_terminate self' = Ok true ∨ queued (event_queue self') = [])
  | Raise _ => True
  end.
Proof.
  revert self. induction fuel as [|fuel IH]; intros self HP Hrun; [done|].
  cbn [while_not_terminated] in Hrun.
  destruct (_should_terminate self) as [[]|e] eqn:Hstop;
    [injection Hrun as <- <-; auto| |by injection Hrun as <- <-].
  destruct (EventQueue.pop (event_queue self)) as [[event|] queue] eqn:Hpop.
  2:{ injection Hrun as <- <-. split; [done|]. split; [done|]. right.
      unfold EventQueue.pop in Hpop.
      destruct (EventQueue.pop_entry (event_queue self)) as [[x|] q'] eqn:E;
        [done|].
      apply pop_entry_none in E. unfold queued. by rewrite E. }
  pose proof (P_queue self queue HP) as HP1.
  destruct (SimulationTime.advance_to _ _) as [now|e] eqn:Hadv;
    [|by injection Hrun as <- <-].
  apply advance_to_ok in Hadv as (Hle & _ & Hstart).
  pose proof (P_event (set_event_queue queue self) now) as Hstep.
  destruct (decide (Event.name event = "_generate_input")).
  - match type of Hrun with
    | context [_generate_and_emit_input ?s] =>
      pose proof (within_event_generate s) as Hmid;
        destruct (_generate_and_emit_input s) as [mid [[]|e']]
    end; simpl in Hmid.
    + eapply IH; [|exact Hrun]. by apply (Hstep mid).
    + injection Hrun as <- <-. split; [|done]. by apply (Hstep mid).
  - match type of Hrun with
    | context [_get_activated_tasks event ?s] =>
      pose proof (within_event_activated event s) as Hact;
        destruct (_get_activated_tasks event s) as [activated s4]
    end; simpl in Hact.
    match type of Hrun with
    | context [_execute_tasks_parallel ?sched activated event s4] =>
      pose proof (within_event_parallel sched activated event s4) as Hpar;
        destruct (_execute_tasks_parallel sched activated event s4) as [mid [[]|e']]
    end; simpl in Hpar.
    + eapply IH; [|exact Hrun]. apply (Hstep mid); try done.
      by eapply within_event_trans.
    + injection Hrun as <- <-. split; [|done]. apply (Hstep mid); try done.
      by eapply within_event_trans.
Qed.

End loop_invariant.

Lemma moved_forward_refl (self : t) : moved_forward self self.
Proof. split; try done; try apply Qle_refl. apply same_tasks_refl. Qed.

Lemma moved_forward_within (a b c : t) :
  moved_forward a b → within_event b c → moved_forward a c.
Proof.
  intros [Ht Hs Hc Hr Hl Ho Hi Hts Hk] [Ht' Hc' Hl' Hk' Hr' Ho' Hi' Hts'].
  split.
  - unfold current_time. by rewrite Ht'.
  - by rewrite Ht'.
  - by rewrite Hc'.
  - by etransitivity.
  - by rewrite Hl'.
  - by etransitivity.
  - by etransitivity.
  - by eapply same_tasks_trans.
  - by rewrite Hk'.
Qed.

Lemma while_moved_forward (fuel : nat) (schedules : Z → list nat) (a self self' : t)
    (r : result ExecutionLog.t) :
  moved_forward a self →
  while_not_terminated fuel schedules self = Some (self', r) →
  moved_forward a self' ∧
  match r with
  | Ok returned =>
    returned = log self' ∧
    (_should_terminate self' = Ok true ∨ queued (event_queue self') = [])
  | Raise _ => True
  end.
Proof.
  apply (while_invariant (moved_forward a)).
  - intros s queue Hs. eapply moved_forward_within; [exact Hs|].
    apply within_event_queue.
  - intros s now mid [Ht Hs Hc Hr Hl Ho Hi Hts Hk] Hle Hstart
      [Ht' Hc' Hl' Hk' Hr' Ho' Hi' Hts'].
    simpl in *.
    assert (moved_forward a mid) as Hmid.
    { split.
      - unfold current_time. rewrite Ht'. simpl. by eapply Qle_trans.
      - rewrite Ht'. simpl. by rewrite Hstart.
      - rewrite Hc'. lia.
      - by etransitivity.
      - by rewrite Hl'.
      - by etransitivity.
      - by etransitivity.
      - by eapply same_tasks_trans.
      - by rewrite Hk'. }
    split; [done|]. intros inputs outputs state task_order.
    destruct Hmid as [Mt Ms Mc Mr Ml Mo Mi Mts Mk]. split; try done.
    simpl. etransitivity; [exact Ml|]. by apply prefix_app_r.
Qed.

Lemma sorted_snoc (l : list Z) (n : Z) :
  StronglySorted Z.lt l → Forall (λ m, m < n) l → StronglySorted Z.lt (l ++ [n]).
Proof.
  induction 1 as [|m l Hl IH Hm]; intros Hn; simpl.
  - repeat constructor.
  - apply Forall_cons in Hn as [Hmn Hn]. constructor; [by apply IH|].
    apply Forall_app. split; [done|]. by repeat constructor.
Qed.

Lemma while_numbered (fuel : nat) (schedules : Z → list nat) (self self' : t)
    (r : result ExecutionLog.t) :
  numbered_by_events self →
  while_not_terminated fuel schedules self = Some (self', r) →
  numbered_by_events self' ∧
  match r with
  | Ok returned =>
    returned = log self' ∧
    (_should_terminate self' = Ok true ∨ queued (event_queue self') = [])
  | Raise _ => True
  end.
Proof.
  apply (while_invariant numbered_by_events).
  - done.
  - intros s now mid (Hcount & Hsorted & Hbound) _ _ [_ Hc Hl _ _ _ _ _].
    simpl in *. unfold numbered_by_events, round_numbers in *. rewrite Hl, Hc.
    assert (Forall (λ n, 1 ≤ n ≤ event_count s + 1)
              (map RoundRecord.round_number (ExecutionLog.rounds (log s)))) as Hbound'.
    { eapply Forall_impl; [exact Hbound|]. intros n Hn. simpl in Hn. lia. }
    split.
    + split; [lia|]. by split.
    + intros inputs outputs state task_order. simpl. rewrite ?Hc, ?Hl, map_app.
      simpl. split; [lia|]. split.
      * apply sorted_snoc; [done|]. eapply Forall_impl; [exact Hbound|].
        intros n Hn. simpl in Hn. lia.
      * apply Forall_app. split; [done|]. repeat constructor; lia.
Qed.

Lemma while_max_events (max_events : Z) (fuel : nat) (schedules : Z → list nat)
    (self : t) :
  termination_condition self = TerminationCondition.MaxEventsCondition max_events →
  (Z.to_nat (max_events - event_count self) < fuel)%nat →
  ∃ self' r,
    while_not_terminated fuel schedules self = Some (self', r) ∧
    event_count self' ≤ Z.max max_events (event_count self).
Proof.
  revert self. induction fuel as [|fuel IH]; intros self Hcond Hfuel; [lia|].
  cbn [while_not_terminated]. unfold _should_terminate. rewrite Hcond. simpl.
  destruct (Z.leb_spec max_events (event_count self)) as [Hle|Hlt].
  { eexists _, _. split; [done|]. lia. }
  destruct (EventQueue.pop (event_queue self)) as [[event|] queue];
    [|eexists _, _; split; [done|lia]].
  destruct (SimulationTime.advance_to _ _) as [now|e];
    [|eexists _, _; split; [done|simpl; lia]].
  assert (∀ mid,
            within_event
              (set_event_count (event_count (set_event_queue queue self) + 1)
                 (set_sim_time now (set_event_queue queue self))) mid →
            termination_condition mid
            = TerminationCondition.MaxEventsCondition max_events ∧
            event_count mid = event_count self + 1) as Hmid.
  { intros mid [_ Hc _ Hk _ _ _ _]. simpl in *. by rewrite Hk, Hc. }
  assert (∀ mid,
            termination_condition mid
            = TerminationCondition.MaxEventsCondition max_events →
            event_count mid = event_count self + 1 →
            ∃ self' r,
              while_not_terminated fuel schedules mid = Some (self', r) ∧
              event_count self' ≤ Z.max max_events (event_count self)) as Hnext.
  { intros mid Hk Hc. destruct (IH mid Hk) as (self' & r & Hrun & Hbound); [lia|].
    exists self', r. split; [done|]. lia. }
  destruct (decide (Event.name event = "_generate_input")).
  - match goal with
    | |- context [_generate_and_emit_input ?s] =>
      pose proof (within_event_generate s) as Hw;
        destruct (_generate_and_emit_input s) as [mid [[]|e']]
    end; simpl in Hw; apply Hmid in Hw as [Hk Hc].
    + by apply Hnext.
    + eexists _, _. split; [done|]. lia.
  - match goal with
    | |- context [_get_activated_tasks event ?s] =>
      pose proof (within_event_activated event s) as Hact;
        destruct (_get_activated_tasks event s) as [activated s4]
    end; simpl in Hact.
    match goal with
    | |- context [_execute_tasks_parallel ?sched activated event s4] =>
      pose proof (within_event_parallel sched activated event s4) as Hpar;
        destruct (_execute_tasks_parallel sched activated event s4) as [mid [[]|e']]
    end; simpl in Hpar;
      pose proof (within_event_trans _ _ _ Hact Hpar) as Hw;
      apply Hmid in Hw as [Hk Hc].
    + by apply Hnext.
    + eexists _, _. split; [done|]. lia.
Qed.

(** *** Scheduling what a task emitted *)

Lemma schedule_pending_queued (pending_events : list PendingEvent)
    (source_task : string) (self : t) :
  queued (event_queue (_schedule_pending_events pending_events source_task self))
  = queued (event_queue self) ++
    map (λ pending,
           Event.mk (current_time self + pe_delay pending) (pe_name pending)
             (pe_priority pending) (pe_data pending) (Some source_task))
        pending_events.
Proof.
  unfold _schedule_pending_events. revert self.
  induction pending_events as [|pending pending_events IH]; intros self; simpl.
  - by rewrite app_nil_r.
  - rewrite IH. unfold queued at 1. simpl. unfold EventQueue.heappush.
    rewrite map_app, <- app_assoc. done.
Qed.

Lemma schedule_emitted_queued (calls : list EmitCall) (source_task : string)
    (self : t) :
  queued (event_queue (_schedule_pending_events (pending_of calls) source_task self))
  = queued (event_queue self) ++
    map (emitted_event (current_time self) source_task) calls.
Proof.
  rewrite schedule_pending_queued. f_equal. unfold pending_of. simpl.
  pose proof (emit_all_pending calls EventEmitter.__init__) as H.
  unfold emit_all in H. rewrite H. simpl. by rewrite map_map.
Qed.

Lemma schedule_pending_component (pending_events : list PendingEvent)
    (source_task : string) (self : t) :
  component (_schedule_pending_events pending_events source_task self) = component self.
Proof.
  unfold _schedule_pending_events. revert self.
  induction pending_events as [|pending pending_events IH]; intros self; simpl; [done|].
  by rewrite IH.
Qed.

End frame.


(** A periodic task that is due schedules its next run itself. For every
    task with a [PeriodicTrigger] whose interval has elapsed,
    [_get_activated_tasks] pushes one event [periodic_<name>] at the current
    time plus the interval, with the data [{'task': name}] and priority 0;
    it does so before it looks at the guard of the task, so also when the
    guard keeps the task from running. The events are pushed in the order
    of the tasks, and nothing else is pushed or removed. *)
Theorem due_periodic_task_schedules_next_run (event : Event.t)
    (self : EventDrivenExecutor.t) :
  let now := EventDrivenExecutor.current_time self in
  let tasks := Component.tasks (EventDrivenExecutor.component self) in
  let self' := (EventDrivenExecutor._get_activated_tasks event self).2 in
  queued (EventDrivenExecutor.event_queue self')
  = queued (EventDrivenExecutor.event_queue self) ++ omap (next_run now) tasks.
Proof.
  intros now tasks self'. subst self'.
  unfold EventDrivenExecutor._get_activated_tasks.
  pose proof (select_tasks_spec event
                (Component.state (EventDrivenExecutor.component self)) now tasks
                (EventDrivenExecutor.event_queue self)) as H.
  fold now tasks.
  destruct (EventDrivenExecutor.select_tasks _ _ _ _ _) as [[tasks' activated] queue'].
  by destruct H as (_ & _ & _ & _ & Hq).
Qed.

(** An event that activates one task runs it on the dispatching thread:
    the interleaving of the pool plays no part. When the body returns, what
    it left in its state and outputs is merged into the component's, and
    each event it emitted is queued, in the order of the calls, at the
    current time plus its delay, with the task as its source. When the body
    raises, the call raises [TaskError] and the executor is as it was: the
    writes of the body are lost and none of its events is queued. *)
Theorem lone_task_runs_without_pool (schedule : list nat) (task : Task.t)
    (event : Event.t) (self : EventDrivenExecutor.t) :
  let out :=
    EventDrivenExecutor.exec_body task (Some event) self
      (EventDrivenExecutor.copy_context self) in
  let result := EventDrivenExecutor._execute_tasks_parallel schedule [task] event self in
  match Task.raised out with
  | None =>
    result.2 = Ok () ∧
    queued (EventDrivenExecutor.event_queue result.1)
    = queued (EventDrivenExecutor.event_queue self) ++
      map (emitted_event (EventDrivenExecutor.current_time self) (Task.name task))
          (Task.emitted out) ∧
    Component.state (EventDrivenExecutor.component result.1)
    = update (Component.state (EventDrivenExecutor.component self))
             (TaskContext.state (Task.after out)) ∧
    Component.current_outputs (EventDrivenExecutor.component result.1)
    = update (Component.current_outputs (EventDrivenExecutor.component self))
             (TaskContext.outputs (Task.after out))
  | Some e =>
    result = (self, Raise (TaskError ("Error executing task '" +:+ Task.name task +:+
                                      "': " +:+ str e)))
  end.
Proof.
  intros out result. subst result.
  unfold EventDrivenExecutor._execute_tasks_parallel, EventDrivenExecutor._execute_task.
  fold out. destruct (Task.raised out) as [e|]; [done|]. cbn [fst snd].
  split; [done|]. rewrite schedule_emitted_queued, schedule_pending_component.
  done.
Qed.



(** The log of the event-driven executor is numbered by the events. Each
    record carries the count of the event it was written for, so the
    numbers of the records increase strictly and none exceeds the count of
    events handled; they need not be consecutive, since an event
    [_generate_input] is counted and not recorded. This holds after every
    run, returning or raising, of an executor for which it held before, as
    it does for a new one. *)
Theorem event_log_is_numbered_by_events (fuel : nat) (schedules : Z → list nat)
    (self self' : EventDrivenExecutor.t) (r : result ExecutionLog.t) :
  numbered_by_events self →
  EventDrivenExecutor.run fuel schedules self = Some (self', r) →
  numbered_by_events self'.
Proof.
  rewrite run_seeded. intros Hnum Hrun.
  eapply (while_numbered fuel schedules (seeded self) self' r); [exact Hnum|exact Hrun].
Qed.

Lemma event_log_is_numbered_by_events_witness :
  ∃ (self' : EventDrivenExecutor.t) (r : result ExecutionLog.t),
    EventDrivenExecutor.run 4 (λ _, []) ticking_executor = Some (self', r) ∧
    numbered_by_events self'.
Proof.
  destruct (EventDrivenExecutor.run 4 (λ _, []) ticking_executor) as [[self' r]|] eqn:E.
  - exists self', r. split; [reflexivity|].
    refine (event_log_is_numbered_by_events 4 (λ _, []) ticking_executor self' r _ E).
    split; [simpl; lia|]. split; constructor.
  - vm_compute in E. discriminate.
Defined.

(** With [MaxEventsCondition(n)] a run ends: the loop handles at most
    [n - event_count] events, so with more fuel than that [run] returns or
    raises, and the count of events it leaves is at most [n] (or what it
    was, when that was more). *)
Theorem run_with_max_events_ends (max_events : Z) (fuel : nat)
    (schedules : Z → list nat) (self : EventDrivenExecutor.t) :
  EventDrivenExecutor.termination_condition self
  = TerminationCondition.MaxEventsCondition max_events →
  (Z.to_nat (max_events - EventDrivenExecutor.event_count self) < fuel)%nat →
  ∃ self' r,
    EventDrivenExecutor.run fuel schedules self = Some (self', r) ∧
    EventDrivenExecutor.event_count self'
    ≤ Z.max max_events (EventDrivenExecutor.event_count self).
Proof.
  intros Hcond Hfuel. rewrite run_seeded.
  exact (while_max_events max_events fuel schedules (seeded self) Hcond Hfuel).
Qed.

Lemma run_with_max_events_ends_witness :
  ∃ self' r,
    EventDrivenExecutor.run 4 (λ _, []) ticking_executor = Some (self', r) ∧
    EventDrivenExecutor.event_count self'
    ≤ Z.max 3 (EventDrivenExecutor.event_count ticking_executor).
Proof.
  apply (run_with_max_events_ends 3 4 (λ _, []) ticking_executor); [reflexivity|].
  simpl. lia.
Defined.

(** [run] returns for one of two reasons only: the termination condition
    holds of the executor as it is left, or no event is left in the queue.
    With the default condition, [EmptyQueueCondition], both say that the
    queue is empty: a run that returns has handled every event. *)
Theorem returning_run_is_done (fuel : nat) (schedules : Z → list nat)
    (self self' : EventDrivenExecutor.t) (returned : ExecutionLog.t) :
  EventDrivenExecutor.run fuel schedules self = Some (self', Ok returned) →
  (EventDrivenExecutor._should_terminate self' = Ok true ∨
   queued (EventDrivenExecutor.event_queue self') = []) ∧
  (EventDrivenExecutor.termination_condition self
   = TerminationCondition.EmptyQueueCondition →
   queued (EventDrivenExecutor.event_queue self') = []).
Proof.
  rewrite run_seeded. intros Hrun.
  eapply while_moved_forward in Hrun as [Hforward [_ Hdone]];
    [|eapply moved_forward_within;
        [apply moved_forward_refl|apply within_event_seeded]].
  split; [done|]. intros Hcond. destruct Hdone as [Hstop|]; [|done].
  unfold EventDrivenExecutor._should_terminate in Hstop.
  rewrite (forward_condition _ _ Hforward), Hcond in Hstop. simpl in Hstop.
  injection Hstop as Hempty. rewrite is_empty_queued in Hempty.
  by destruct (queued _).
Qed.

Lemma returning_run_is_done_witness :
  ∃ (self' : EventDrivenExecutor.t) (returned : ExecutionLog.t),
    EventDrivenExecutor.run 4 (λ _, []) ticking_executor = Some (self', Ok returned) ∧
    (EventDrivenExecutor._should_terminate self' = Ok true ∨
     queued (EventDrivenExecutor.event_queue self') = []).
Proof.
  destruct (EventDrivenExecutor.run 4 (λ _, []) ticking_executor)
    as [[self' [returned|e]]|] eqn:E.
  - exists self', returned. split; [reflexivity|].
    exact (proj1 (returning_run_is_done 4 (λ _, []) ticking_executor self' returned E)).
  - vm_compute in E. discriminate.
  - vm_compute in E. discriminate.
Defined.

(** A run cannot go back to time 0.0. [run] pushes its first events
    (one per periodic task, [_generate_input], or ["start"] on an empty
    queue) with the time 0.0. On an executor whose clock is past 0.0, as an
    earlier run leaves it, and for which there is such an event to push,
    the run handles no event: unless the termination condition holds at
    once (then [run] returns the log as it was) or raises, the first [pop]
    yields an event due at 0.0 or before and [run] raises [ValueError]
    from [advance_to]. The count of events, the log, the clock and the
    component are as they were. *)
Theorem run_cannot_return_to_time_zero (fuel : nat) (schedules : Z → list nat)
    (ops : list EventQueue.op) (self self' : EventDrivenExecutor.t)
    (r : result ExecutionLog.t) :
  EventDrivenExecutor.event_queue self = EventQueue.run_ops ops EventQueue.__init__ →
  (0 < EventDrivenExecutor.current_time self)%Q →
  seed_events self ≠ [] →
  EventDrivenExecutor.run fuel schedules self = Some (self', r) →
  match EventDrivenExecutor._should_terminate (seeded self) with
  | Ok true => r = Ok (EventDrivenExecutor.log self)
  | Ok false => ∃ msg, r = Raise (ValueError msg)
  | Raise e => r = Raise e
  end ∧
  EventDrivenExecutor.event_count self' = EventDrivenExecutor.event_count self ∧
  EventDrivenExecutor.log self' = EventDrivenExecutor.log self ∧
  EventDrivenExecutor.sim_time self' = EventDrivenExecutor.sim_time self ∧
  EventDrivenExecutor.component self' = EventDrivenExecutor.component self.
Proof.
  intros Hqueue Hnow Hseed. rewrite run_seeded. destruct fuel as [|fuel]; [done|].
  cbn [EventDrivenExecutor.while_not_terminated].
  destruct (EventDrivenExecutor._should_terminate (seeded self)) as [[]|e];
    [by intros [= <- <-]| |by intros [= <- <-]].
  assert (queue_ok (EventDrivenExecutor.event_queue (seeded self))) as Hok.
  { simpl. rewrite Hqueue. apply queue_ok_push_all, queue_ok_run_ops, queue_ok_init. }
  assert (Forall keyed (EventQueue._queue (EventDrivenExecutor.event_queue (seeded self))))
    as Hkeyed.
  { simpl. rewrite Hqueue. apply keyed_push_all, keyed_run_ops. constructor. }
  pose proof (pop_earliest _ Hok Hkeyed) as Hpop.
  assert (queued (EventDrivenExecutor.event_queue (seeded self))
          = queued (EventDrivenExecutor.event_queue self) ++ seed_events self) as Hq
    by apply queued_push_all.
  destruct (EventQueue.pop (EventDrivenExecutor.event_queue (seeded self)))
    as [[event|] queue].
  - destruct Hpop as (Hperm & Hmin & _).
    destruct (seed_events self) as [|seed seeds] eqn:Hseeds; [done|].
    assert (Event.time seed = 0%Q) as Hzero.
    { pose proof (seed_events_time self) as Htime. rewrite Hseeds in Htime.
      by apply Forall_cons in Htime as [? _]. }
    assert (seed ∈ event :: queued queue) as Hin.
    { rewrite <- Hperm, Hq. apply elem_of_app. right. left. }
    assert (Event.time event <= 0)%Q as Hearly.
    { apply elem_of_cons in Hin as [<-|Hin].
      - rewrite Hzero. apply Qle_refl.
      - rewrite Forall_forall in Hmin. specialize (Hmin seed Hin).
        unfold not_after, lex_le in Hmin. simpl in Hmin. rewrite Hzero in Hmin.
        destruct Hmin as [Hlt|[Heq _]]; [by apply Qlt_le_weak|].
        rewrite Heq. apply Qle_refl. }
    unfold SimulationTime.advance_to.
    destruct (Qlt_le_dec _ _) as [Hlt|Hle]; [intros [= <- <-]; split; [eauto|done]|].
    exfalso. simpl in Hle. unfold EventDrivenExecutor.current_time in Hnow.
    apply (Qlt_irrefl 0). eapply Qlt_le_trans; [exact Hnow|].
    eapply Qle_trans; [exact Hle|exact Hearly].
  - destruct Hpop as (Hnil & _). rewrite Hq in Hnil.
    apply app_eq_nil in Hnil as [_ Hnil]. done.
Qed.

Lemma run_cannot_return_to_time_zero_witness :
  ∃ (self' : EventDrivenExecutor.t) (r : result ExecutionLog.t),
    EventDrivenExecutor.run 1 (λ _, []) ticking_executor_later = Some (self', r) ∧
    (∃ msg, r = Raise (ValueError msg)) ∧
    EventDrivenExecutor.event_count self' = 0.
Proof.
  destruct (EventDrivenExecutor.run 1 (λ _, []) ticking_executor_later)
    as [[self' r]|] eqn:E.
  - exists self', r. split; [reflexivity|].
    assert (seed_events ticking_executor_later ≠ []) as Hseed
      by (vm_compute; discriminate).
    destruct (run_cannot_return_to_time_zero 1 (λ _, []) [] ticking_executor_later
                self' r eq_refl eq_refl Hseed E) as (Hr & Hcount & _).
    split; [exact Hr|exact Hcount].
  - vm_compute in E. discriminate.
Defined.

(** * Further properties: input generators *)

Section fixed_inputs.

Import InputGenerator.

Variable input_sequence : list dict.

Lemma generate_fixed (input_names : list string) (round_number : Z) (state : dict) :
  (generate (FixedInputGenerator input_sequence) input_names round_number state).2
  = FixedInputGenerator input_sequence.
Proof.
  unfold generate, FixedInputGenerator. simpl. by destruct (_ <? _).
Qed.

Lemma generate_fixed_ok (input_names : list string) (round_number : Z) (state : dict)
    (inputs : dict) (generator : t) :
  generate (FixedInputGenerator input_sequence) input_names round_number state
  = (Ok inputs, generator) →
  round_number ≤ Z.of_nat (length input_sequence) ∧
  generator = FixedInputGenerator input_sequence.
Proof.
  unfold generate, FixedInputGenerator. simpl.
  destruct (Z.ltb_spec (Z.of_nat (length input_sequence)) round_number); [done|].
  by intros [= _ <-].
Qed.

Import Executor.

Lemma while_fixed_inputs (fuel : nat) (self self' : Executor.t)
    (r : result ExecutionLog.t) :
  input_generator self = FixedInputGenerator input_sequence →
  current_round self = Z.of_nat (length (ExecutionLog.rounds (log self))) →
  (length (ExecutionLog.rounds (log self)) ≤ length input_sequence)%nat →
  while_not_terminated fuel self = Some (self', r) →
  (length (ExecutionLog.rounds (log self')) ≤ length input_sequence)%nat ∧
  input_generator self' = FixedInputGenerator input_sequence.
Proof.
  revert self. induction fuel as [|fuel IH]; intros self Hgen Hround Hlen Hrun; [done|].
  cbn [while_not_terminated] in Hrun.
  destruct (TerminationCondition.should_terminate _ _ _ _ _) as [[]|];
    [by injection Hrun as <- <-| |by injection Hrun as <- <-].
  cbn [input_generator set_log_round] in Hrun. rewrite Hgen in Hrun.
  pose proof (generate_fixed (Component.inputs (component self)) (current_round self + 1)
                (Component.state (component self))) as Hsame.
  destruct (generate _ _ _ _) as [[inputs|] generator] eqn:Hgenerate.
  2:{ injection Hrun as <- <-. simpl in *. done. }
  apply generate_fixed_ok in Hgenerate as [Hbound ->].
  destruct (if track_task_order _ then _ else _) as [[task_order|]|]; [| |done].
  2:{ by injection Hrun as <- <-. }
  destruct (Component.execute_round _ _) as [[[component' inputs'] [outputs|]]|];
    [| |done].
  2:{ by injection Hrun as <- <-. }
  cbn in Hbound.
  apply IH in Hrun; [done|done| |].
  - cbn. rewrite length_app. simpl. lia.
  - cbn. rewrite length_app. simpl. lia.
Qed.

End fixed_inputs.

(** [FixedInputGenerator.generate] indexes its sequence like a list. For a
    round [n] from 1 to the length it returns the [n]-th inputs; above the
    length it raises [ValueError]. A round of 0 or below is not rejected:
    [input_sequence[n - 1]] then counts from the end, so round 0 returns
    the last inputs, and only a round of minus the length or below raises
    [IndexError]. The generator keeps nothing between calls. *)
Theorem fixed_generator_indexes_like_a_list (input_sequence : list dict)
    (input_names : list string) (round_number : Z) (state : dict) :
  let len := Z.of_nat (length input_sequence) in
  let answer :=
    InputGenerator.generate (InputGenerator.FixedInputGenerator input_sequence)
      input_names round_number state in
  (1 ≤ round_number ≤ len →
   ∃ inputs, input_sequence !! Z.to_nat (round_number - 1) = Some inputs ∧
             answer.1 = Ok inputs) ∧
  (len < round_number →
   answer.1 = Raise (ValueError ("No input defined for round " +:+ pretty round_number))) ∧
  (- len < round_number ≤ 0 →
   ∃ inputs, input_sequence !! Z.to_nat (len + round_number - 1) = Some inputs ∧
             answer.1 = Ok inputs) ∧
  (round_number ≤ - len → answer.1 = Raise (IndexError "list index out of range")) ∧
  answer.2 = InputGenerator.FixedInputGenerator input_sequence.
Proof.
  intros len answer. subst answer len. unfold InputGenerator.generate. simpl.
  destruct (Z.ltb_spec (Z.of_nat (length input_sequence)) round_number) as [Hlt|Hle];
    simpl; unfold InputGenerator.list_item.
  - repeat split; try (intros; lia).
  - split; [|split; [|split; [|split]]]; try done; try (intros; lia).
    + intros Hn.
      destruct (Z.ltb_spec (round_number - 1) 0); [lia|].
      destruct (Z.ltb_spec (round_number - 1) 0); [lia|].
      destruct (lookup_lt_is_Some_2 input_sequence (Z.to_nat (round_number - 1)))
        as [inputs Hinputs]; [lia|].
      exists inputs. by rewrite Hinputs.
    + intros Hn.
      destruct (Z.ltb_spec (round_number - 1) 0); [|lia].
      destruct (Z.ltb_spec (Z.of_nat (length input_sequence) + (round_number - 1)) 0);
        [lia|].
      replace (Z.of_nat (length input_sequence) + (round_number - 1))
        with (Z.of_nat (length input_sequence) + round_number - 1) by lia.
      destruct (lookup_lt_is_Some_2 input_sequence
                  (Z.to_nat (Z.of_nat (length input_sequence) + round_number - 1)))
        as [inputs Hinputs]; [lia|].
      exists inputs. by rewrite Hinputs.
    + intros Hn.
      destruct (Z.ltb_spec (round_number - 1) 0); [|lia].
      by destruct (Z.ltb_spec (Z.of_nat (length input_sequence) + (round_number - 1)) 0);
        [|lia].
Qed.

(** A run on fixed inputs completes at most as many rounds as there are
    inputs: however [run] ends, the log holds no more records than the
    sequence has entries. With [MaxRoundsCondition(n)] for an [n] above the
    length of the sequence, [run] therefore never returns a log: it
    raises. *)
Theorem fixed_inputs_bound_the_rounds (fuel : nat) (input_sequence : list dict)
    (self self' : Executor.t) (r : result ExecutionLog.t) :
  Executor.input_generator self = InputGenerator.FixedInputGenerator input_sequence →
  Executor.run fuel self = Some (self', r) →
  ExecutionLog.__len__ (Executor.log self') ≤ Z.of_nat (length input_sequence) ∧
  ∀ max_rounds : Z,
    Executor.termination_condition self
    = TerminationCondition.MaxRoundsCondition max_rounds →
    Z.of_nat (length input_sequence) < max_rounds →
    ∃ e, r = Raise e.
Proof.
  intros Hgen Hrun. unfold Executor.run in Hrun.
  pose proof Hrun as Hlen.
  apply (while_fixed_inputs input_sequence) in Hlen as [Hlen _];
    [|done|done|simpl; lia].
  unfold ExecutionLog.__len__. split; [lia|].
  intros max_rounds Hcond Hmore.
  apply (while_max_rounds_count max_rounds) in Hrun; [|done|done|simpl; lia].
  destruct r as [returned|e]; [lia|by exists e].
Qed.

Lemma fixed_inputs_bound_the_rounds_witness :
  ∃ (self' : Executor.t) (r : result ExecutionLog.t),
    Executor.run 4 counter_executor_built = Some (self', r) ∧
    ExecutionLog.__len__ (Executor.log self') ≤ 3.
Proof.
  destruct (Executor.run 4 counter_executor_built) as [[self' r]|] eqn:E.
  - exists self', r. split; [reflexivity|].
    exact (proj1 (fixed_inputs_bound_the_rounds 4 _ counter_executor_built self' r
                    eq_refl E)).
  - vm_compute in E. discriminate.
Defined.
